(** * The parametric action space of releso / SbSOvRL

    A shallow embedding of [releso/spline.py] (the classes
    [VariableLocation], [SplineSpaceDimension], [SplineDefinition],
    [NURBSDefinition], [CubeDefinition] and [Spline]) and of the action and
    observation methods of [SbSOvRL/parser_environment.py].

    Numeric model.  Python [float]s are binary64 numbers; they are modelled
    by the rationals [Q] with exact arithmetic: comparisons are the
    decidable comparisons of [Q], [==] on floats is [Qeq_bool].  Rounding,
    infinities and NaN are outside the model.  The statements about
    computed positions and steps are therefore statements of order and of
    bounds, which rounding to nearest preserves, and they carry
    [finite_range] where an overflow in the code would matter.  Python
    [int]s are [Z]; where the code sends an integer through a float
    ([action / 2]) or through a 64-bit product ([np.prod]), the statements
    carry the range in which that is exact.

    Exceptions are values of [Exception]; a computation that may raise
    returns a [Result].  Log records written through the parser logger are
    collected in a list that is returned next to the result. *)

From Stdlib Require Import ZArith QArith Qminmax Lqa Lia.
From stdpp Require Import base list strings sorting.

Local Open Scope Q_scope.

(** [map] on lists is stdpp's [fmap]. *)
Abbreviation map := (fmap (M:=list)) (only parsing).

(** ** Exceptions and the error monad *)

Inductive Exception : Type :=
| ParserException (parent item : string)
| ValidationError (field : string)
| RuntimeError
| ZeroDivisionError
| IndexError
| AttributeError
| TypeError.

Inductive Result (A : Type) : Type :=
| Ok (a : A)
| Raise (e : Exception).
Arguments Ok {A} a.
Arguments Raise {A} e.

#[global] Instance Result_bind : MBind Result := fun A B k m =>
  match m with
  | Ok a => k a
  | Raise e => Raise e
  end.

Definition is_Ok {A} (m : Result A) : bool :=
  match m with Ok _ => true | Raise _ => false end.

Fixpoint traverse {A B} (f : A -> Result B) (l : list A) : Result (list B) :=
  match l with
  | [] => Ok []
  | a :: l' => b ← f a; bs ← traverse f l'; Ok (b :: bs)
  end.

(** ** Float operations of Python and numpy *)

(** [x < y] on floats. *)
Definition Qlt_bool (x y : Q) : bool := negb (Qle_bool y x).

(** [x / y]: Python raises [ZeroDivisionError] on a zero divisor. *)
Definition truediv (x y : Q) : Result Q :=
  if Qeq_bool y 0 then Raise ZeroDivisionError else Ok (x / y).

Definition np_maximum (x y : Q) : Q := if Qle_bool x y then y else x.
Definition np_minimum (x y : Q) : Q := if Qle_bool x y then x else y.

(** [np.clip(a, a_min, a_max)] is [minimum(a_max, maximum(a, a_min))]. *)
Definition np_clip (a a_min a_max : Q) : Q :=
  np_minimum (np_maximum a a_min) a_max.

(** [np.linspace(start, stop, num)] with the default [endpoint=True]:
    [num] samples [start + i * step] with [step = (stop - start) / (num - 1)];
    a single sample is [start]. *)
Definition np_linspace (start stop : Q) (num : Z) : list Q :=
  match Z.to_nat num with
  | O => []
  | S O => [start]
  | S n =>
      map (fun i : nat =>
             Qred (start + inject_Z (Z.of_nat i) * ((stop - start) / inject_Z (Z.of_nat n))))
          (seq 0 (S n))
  end.

Definition np_zeros (n : Z) : list Q := replicate (Z.to_nat n) 0.
Definition np_ones (n : Z) : list Q := replicate (Z.to_nat n) 1.

(** [np.prod] of a list of ints; the empty product is 1.  numpy multiplies
    in 64-bit integers: the model is the code for products below [2^63]. *)
Definition np_prod (l : list Z) : Z := foldr Z.mul 1%Z l.

(** ** VariableLocation *)

Record VariableLocation : Type := mkVariableLocation {
  current_position : Q;
  min_value : Q;
  max_value : Q;
  n_steps : option Z;
  step : Q;
  _is_action : option bool;
  _original_position : option Q
}.

(** The [values] dictionary handed to the field validators: a field is
    present once it has been validated. *)
Record VLValues : Type := mkVLValues {
  values_current_position : option Q;
  values_min_value : option Q
}.

Definition set_variable_to_current_position_if_not_given
    (v : option Q) (values : VLValues) (field : string) : Result Q :=
  match v with
  | None =>
      match values_current_position values with
      | Some c => Ok c
      | None => Raise (ParserException "VariableLocation" field)
      end
  | Some x => Ok x
  end.

Definition max_value_is_greater_than_min_value
    (v : option Q) (values : VLValues) (field : string) : Result Q :=
  match values_min_value values with
  | None => Raise (ParserException "VariableLocation" field)
  | Some mn =>
      match v with
      | None => Raise RuntimeError
      | Some x =>
          if Qlt_bool x mn
          then Raise (ParserException "VariableLocation" field)
          else Ok x
      end
  end.

(** Root validator: the step of a discrete action. *)
Definition define_step (step : option Q) (n_steps : option Z)
    (min_value max_value : Q) : Result Q :=
  let value_range := max_value - min_value in
  match step with
  | Some s => Ok s
  | None =>
      let n_steps := match n_steps with None => 10%Z | Some n => n end in
      truediv value_range (inject_Z n_steps)
  end.

(** [conint(ge=1)]. *)
Definition conint_ge1 (field : string) (n : Z) : Result Z :=
  if (1 <=? n)%Z then Ok n else Raise (ValidationError field).

(** Keyword arguments of the constructor.  [kw_n_steps = None] is an
    omitted keyword, for which the field default 10 is stored. *)
Record VLArgs : Type := mkVLArgs {
  kw_current_position : Q;
  kw_min_value : option Q;
  kw_max_value : option Q;
  kw_n_steps : option Z;
  kw_step : option Q
}.

(** The constructor [VariableLocation]: the fields are validated in declaration
    order, then the root validator runs. *)
Definition VariableLocation_init (data : VLArgs) : Result VariableLocation :=
  let cp := kw_current_position data in
  let values := mkVLValues (Some cp) None in
  mn ← set_variable_to_current_position_if_not_given
          (kw_min_value data) values "min_value";
  let values := mkVLValues (Some cp) (Some mn) in
  mx0 ← set_variable_to_current_position_if_not_given
           (kw_max_value data) values "max_value";
  mx ← max_value_is_greater_than_min_value (Some mx0) values "max_value";
  ns ← match kw_n_steps data with
        | None => Ok (Some 10%Z)
        | Some n => n' ← conint_ge1 "n_steps" n; Ok (Some n')
        end;
  st ← define_step (kw_step data) ns mn mx;
  Ok (mkVariableLocation cp mn mx ns st None None).

(** The methods mutate [self]; each returns its result with the new state. *)

Definition is_action (self : VariableLocation) : bool * VariableLocation :=
  match _is_action self with
  | Some b => (b, self)
  | None =>
      let b := Qlt_bool (current_position self) (max_value self)
               || Qlt_bool (min_value self) (current_position self) in
      (b, mkVariableLocation (current_position self) (min_value self)
            (max_value self) (n_steps self) (step self) (Some b)
            (_original_position self))
  end.

Definition snapshot (self : VariableLocation) : option Q :=
  match _original_position self with
  | None => Some (current_position self)
  | Some o => Some o
  end.

Definition apply_discrete_action (self : VariableLocation) (increasing : bool)
    : Q * VariableLocation :=
  let orig := snapshot self in
  let step' := if increasing then step self else - step self in
  let pos := np_clip (current_position self + step') (min_value self) (max_value self) in
  (pos, mkVariableLocation pos (min_value self) (max_value self)
          (n_steps self) (step self) (_is_action self) orig).

Definition apply_continuos_action (self : VariableLocation) (value : Q)
    : Q * VariableLocation :=
  let orig := snapshot self in
  let delta := max_value self - min_value self in
  let descaled_value := ((value + 1) / 2) * delta in
  let pos := np_clip (descaled_value + min_value self) (min_value self) (max_value self) in
  (pos, mkVariableLocation pos (min_value self) (max_value self)
          (n_steps self) (step self) (_is_action self) orig).

Definition reset (self : VariableLocation) : VariableLocation :=
  match _original_position self with
  | Some o =>
      mkVariableLocation o (min_value self) (max_value self)
        (n_steps self) (step self) (_is_action self) (_original_position self)
  | None => self
  end.

(** ** SplineSpaceDimension *)

Inductive LogMessage : Type :=
| KnotVectorGiven (name : string)
| KnotVectorWrongLength (len should_be : Z)
| KnotVectorNotGiven (name : string)
| KnotVectorShorterThanOpen (n_knots open_length : Z).

Inductive LogRecord : Type :=
| LogDebug (m : LogMessage)
| LogWarning (m : LogMessage).

Record SplineSpaceDimension : Type := mkSplineSpaceDimension {
  name : string;
  number_of_points : Z;
  degree : Z;
  knot_vector : option (list Q)
}.

Record SSDValues : Type := mkSSDValues {
  values_name : option string;
  values_number_of_points : option Z;
  values_degree : option Z
}.

(** Validator of [knot_vector] ([always=True]).  The value it returns is
    what the field stores; a Python function that ends without [return]
    returns [None]. *)
Definition validate_knot_vector (v : option (list Q)) (values : SSDValues)
    : list LogRecord * Result (option (list Q)) :=
  match values_number_of_points values, values_degree values, values_name values with
  | Some p, Some d, Some nm =>
      let n_knots := (p + d + 1)%Z in
      match v with
      | Some l =>
          let log := [LogDebug (KnotVectorGiven nm)] in
          if (Z.of_nat (length l) =? n_knots)%Z
          then (log, Ok (Some l))
          else (log ++ [LogWarning (KnotVectorWrongLength (Z.of_nat (length l)) n_knots)],
                Ok None)
      | None =>
          let log := [LogDebug (KnotVectorNotGiven nm)] in
          let starting_ending := (d + 1)%Z in
          let middle := (n_knots - 2 * starting_ending)%Z in
          if (0 <=? middle)%Z
          then (log, Ok (Some (np_zeros (starting_ending - 1)
                               ++ np_linspace 0 1 (middle + 2)
                               ++ np_ones (starting_ending - 1))))
          else (log ++ [LogWarning (KnotVectorShorterThanOpen n_knots (starting_ending * 2))],
                Ok (Some (np_zeros starting_ending ++ np_ones starting_ending)))
      end
  | _, _, _ => ([], Raise (ParserException "SplineSpaceDimension" "knot_vector"))
  end.

Definition validated {A} (m : Result A) : option A :=
  match m with Ok a => Some a | Raise _ => None end.

Record SSDArgs : Type := mkSSDArgs {
  kw_name : string;
  kw_number_of_points : Z;
  kw_degree : Z;
  kw_knot_vector : option (list Q)
}.

(** The constructor of [SplineSpaceDimension]: a field that fails its own
    validation is absent from [values] when [validate_knot_vector] runs. *)
Definition SplineSpaceDimension_init (data : SSDArgs)
    : list LogRecord * Result SplineSpaceDimension :=
  let p := conint_ge1 "number_of_points" (kw_number_of_points data) in
  let d := conint_ge1 "degree" (kw_degree data) in
  let values := mkSSDValues (Some (kw_name data)) (validated p) (validated d) in
  let '(log, kv) := validate_knot_vector (kw_knot_vector data) values in
  (log,
   kv ← kv; p ← p; d ← d;
   Ok (mkSplineSpaceDimension (kw_name data) p d kv)).

Definition get_knot_vector (self : SplineSpaceDimension) : option (list Q) :=
  knot_vector self.

(** ** SplineDefinition *)

(** An entry of [control_point_variables].  The field is declared as a list
    of lists; the default grid of a single axis holds bare
    [VariableLocation] objects instead. *)
Inductive GridItem : Type :=
| Bare (v : VariableLocation)
| Tuple (l : list VariableLocation).

(** [current_list if type(current_list) is list else [current_list]] *)
Definition as_list (current_list : GridItem) : list VariableLocation :=
  match current_list with
  | Tuple l => l
  | Bare v => [v]
  end.

Record SplineDefinition : Type := mkSplineDefinition {
  space_dimensions : list SplineSpaceDimension;
  spline_dimension : Z;
  control_point_variables : option (list GridItem)
}.

(** The three-way choice of bounds made for each grid value. *)
Definition boundary_variable_location (element dim_spacing : Q)
    : Result VariableLocation :=
  if Qeq_bool element 0 then
    VariableLocation_init
      (mkVLArgs element (Some element) (Some (element + dim_spacing)) None None)
  else if Qeq_bool element 1 then
    VariableLocation_init
      (mkVLArgs element (Some (element - dim_spacing)) (Some element) None None)
  else
    VariableLocation_init
      (mkVLArgs element (Some (element - dim_spacing)) (Some (element + dim_spacing))
         None None).

(** One iteration of the loop over [zip(dimension_lists, dim_spacings)]. *)
Definition grid_step (v : option (list GridItem)) (d : list Q * Q)
    : Result (option (list GridItem)) :=
  let '(inner_dim, dim_spacing) := d in
  match v with
  | None =>
      v ← traverse (fun element =>
                      x ← boundary_variable_location element dim_spacing;
                      Ok (Bare x)) inner_dim;
      Ok (Some v)
  | Some v =>
      temp_v ← traverse (fun current_list =>
                  traverse (fun element =>
                      let elem := as_list current_list in
                      x ← boundary_variable_location element dim_spacing;
                      Ok (Tuple ([x] ++ elem))) inner_dim) v;
      Ok (Some (mjoin (M:=list) temp_v))
  end.

Fixpoint foldlM {A B} (f : A -> B -> Result A) (a : A) (l : list B) : Result A :=
  match l with
  | [] => Ok a
  | b :: l' => a' ← f a b; foldlM f a' l'
  end.

(** Validator of [control_point_variables] ([always=True]); [values] holds
    [space_dimensions] when that field validated. *)
Definition make_default_control_point_grid
    (v : option (list GridItem)) (values : option (list SplineSpaceDimension))
    : Result (option (list GridItem)) :=
  match v with
  | Some _ => Ok v
  | None =>
      match values with
      | None => Raise (ParserException "SplineDefinition" "control_point_variables")
      | Some spline_dimensions =>
          let n_points_in_dim := reverse (map number_of_points spline_dimensions) in
          dims ← traverse (fun n_p =>
                    let dimension_list := np_linspace 0 1 n_p in
                    dim_spacing ← truediv 1 (inject_Z ((n_p - 1) * 2));
                    Ok (dimension_list, dim_spacing)) n_points_in_dim;
          foldlM grid_step None dims
      end
  end.

(** A supplied control-point entry: a float or the record of a
    [VariableLocation]. *)
Inductive CPInput : Type :=
| CPFloat (x : Q)
| CPVariable (data : VLArgs).

(** Field validation of [Union[VariableLocation, confloat(ge=0, le=1)]]. *)
Definition validate_cp_item (e : CPInput) : Result (Q + VariableLocation) :=
  match e with
  | CPVariable data => x ← VariableLocation_init data; Ok (inr x)
  | CPFloat x =>
      if Qle_bool 0 x && Qle_bool x 1 then Ok (inl x)
      else Raise (ValidationError "control_point_variables")
  end.

(** Validator of each item (each inner list) of [control_point_variables]. *)
Fixpoint convert_all_control_point_locations_to_variable_locations
    (v : list (Q + VariableLocation)) : Result (list VariableLocation) :=
  match v with
  | [] => Ok []
  | element :: v' =>
      x ← match element with
          | inl f => VariableLocation_init (mkVLArgs f None None None None)
          | inr x => Ok x
          end;
      if Qle_bool 0 (current_position x) && Qle_bool (current_position x) 1
      then new_list ← convert_all_control_point_locations_to_variable_locations v';
           Ok (x :: new_list)
      else Raise (ParserException "SplineDefinition" "control_point_variables")
  end.

Record SDArgs : Type := mkSDArgs {
  kw_space_dimensions : list SSDArgs;
  kw_spline_dimension : Z;
  kw_control_point_variables : option (list (list CPInput))
}.

(** Field pipeline of [control_point_variables]: a supplied value is
    validated item by item, then the whole-field validator runs; an absent
    value goes to the whole-field validator directly. *)
Definition validate_control_point_variables
    (v : option (list (list CPInput))) (values : option (list SplineSpaceDimension))
    : Result (option (list GridItem)) :=
  v ← match v with
      | None => Ok None
      | Some rows =>
          rows ← traverse (fun row =>
                    row ← traverse validate_cp_item row;
                    row ← convert_all_control_point_locations_to_variable_locations row;
                    Ok (Tuple row)) rows;
          Ok (Some rows)
      end;
  make_default_control_point_grid v values.

(** The constructor of [SplineDefinition] (and of [BSplineDefinition],
    which adds no field).  The log records of the axes are dropped here. *)
Definition SplineDefinition_init (data : SDArgs) : Result SplineDefinition :=
  let dims := traverse (fun a => snd (SplineSpaceDimension_init a))
                (kw_space_dimensions data) in
  let sd := conint_ge1 "spline_dimension" (kw_spline_dimension data) in
  cpv ← validate_control_point_variables (kw_control_point_variables data)
          (validated dims);
  dims ← dims; sd ← sd;
  Ok (mkSplineDefinition dims sd cpv).


(** *** Methods of SplineDefinition *)

(** Iterating an entry of the grid and using what it yields as a
    [VariableLocation]: a bare [VariableLocation] yields its (name, value)
    pairs, which have none of the attributes asked for. *)
Definition iter_item (sub_list : GridItem) : Result (list VariableLocation) :=
  match sub_list with
  | Tuple l => Ok l
  | Bare _ => Raise AttributeError
  end.

(** Iterating [self.control_point_variables]; [None] is not iterable. *)
Definition grid_rows (self : SplineDefinition) : Result (list (list VariableLocation)) :=
  match control_point_variables self with
  | None => Raise TypeError
  | Some g => traverse iter_item g
  end.

Definition with_rows (self : SplineDefinition) (rows : list (list VariableLocation))
    : SplineDefinition :=
  mkSplineDefinition (space_dimensions self) (spline_dimension self)
    (Some (map Tuple rows)).

Definition get_number_of_points (self : SplineDefinition) : Z :=
  np_prod (map number_of_points (space_dimensions self)).

Definition get_control_points (self : SplineDefinition) : Result (list (list Q)) :=
  rows ← grid_rows self;
  Ok (map (map current_position) rows).

(** A reference to a [VariableLocation] object: the place of the object
    inside the definition that owns it.  The lists returned by
    [get_actions] hold such references, not copies. *)
Inductive VarRef : Type :=
| ControlPointRef (i j : nat)
| WeightRef (i : nat).

#[global] Instance VarRef_eq_dec : EqDecision VarRef.
Proof. solve_decision. Defined.

Definition row_actions (i : nat) (sub_dim : list VariableLocation) : list VarRef :=
  mjoin (M:=list)
    (imap (fun j variable =>
             if fst (is_action variable) then [ControlPointRef i j] else [])
       sub_dim).

(** [get_actions]: the references of the action-eligible variables, row by
    row; [is_action] leaves its cached answer in every variable it visits. *)
Definition SplineDefinition_get_actions (self : SplineDefinition)
    : Result (list VarRef * SplineDefinition) :=
  rows ← grid_rows self;
  Ok (mjoin (M:=list) (imap row_actions rows),
      with_rows self (map (map (fun variable => snd (is_action variable))) rows)).

Definition SplineDefinition_reset (self : SplineDefinition) : Result SplineDefinition :=
  rows ← grid_rows self;
  Ok (with_rows self (map (map reset) rows)).

(** ** NURBSDefinition *)

(** An entry of [weights]. *)
Inductive WeightItem : Type :=
| WFloat (x : Q)
| WVariable (v : VariableLocation).

Record NURBSDefinition : Type := mkNURBSDefinition {
  nurbs_base : SplineDefinition;
  weights : list WeightItem
}.

(** Validator of [weights] (the whole list). *)
Definition validate_weights (v : option (list WeightItem))
    (values : option (list SplineSpaceDimension)) : Result (list WeightItem) :=
  match values with
  | None => Raise (ParserException "SplineDefinition" "weights")
  | Some dims =>
      let n_cp := np_prod (map number_of_points dims) in
      match v with
      | Some l =>
          if (Z.of_nat (length l) =? n_cp)%Z then Ok l
          else Raise (ParserException "SplineDefinition NURBS" "weights")
      | None => Ok (map WFloat (np_ones n_cp))
      end
  end.

(** Validator of each item of [weights].  For a float it calls
    [VariableLocation(current_position=v)].  Every other construction of a
    [VariableLocation] in the file passes [save_location], a field that
    the base model of the repository requires; this call does not, and the
    constructor rejects it for the missing field. *)
Definition convert_weights_into_variable_location (v : WeightItem) : Result WeightItem :=
  match v with
  | WFloat _ => Raise (ValidationError "save_location")
  | WVariable _ => Ok v
  end.

Inductive WeightInput : Type :=
| WInFloat (x : Q)
| WInVariable (data : VLArgs).

(** Field validation of [Union[float, VariableLocation]]. *)
Definition validate_weight_item (e : WeightInput) : Result WeightItem :=
  match e with
  | WInFloat x => Ok (WFloat x)
  | WInVariable data => vl ← VariableLocation_init data; Ok (WVariable vl)
  end.

(** Field pipeline of [weights].  The field is declared
    [List[Union[float, VariableLocation]]] with no default and its
    validators are not [always]: it is a required field, and pydantic
    reports an absent required field as missing without running its
    validators.  A supplied list is validated item by item, then
    [validate_weights] runs on the list. *)
Definition validate_weights_field (v : option (list WeightInput))
    (values : option (list SplineSpaceDimension)) : Result (list WeightItem) :=
  match v with
  | None => Raise (ValidationError "weights")
  | Some l =>
      items ← traverse (fun e =>
                 w ← validate_weight_item e;
                 convert_weights_into_variable_location w) l;
      validate_weights (Some items) values
  end.

(** The constructor of [NURBSDefinition]. *)
Definition NURBSDefinition_init (data : SDArgs) (kw_weights : option (list WeightInput))
    : Result NURBSDefinition :=
  let dims := traverse (fun a => snd (SplineSpaceDimension_init a))
                (kw_space_dimensions data) in
  let sd := conint_ge1 "spline_dimension" (kw_spline_dimension data) in
  cpv ← validate_control_point_variables (kw_control_point_variables data)
          (validated dims);
  w ← validate_weights_field kw_weights (validated dims);
  dims ← dims; sd ← sd;
  Ok (mkNURBSDefinition (mkSplineDefinition dims sd cpv) w).

(** Using an entry of [weights] as a [VariableLocation]. *)
Definition weight_variable (weight : WeightItem) : Result VariableLocation :=
  match weight with
  | WVariable v => Ok v
  | WFloat _ => Raise AttributeError
  end.

Definition weight_actions (ws : list VariableLocation) : list VarRef :=
  mjoin (M:=list)
    (imap (fun i variable => if fst (is_action variable) then [WeightRef i] else []) ws).

Definition NURBSDefinition_get_actions (self : NURBSDefinition)
    : Result (list VarRef * NURBSDefinition) :=
  '(actions, base) ← SplineDefinition_get_actions (nurbs_base self);
  ws ← traverse weight_variable (weights self);
  Ok (actions ++ weight_actions ws,
      mkNURBSDefinition base
        (map (fun variable => WVariable (snd (is_action variable))) ws)).

Definition NURBSDefinition_reset (self : NURBSDefinition) : Result NURBSDefinition :=
  base ← SplineDefinition_reset (nurbs_base self);
  ws ← traverse weight_variable (weights self);
  Ok (mkNURBSDefinition base (map (fun weight => WVariable (reset weight)) ws)).

(** ** The spline seen from the environment *)

Inductive SplineTypes : Type :=
| BSplineDef (d : SplineDefinition)
| NURBSDef (d : NURBSDefinition).

Definition Spline_get_actions (self : SplineTypes) : Result (list VarRef * SplineTypes) :=
  match self with
  | BSplineDef d => '(a, d') ← SplineDefinition_get_actions d; Ok (a, BSplineDef d')
  | NURBSDef d => '(a, d') ← NURBSDefinition_get_actions d; Ok (a, NURBSDef d')
  end.

Definition Spline_reset (self : SplineTypes) : Result SplineTypes :=
  match self with
  | BSplineDef d => d' ← SplineDefinition_reset d; Ok (BSplineDef d')
  | NURBSDef d => d' ← NURBSDefinition_reset d; Ok (NURBSDef d')
  end.

(** Calling a method on the object behind a reference: the object is
    updated in place, inside the definition that owns it. *)
Definition alter_item (f : VariableLocation -> VariableLocation) (j : nat)
    (it : GridItem) : GridItem :=
  match it with
  | Tuple l => Tuple (alter f j l)
  | Bare v => Bare v
  end.

Definition alter_weight (f : VariableLocation -> VariableLocation)
    (w : WeightItem) : WeightItem :=
  match w with
  | WVariable v => WVariable (f v)
  | WFloat x => WFloat x
  end.

Definition alter_grid (f : VariableLocation -> VariableLocation) (i j : nat)
    (d : SplineDefinition) : SplineDefinition :=
  mkSplineDefinition (space_dimensions d) (spline_dimension d)
    (alter (alter_item f j) i <$> control_point_variables d).

Definition alter_var (f : VariableLocation -> VariableLocation) (r : VarRef)
    (s : SplineTypes) : SplineTypes :=
  match r, s with
  | ControlPointRef i j, BSplineDef d => BSplineDef (alter_grid f i j d)
  | ControlPointRef i j, NURBSDef d =>
      NURBSDef (mkNURBSDefinition (alter_grid f i j (nurbs_base d)) (weights d))
  | WeightRef i, NURBSDef d =>
      NURBSDef (mkNURBSDefinition (nurbs_base d) (alter (alter_weight f) i (weights d)))
  | WeightRef _, BSplineDef d => BSplineDef d
  end.

Definition base_of (s : SplineTypes) : SplineDefinition :=
  match s with
  | BSplineDef d => d
  | NURBSDef d => nurbs_base d
  end.

(** The object behind a reference. *)
Definition get_var (s : SplineTypes) (r : VarRef) : option VariableLocation :=
  match r with
  | ControlPointRef i j =>
      g ← control_point_variables (base_of s);
      it ← g !! i;
      match it with Tuple l => l !! j | Bare _ => None end
  | WeightRef i =>
      match s with
      | NURBSDef d =>
          w ← weights d !! i;
          match w with WVariable v => Some v | WFloat _ => None end
      | BSplineDef _ => None
      end
  end.

(** ** Environment *)

Record Environment : Type := mkEnvironment {
  spline : SplineTypes;
  discrete_actions : bool;
  _actions : list VarRef
}.

(** The constructor keeps the answer of [self.spline.get_actions()]. *)
Definition Environment_init (spline : SplineTypes) (discrete_actions : bool)
    : Result Environment :=
  '(actions, spline) ← Spline_get_actions spline;
  Ok (mkEnvironment spline discrete_actions actions).

Inductive Space : Type :=
| Discrete (n : Z)
| Box (low high : Q) (shape : list Z).

Definition _set_up_actions (self : Environment) : Space :=
  if discrete_actions self
  then Discrete (Z.of_nat (length (_actions self)) * 2)
  else Box (-1) 1 [Z.of_nat (length (_actions self))].

Inductive Action : Type :=
| DiscreteAction (a : Z)
| ContinuousAction (a : list Q).

(** [l[i]] on a Python list: a negative index counts from the end. *)
Definition py_getitem {A} (l : list A) (i : Z) : Result A :=
  let n := Z.of_nat (length l) in
  let i' := if (i <? 0)%Z then (i + n)%Z else i in
  if (i' <? 0)%Z then Raise IndexError
  else match l !! Z.to_nat i' with
       | Some x => Ok x
       | None => Raise IndexError
       end.

Definition with_spline (self : Environment) (s : SplineTypes) : Environment :=
  mkEnvironment s (discrete_actions self) (_actions self).

(** [apply_action].  [int(action/2)] truncates towards zero ([Z.quot]; the
    division is a float division, exact for [exact_half] integers) and
    [action%2] is the floor remainder ([Z.modulo]).  An [int] is not
    iterable and a list has no remainder: the other kind of action ends in
    [TypeError]. *)
Definition apply_action (self : Environment) (action : Action) : Result Environment :=
  if discrete_actions self then
    match action with
    | DiscreteAction a =>
        let increasing := (a mod 2 =? 0)%Z in
        let action_index := Z.quot a 2 in
        r ← py_getitem (_actions self) action_index;
        Ok (with_spline self
              (alter_var (fun v => snd (apply_discrete_action v increasing)) r
                 (spline self)))
    | ContinuousAction _ => Raise TypeError
    end
  else
    match action with
    | ContinuousAction a =>
        Ok (foldl (fun env '(new_value, action_obj) =>
                     with_spline env
                       (alter_var (fun v => snd (apply_continuos_action v new_value))
                          action_obj (spline env)))
              self (zip a (_actions self)))
    | DiscreteAction _ => Raise TypeError
    end.

(** * Histories of calls

    The vocabulary of the statements below: what a caller can do to a
    [VariableLocation], and to the variables of a spline through the
    references handed out by [get_actions]. *)

Inductive Call : Type :=
| CallDiscrete (increasing : bool)
| CallContinuous (value : Q)
| CallReset.

Definition call (self : VariableLocation) (c : Call) : VariableLocation :=
  match c with
  | CallDiscrete increasing => snd (apply_discrete_action self increasing)
  | CallContinuous value => snd (apply_continuos_action self value)
  | CallReset => reset self
  end.

Definition is_mutation (c : Call) : bool :=
  match c with CallReset => false | _ => true end.

Definition calls (self : VariableLocation) (cs : list Call) : VariableLocation :=
  foldl call self cs.

Definition in_bounds (v : VariableLocation) : Prop :=
  min_value v <= current_position v /\ current_position v <= max_value v.


(** What the owner of a spline can do: call a method of one variable
    through its reference, or reset the spline. *)
Inductive SplineCall : Type :=
| VarCall (r : VarRef) (c : Call)
| ResetCall.

Definition spline_call (s : SplineTypes) (c : SplineCall) : Result SplineTypes :=
  match c with
  | VarCall r c => Ok (alter_var (fun v => call v c) r s)
  | ResetCall => Spline_reset s
  end.

Definition spline_calls (s : SplineTypes) (cs : list SplineCall) : Result SplineTypes :=
  foldlM spline_call s cs.

(** The fields hold what their declarations say: the grid is a list of
    lists of [VariableLocation], every weight is a [VariableLocation]. *)
Definition is_tuple (it : GridItem) : bool :=
  match it with Tuple _ => true | Bare _ => false end.

Definition is_variable (w : WeightItem) : bool :=
  match w with WVariable _ => true | WFloat _ => false end.

Definition nested_grid (d : SplineDefinition) : bool :=
  match control_point_variables d with
  | Some g => forallb is_tuple g
  | None => false
  end.

Definition nested (s : SplineTypes) : bool :=
  match s with
  | BSplineDef d => nested_grid d
  | NURBSDef d => nested_grid (nurbs_base d) && forallb is_variable (weights d)
  end.

(** The variables of a spline, row by row, and its weights. *)
Definition rows_of (s : SplineTypes) : list (list VariableLocation) :=
  match control_point_variables (base_of s) with
  | Some g => map as_list g
  | None => []
  end.

Definition weights_of (s : SplineTypes) : list VariableLocation :=
  match s with
  | BSplineDef _ => []
  | NURBSDef d =>
      mjoin (M:=list)
        (map (fun w => match w with WVariable v => [v] | WFloat _ => [] end) (weights d))
  end.

Definition variables (s : SplineTypes) : list VariableLocation :=
  mjoin (M:=list) (rows_of s) ++ weights_of s.

(** No variable has been mutated yet. *)
Definition fresh (s : SplineTypes) : Prop :=
  Forall (fun v => _original_position v = None) (variables s).

(** The position that [reset] restores. *)
Definition restore_point (v : VariableLocation) : Q :=
  default (current_position v) (_original_position v).

(** Applying [f] to every variable of a spline. *)
Definition map_item (f : VariableLocation -> VariableLocation) (it : GridItem)
    : GridItem :=
  match it with
  | Tuple l => Tuple (map f l)
  | Bare v => Bare (f v)
  end.

Definition map_grid (f : VariableLocation -> VariableLocation) (d : SplineDefinition)
    : SplineDefinition :=
  mkSplineDefinition (space_dimensions d) (spline_dimension d)
    (map (map_item f) <$> control_point_variables d).

Definition map_vars (f : VariableLocation -> VariableLocation) (s : SplineTypes)
    : SplineTypes :=
  match s with
  | BSplineDef d => BSplineDef (map_grid f d)
  | NURBSDef d =>
      NURBSDef (mkNURBSDefinition (map_grid f (nurbs_base d))
                  (map (alter_weight f) (weights d)))
  end.

(** * Vocabulary of the construction-time properties *)

(** A property of every variable of a grid under construction. *)
Definition grid_Forall (P : VariableLocation -> Prop) (v : option (list GridItem)) : Prop :=
  match v with
  | Some g => Forall (fun it => Forall P (as_list it)) g
  | None => True
  end.

(** The position lies in the unit interval. *)
Definition unit_position (v : VariableLocation) : Prop :=
  0 <= current_position v <= 1.

(** The position asked for by a supplied control-point entry. *)
Definition cp_value (e : CPInput) : Q :=
  match e with
  | CPFloat x => x
  | CPVariable data => kw_current_position data
  end.

(** * Vocabulary of the default grid *)

(** The half-spacing of an axis of [n] points. *)
Definition axis_spacing (n : Z) : Q := 1 / inject_Z ((n - 1) * 2).

(** The [i]-th of [n] equally spaced values of [[0, 1]]. *)
Definition grid_value (n : Z) (i : nat) : Q :=
  Qred (inject_Z (Z.of_nat i) / inject_Z (n - 1)).

(** The variable made for the grid value [element]: room [h] on each side,
    except below 0 and above 1. *)
Definition bounded_variable (element h : Q) : VariableLocation :=
  let mn := if Qeq_bool element 0 then element else element - h in
  let mx := if Qeq_bool element 0 then element + h
            else if Qeq_bool element 1 then element else element + h in
  mkVariableLocation element mn mx (Some 10%Z) ((mx - mn) / inject_Z 10) None None.

(** The control point with index [i_k] on axis [k], axes in declaration
    order. *)
Definition control_point (ns : list Z) (idx : list nat) : list VariableLocation :=
  zip_with (fun n i => bounded_variable (grid_value n i) (axis_spacing n)) ns idx.

(** A multi-index of a grid with [ns] points per axis. *)
Definition valid_index (ns : list Z) (idx : list nat) : Prop :=
  Forall2 (fun n i => (Z.of_nat i < n)%Z) ns idx.

(** The place of a multi-index in the flattened list when the first axis
    varies fastest, and when the last axis does. *)
Fixpoint first_axis_fastest (ns : list Z) (idx : list nat) : nat :=
  match ns, idx with
  | n :: ns', i :: idx' => i + Z.to_nat n * first_axis_fastest ns' idx'
  | _, _ => 0
  end.



(** The flattened grid [g] holds the control point of every multi-index at
    the place [flat] gives it. *)
Definition flattened_by (flat : list Z -> list nat -> nat) (ns : list Z)
    (g : list GridItem) : Prop :=
  forall idx, valid_index ns idx ->
    exists it, g !! flat ns idx = Some it /\ as_list it = control_point ns idx.

(** The loop of [make_default_control_point_grid] when nothing raises. *)
Definition pure_grid_step (n : Z) (v : option (list GridItem)) : option (list GridItem) :=
  let h := axis_spacing n in
  match v with
  | None => Some ((fun e => Bare (bounded_variable e h)) <$> np_linspace 0 1 n)
  | Some g =>
      Some (mjoin (M:=list)
              ((fun current_list =>
                  (fun e => Tuple (bounded_variable e h :: as_list current_list))
                    <$> np_linspace 0 1 n) <$> g))
  end.

Definition pure_grid (ns : list Z) : option (list GridItem) :=
  foldr pure_grid_step None ns.

(** * Vocabulary of the further properties *)

(** A supplied control-point entry leaves room to move: it is the record of
    a [VariableLocation] with a bound away from its position. *)
Definition has_room (e : CPInput) : bool :=
  match e with
  | CPFloat _ => false
  | CPVariable data =>
      let p := kw_current_position data in
      Qlt_bool p (default p (kw_max_value data))
      || Qlt_bool (default p (kw_min_value data)) p
  end.

(** The references of the entries of [row], the [i]-th row, that satisfy
    [room], in the order of the row. *)
Definition row_refs {A} (room : A -> bool) (i : nat) (row : list A) : list VarRef :=
  mjoin (M:=list) (imap (fun j e => if room e then [ControlPointRef i j] else []) row).

Definition grid_refs {A} (room : A -> bool) (rows : list (list A)) : list VarRef :=
  mjoin (M:=list) (imap (row_refs room) rows).

(** A supplied weight, seen as a supplied coordinate. *)
Definition weight_input (e : WeightInput) : CPInput :=
  match e with
  | WInFloat x => CPFloat x
  | WInVariable data => CPVariable data
  end.

(** The references of the weights selected by [room]. *)
Definition index_refs {A} (room : A -> bool) (l : list A) : list VarRef :=
  mjoin (M:=list) (imap (fun i e => if room e then [WeightRef i] else []) l).

(** ** Observations of the environment *)

(** [_define_observation_space]; [additional_observations] is the field of
    the environment of that name. *)
Definition _define_observation_space (self : Environment) (additional_observations : Z)
    : Space :=
  Box (-1) 1 [(Z.of_nat (length (_actions self)) + additional_observations)%Z].

(** [_get_spline_observations]: the positions of the objects behind the
    references of [_actions]. *)
Definition _get_spline_observations (self : Environment) : option (list Q) :=
  mapM (fun variable => current_position <$> get_var (spline self) variable)
    (_actions self).

(** [_get_observations]; [solver_observations] is
    [reward_solver_output["observations"]], which is read only when the
    episode is not done. *)
Definition _get_observations (self : Environment) (additional_observations : Z)
    (solver_observations : list Q) (done : bool) : option (list Q) :=
  observations ← _get_spline_observations self;
  Some (observations ++
        (if done then replicate (Z.to_nat additional_observations) 0
         else solver_observations)).

(** A run of the environment: a sequence of actions. *)
Definition apply_actions (self : Environment) (actions : list Action) : Result Environment :=
  foldlM apply_action self actions.

(** Looking a reference up in a table of values, one per variable. *)
Definition table_lookup {A} (rows : list (list A)) (ws : list A) (r : VarRef) : option A :=
  match r with
  | ControlPointRef i j => row ← rows !! i; row !! j
  | WeightRef i => ws !! i
  end.

(** ** CubeDefinition *)

(** A constructed cube: its field [control_points]. *)
Record CubeDefinition : Type := mkCubeDefinition {
  control_points : list (list VariableLocation)
}.

(** [int(len(self.control_points) * len(self.control_points[0]))] *)
Definition Cube_get_number_of_points (self : CubeDefinition) : Result Z :=
  first ← py_getitem (control_points self) 0;
  Ok (Z.of_nat (length (control_points self)) * Z.of_nat (length first))%Z.

Definition Cube_get_control_points (self : CubeDefinition) : list (list Q) :=
  map (map current_position) (control_points self).

Definition Cube_get_actions (self : CubeDefinition) : list VarRef * CubeDefinition :=
  (mjoin (M:=list) (imap row_actions (control_points self)),
   mkCubeDefinition
     (map (map (fun variable => snd (is_action variable))) (control_points self))).

Definition Cube_get_spline (self : CubeDefinition) : list (list Q) :=
  Cube_get_control_points self.

Definition Cube_reset (self : CubeDefinition) : CubeDefinition :=
  mkCubeDefinition (map (map reset) (control_points self)).

(** * Vocabulary of the numeric range

    Positions, bounds and steps are binary64 numbers in the code and exact
    rationals here.  [float_max] is the largest finite binary64 number; a
    variable has a finite range when [max_value - min_value], which
    [apply_continuos_action] computes first, does not overflow. *)
Definition float_max : Q := inject_Z (2 ^ 1024 - 2 ^ 971)%Z.

Definition finite_range (v : VariableLocation) : Prop :=
  max_value v - min_value v <= float_max.

(** The integers that [action / 2] divides without rounding. *)
Definition exact_half (a : Z) : Prop := (Z.abs a < 2 ^ 53)%Z.
(** * Properties *)

(** ** The error monad *)

Lemma traverse_Ok_map {A B} (f : A -> Result B) (g : A -> B) (l : list A) :
  (forall a, a ∈ l -> f a = Ok (g a)) -> traverse f l = Ok (map g l).
Proof.
  induction l as [|a l IH]; intros H; simpl; [reflexivity|].
  rewrite (H a) by left. simpl.
  rewrite IH; [reflexivity|]. intros b Hb. apply H. by right.
Qed.

(** A traversal whose steps can only fail with [e] fails with [e] as soon
    as one step fails. *)
Lemma traverse_Raise {A B} (f : A -> Result B) (e : Exception) (l : list A) :
  (forall a, a ∈ l -> f a = Raise e \/ exists b, f a = Ok b) ->
  (exists a, a ∈ l /\ f a = Raise e) ->
  traverse f l = Raise e.
Proof.
  induction l as [|a l IH]; intros Hall [x [Hx Hfx]].
  - inversion Hx.
  - simpl. destruct (Hall a) as [Ha|[b Ha]]; [left| |]; rewrite Ha; simpl; [reflexivity|].
    apply elem_of_cons in Hx as [->|Hx]; [congruence|].
    rewrite IH; [reflexivity| |eauto].
    intros y Hy. apply Hall. by right.
Qed.

Lemma traverse_Ok_inv {A B} (f : A -> Result B) (l : list A) (r : list B) :
  traverse f l = Ok r -> Forall2 (fun a b => f a = Ok b) l r.
Proof.
  revert r. induction l as [|a l IH]; simpl; intros r H.
  - inversion H. constructor.
  - destruct (f a) as [b|e] eqn:Hfa; simpl in H; [|discriminate].
    destruct (traverse f l) as [bs|e]; simpl in H; [|discriminate].
    inversion H; subst. constructor; auto.
Qed.

(** ** Construction of an axis *)

Lemma conint_ge1_Ok field n : (1 <= n)%Z -> conint_ge1 field n = Ok n.
Proof. intros H. unfold conint_ge1. destruct (Z.leb_spec 1 n); [reflexivity|lia]. Qed.

Lemma SplineSpaceDimension_init_Ok (a : SSDArgs) :
  (1 <= kw_number_of_points a)%Z -> (1 <= kw_degree a)%Z ->
  exists kv, snd (SplineSpaceDimension_init a) =
    Ok (mkSplineSpaceDimension (kw_name a) (kw_number_of_points a) (kw_degree a) kv).
Proof.
  intros Hp Hd. unfold SplineSpaceDimension_init.
  rewrite !conint_ge1_Ok by assumption. simpl.
  unfold validate_knot_vector. simpl.
  destruct (kw_knot_vector a) as [l|].
  - destruct (_ =? _)%Z; simpl; eauto.
  - destruct (_ <=? _)%Z; simpl; eauto.
Qed.

Lemma axes_init_Ok (l : list SSDArgs) :
  Forall (fun a => (1 <= kw_number_of_points a)%Z /\ (1 <= kw_degree a)%Z) l ->
  exists dims, traverse (fun a => snd (SplineSpaceDimension_init a)) l = Ok dims
    /\ map number_of_points dims = map kw_number_of_points l.
Proof.
  induction 1 as [|a l [Hp Hd] _ [dims [IH1 IH2]]]; simpl.
  - exists []. auto.
  - destruct (SplineSpaceDimension_init_Ok a Hp Hd) as [kv ->]. simpl.
    rewrite IH1. simpl. eexists. split; [reflexivity|]. csimpl. by rewrite IH2.
Qed.

Lemma truediv_spacing n_p :
  truediv 1 (inject_Z ((n_p - 1) * 2)) =
  if (n_p =? 1)%Z then Raise ZeroDivisionError
  else Ok (1 / inject_Z ((n_p - 1) * 2)).
Proof.
  unfold truediv. destruct (Z.eqb_spec n_p 1) as [->|Hne].
  - reflexivity.
  - destruct (Qeq_bool _ 0) eqn:E; [|reflexivity].
    apply Qeq_bool_iff in E. unfold Qeq in E. simpl in E. lia.
Qed.

(** C10.  An axis with [number_of_points = 1] passes the validation of
    [SplineSpaceDimension] (the field only asks for a value of at least 1),
    yet a [SplineDefinition] that declares such an axis and supplies no
    control points is not constructed: the half-spacing
    [1./((n_p-1)*2)] divides by zero and the constructor ends in
    [ZeroDivisionError], which is none of the validation errors. *)
Theorem default_grid_single_point_axis_raises (data : SDArgs) :
  kw_control_point_variables data = None ->
  Forall (fun a => (1 <= kw_number_of_points a)%Z /\ (1 <= kw_degree a)%Z)
    (kw_space_dimensions data) ->
  (exists a, a ∈ kw_space_dimensions data /\ kw_number_of_points a = 1%Z) ->
  Forall (fun a => is_Ok (snd (SplineSpaceDimension_init a)) = true)
    (kw_space_dimensions data)
  /\ SplineDefinition_init data = Raise ZeroDivisionError.
Proof.
  intros Hcp Hall [a [Ha Hone]]. split.
  - eapply Forall_impl; [exact Hall|]. intros x [Hp Hd]. simpl.
    destruct (SplineSpaceDimension_init_Ok x Hp Hd) as [kv ->]. reflexivity.
  - unfold SplineDefinition_init. rewrite Hcp.
    destruct (axes_init_Ok _ Hall) as [dims [-> Hn]]. simpl.
    unfold validate_control_point_variables, make_default_control_point_grid.
    simpl. rewrite Hn.
    rewrite (traverse_Raise _ ZeroDivisionError); [reflexivity| |].
    + intros n _. rewrite truediv_spacing. destruct (n =? 1)%Z; simpl; eauto.
    + exists 1%Z. split; [|reflexivity].
      apply elem_of_reverse, list_elem_of_fmap. eauto.
Qed.

Lemma default_grid_single_point_axis_raises_witness :
  SplineDefinition_init
    (mkSDArgs [mkSSDArgs "u" 3 1 None; mkSSDArgs "v" 1 1 None] 2 None)
  = Raise ZeroDivisionError.
Proof.
  apply (default_grid_single_point_axis_raises
           (mkSDArgs [mkSSDArgs "u" 3 1 None; mkSSDArgs "v" 1 1 None] 2 None)).
  - reflexivity.
  - repeat constructor; simpl; lia.
  - exists (mkSSDArgs "v" 1 1 None). split; [|reflexivity].
    apply elem_of_cons. right. apply elem_of_cons. by left.
Defined.

(** ** Comparisons and clipping *)

Lemma Qlt_bool_false x y : Qlt_bool x y = false <-> y <= x.
Proof.
  unfold Qlt_bool. rewrite negb_false_iff. apply Qle_bool_iff.
Qed.

Lemma Qlt_bool_true x y : Qlt_bool x y = true <-> x < y.
Proof.
  unfold Qlt_bool. rewrite negb_true_iff, <- not_true_iff_false, Qle_bool_iff.
  split; [apply Qnot_le_lt | apply Qlt_not_le].
Qed.

Lemma np_clip_le_max a lo hi : np_clip a lo hi <= hi.
Proof.
  unfold np_clip, np_minimum.
  destruct (Qle_bool _ hi) eqn:E; [by apply Qle_bool_iff | apply Qle_refl].
Qed.

Lemma np_clip_ge_min a lo hi : lo <= hi -> lo <= np_clip a lo hi.
Proof.
  intros H. unfold np_clip, np_minimum, np_maximum.
  destruct (Qle_bool a lo) eqn:E1.
  - destruct (Qle_bool lo hi); [apply Qle_refl | assumption].
  - apply not_true_iff_false in E1. rewrite Qle_bool_iff in E1.
    destruct (Qle_bool a hi); [lra | assumption].
Qed.

Lemma np_clip_inside a lo hi : lo <= a -> a <= hi -> np_clip a lo hi == a.
Proof.
  intros H1 H2. unfold np_clip, np_minimum, np_maximum.
  destruct (Qle_bool a lo) eqn:E1.
  - apply Qle_bool_iff in E1.
    destruct (Qle_bool lo hi) eqn:E2; [lra|].
    apply not_true_iff_false in E2. rewrite Qle_bool_iff in E2. lra.
  - destruct (Qle_bool a hi) eqn:E2; [reflexivity|].
    apply not_true_iff_false in E2. rewrite Qle_bool_iff in E2. lra.
Qed.

(** ** VariableLocation: construction *)

Lemma VariableLocation_init_inv data v :
  VariableLocation_init data = Ok v ->
  current_position v = kw_current_position data
  /\ min_value v = default (kw_current_position data) (kw_min_value data)
  /\ max_value v = default (kw_current_position data) (kw_max_value data)
  /\ min_value v <= max_value v
  /\ _is_action v = None
  /\ _original_position v = None.
Proof.
  unfold VariableLocation_init, set_variable_to_current_position_if_not_given,
    max_value_is_greater_than_min_value. simpl.
  set (mn := match kw_min_value data with Some x => Ok x | None => _ end).
  assert (Hmn : mn = Ok (default (kw_current_position data) (kw_min_value data)))
    by (subst mn; destruct (kw_min_value data); reflexivity).
  rewrite Hmn. simpl.
  set (mx := match kw_max_value data with Some x => Ok x | None => _ end).
  assert (Hmx : mx = Ok (default (kw_current_position data) (kw_max_value data)))
    by (subst mx; destruct (kw_max_value data); reflexivity).
  rewrite Hmx. simpl.
  destruct (Qlt_bool _ _) eqn:E; simpl; [discriminate|].
  apply Qlt_bool_false in E.
  destruct (match kw_n_steps data with Some n => _ | None => _ end) as [ns|]; simpl;
    [|discriminate].
  destruct (define_step _ _ _ _) as [st|]; simpl; [|discriminate].
  intros [= <-]. simpl. repeat split; try reflexivity. exact E.
Qed.

(** ** VariableLocation: sequences of calls *)

Lemma call_bounds v c :
  min_value (call v c) = min_value v /\ max_value (call v c) = max_value v.
Proof.
  destruct c; simpl; auto.
  unfold reset. destruct (_original_position v); auto.
Qed.

Lemma calls_bounds v cs :
  min_value (calls v cs) = min_value v /\ max_value (calls v cs) = max_value v.
Proof.
  revert v. induction cs as [|c cs IH]; intros v; simpl; [auto|].
  destruct (IH (call v c)) as [-> ->]. apply call_bounds.
Qed.

Lemma mutation_in_bounds v c :
  min_value v <= max_value v -> is_mutation c = true -> in_bounds (call v c).
Proof.
  intros H Hc. unfold in_bounds.
  destruct c; simpl in *; try discriminate;
    split; auto using np_clip_ge_min, np_clip_le_max.
Qed.

Lemma mutations_in_bounds v cs :
  min_value v <= max_value v ->
  forallb is_mutation cs = true ->
  (cs <> [] \/ in_bounds v) ->
  in_bounds (calls v cs).
Proof.
  revert v. induction cs as [|c cs IH]; intros v Hle Hcs Hin; simpl.
  - destruct Hin as [Hin|Hin]; [congruence|assumption].
  - simpl in Hcs. apply andb_true_iff in Hcs as [Hc Hcs].
    destruct (call_bounds v c) as [Hmn Hmx].
    apply IH; [by rewrite Hmn, Hmx|assumption|].
    right. by apply mutation_in_bounds.
Qed.

(** C3 (as stated, refuted).  The constructor compares [max_value] with
    [min_value] only; [current_position] is not compared with either.
    [VariableLocation(current_position=5, min_value=0, max_value=1)] is
    constructed, and its position is outside its bounds. *)
Lemma constructed_position_outside_bounds :
  exists v, VariableLocation_init (mkVLArgs 5 (Some 0) (Some 1) None None) = Ok v
            /\ ~ in_bounds v.
Proof.
  eexists. split; [reflexivity|]. unfold in_bounds. simpl.
  intros [_ H]. revert H. apply Qlt_not_le. reflexivity.
Qed.

(** C3 (amended).  A constructed [VariableLocation] has
    [min_value <= max_value], and no sequence of [apply_discrete_action] and
    [apply_continuos_action] calls changes either bound.  When the range
    [max_value - min_value] is finite (it is the first thing
    [apply_continuos_action] computes, and nothing is said here of a range
    that overflows): after at least one such call the position lies within
    the bounds; if it lay within them at construction, it does so after
    every such sequence. *)
Theorem bounds_after_actions data v cs :
  VariableLocation_init data = Ok v ->
  forallb is_mutation cs = true ->
  min_value v <= max_value v
  /\ min_value (calls v cs) = min_value v
  /\ max_value (calls v cs) = max_value v
  /\ (finite_range v ->
      (cs <> [] -> in_bounds (calls v cs))
      /\ (in_bounds v -> in_bounds (calls v cs))).
Proof.
  intros Hinit Hcs.
  destruct (VariableLocation_init_inv _ _ Hinit) as (_ & _ & _ & Hle & _).
  destruct (calls_bounds v cs) as [Hmn Hmx].
  split; [assumption|]. split; [assumption|]. split; [assumption|].
  intros _. split; intros H.
  - apply (mutations_in_bounds v cs Hle Hcs). by left.
  - apply (mutations_in_bounds v cs Hle Hcs). by right.
Qed.

Lemma bounds_after_actions_witness :
  exists v,
    VariableLocation_init (mkVLArgs 5 (Some 0) (Some 1) None None) = Ok v
    /\ in_bounds (calls v [CallDiscrete false; CallContinuous (1 # 3)]).
Proof.
  eexists. split; [reflexivity|].
  refine (proj1 (proj2 (proj2 (proj2
            (bounds_after_actions (mkVLArgs 5 (Some 0) (Some 1) None None) _
               [CallDiscrete false; CallContinuous (1 # 3)] eq_refl eq_refl))) _) _).
  - unfold finite_range, float_max, Qle. simpl. lia.
  - discriminate.
Defined.

(** C7 (as stated, refuted).  With [n_steps = 10] on the range [0, 1] the
    derived step is [1/10], not [0.05]; one step up from [0.5] is not
    [0.55] and one step down is not [0.45]. *)
Lemma discrete_step_is_not_one_twentieth :
  exists v,
    VariableLocation_init (mkVLArgs (1 # 2) (Some 0) (Some 1) (Some 10%Z) None) = Ok v
    /\ ~ step v == 5 # 100
    /\ ~ fst (apply_discrete_action v true) == 55 # 100
    /\ ~ fst (apply_discrete_action v false) == 45 # 100.
Proof.
  eexists. split; [reflexivity|].
  split; [|split]; intros H; vm_compute in H; discriminate H.
Qed.

(** C7 (amended).  For [VariableLocation(current_position=0.5,
    min_value=0.0, max_value=1.0, n_steps=10)] the derived step is
    [(1.0 - 0.0) / 10 = 0.1]; [apply_discrete_action(True)] returns [0.6];
    [apply_discrete_action(False)] on the original returns [0.4]; ten
    increasing actions in a row leave the position at [1.0]. *)
Theorem discrete_step_example :
  exists v,
    VariableLocation_init (mkVLArgs (1 # 2) (Some 0) (Some 1) (Some 10%Z) None) = Ok v
    /\ step v == 1 # 10
    /\ fst (apply_discrete_action v true) == 6 # 10
    /\ fst (apply_discrete_action v false) == 4 # 10
    /\ current_position (calls v (replicate 10 (CallDiscrete true))) == 1.
Proof.
  eexists. split; [reflexivity|].
  split; [|split; [|split]]; reflexivity.
Qed.

(** ** VariableLocation: reset *)

Lemma reset_fresh v : _original_position v = None -> reset v = v.
Proof. intros H. unfold reset. by rewrite H. Qed.

Lemma reset_idempotent v : reset (reset v) = reset v.
Proof.
  unfold reset. destruct (_original_position v) as [o|] eqn:E; simpl.
  - reflexivity.
  - by rewrite E.
Qed.

Lemma reset_position v : current_position (reset v) = restore_point v.
Proof. unfold reset, restore_point. by destruct (_original_position v). Qed.

Lemma restore_point_call v c : restore_point (call v c) = restore_point v.
Proof.
  unfold restore_point.
  destruct c; simpl; unfold snapshot, reset;
    destruct (_original_position v) as [o|] eqn:E; simpl; try rewrite E; reflexivity.
Qed.

Lemma restore_point_calls v cs : restore_point (calls v cs) = restore_point v.
Proof.
  revert v. induction cs as [|c cs IH]; intros v; simpl; [reflexivity|].
  by rewrite IH, restore_point_call.
Qed.

Lemma restore_point_fresh v :
  _original_position v = None -> restore_point v = current_position v.
Proof. intros H. unfold restore_point. by rewrite H. Qed.

Lemma snapshot_kept v c o :
  _original_position v = Some o -> _original_position (call v c) = Some o.
Proof.
  intros H. destruct c; simpl; unfold snapshot, reset; rewrite H; simpl; auto.
Qed.

Lemma snapshot_kept_calls v cs o :
  _original_position v = Some o -> _original_position (calls v cs) = Some o.
Proof.
  revert v. induction cs as [|c cs IH]; intros v H; simpl; [assumption|].
  apply IH. by apply snapshot_kept.
Qed.

Lemma snapshot_first_mutation v c cs :
  _original_position v = None -> is_mutation c = true ->
  _original_position (calls v (c :: cs)) = Some (current_position v).
Proof.
  intros H Hc. simpl. apply snapshot_kept_calls.
  destruct c; simpl in *; try discriminate; unfold snapshot; by rewrite H.
Qed.

(** ** Splines whose fields hold what they declare *)

Lemma traverse_iter_item g :
  forallb is_tuple g = true -> traverse iter_item g = Ok (as_list <$> g).
Proof.
  induction g as [|[v|l] g IH]; csimpl; intros H; try discriminate; [reflexivity|].
  by rewrite IH.
Qed.

Lemma traverse_weight_variable ws :
  forallb is_variable ws = true ->
  traverse weight_variable ws =
  Ok (mjoin (M:=list)
        ((fun w => match w with WVariable v => [v] | WFloat _ => [] end) <$> ws)).
Proof.
  induction ws as [|[x|v] ws IH]; csimpl; intros H; try discriminate; [reflexivity|].
  by rewrite IH.
Qed.

Lemma tuple_as_list g : forallb is_tuple g = true -> Tuple <$> (as_list <$> g) = g.
Proof.
  induction g as [|[v|l] g IH]; csimpl; intros H; try discriminate; [reflexivity|].
  csimpl. by rewrite IH.
Qed.

Lemma map_item_tuples f g :
  forallb is_tuple g = true ->
  Tuple <$> map (map f) (as_list <$> g) = map_item f <$> g.
Proof.
  induction g as [|[v|l] g IH]; csimpl; intros H; try discriminate; [reflexivity|].
  csimpl. by rewrite IH.
Qed.

Lemma SplineDefinition_reset_nested d :
  nested_grid d = true -> SplineDefinition_reset d = Ok (map_grid reset d).
Proof.
  unfold nested_grid, SplineDefinition_reset, grid_rows, map_grid, with_rows.
  destruct (control_point_variables d) as [g|]; [|discriminate].
  intros H. rewrite traverse_iter_item by assumption. simpl.
  by rewrite map_item_tuples.
Qed.

Lemma weights_reset ws :
  forallb is_variable ws = true ->
  (fun weight => WVariable (reset weight)) <$>
    mjoin (M:=list) ((fun w => match w with WVariable v => [v] | WFloat _ => [] end) <$> ws)
  = alter_weight reset <$> ws.
Proof.
  induction ws as [|[x|v] ws IH]; csimpl; intros H; try discriminate; [reflexivity|].
  csimpl. by rewrite IH.
Qed.

Lemma Spline_reset_nested s :
  nested s = true -> Spline_reset s = Ok (map_vars reset s).
Proof.
  destruct s as [d|d]; simpl; intros H.
  - by rewrite SplineDefinition_reset_nested.
  - apply andb_true_iff in H as [Hg Hw]. unfold NURBSDefinition_reset.
    rewrite SplineDefinition_reset_nested by assumption. simpl.
    rewrite traverse_weight_variable by assumption. simpl.
    by rewrite weights_reset.
Qed.

Lemma nested_map_vars f s : nested (map_vars f s) = nested s.
Proof.
  assert (Hg : forall d, nested_grid (map_grid f d) = nested_grid d).
  { intros d. unfold nested_grid, map_grid. simpl.
    destruct (control_point_variables d) as [g|]; simpl; [|reflexivity].
    induction g as [|[v|l] g IH]; simpl; auto. }
  destruct s as [d|d]; simpl; [apply Hg|]. rewrite Hg. f_equal.
  induction (weights d) as [|[x|v] ws IH]; simpl; auto.
Qed.

Lemma forallb_alter {A} (p : A -> bool) (f : A -> A) i (l : list A) :
  (forall x, p (f x) = p x) -> forallb p (alter f i l) = forallb p l.
Proof.
  intros H. revert i. induction l as [|x l IH]; intros [|i]; simpl; auto.
  - by rewrite H.
  - f_equal. apply IH.
Qed.

Lemma nested_alter_var f r s : nested (alter_var f r s) = nested s.
Proof.
  assert (Hg : forall i j d, nested_grid (alter_grid f i j d) = nested_grid d).
  { intros i j d. unfold nested_grid, alter_grid. simpl.
    destruct (control_point_variables d) as [g|]; simpl; [|reflexivity].
    apply forallb_alter. by intros [v|l]. }
  destruct r as [i j|i], s as [d|d]; simpl; auto.
  - by rewrite Hg.
  - f_equal. apply forallb_alter. by intros [x|v].
Qed.

Lemma rows_of_map_vars f s : rows_of (map_vars f s) = map (map f) (rows_of s).
Proof.
  assert (Hg : forall g, as_list <$> (map_item f <$> g) = map (map f) (as_list <$> g)).
  { induction g as [|[v|l] g IH]; csimpl; [reflexivity| |]; by rewrite IH. }
  unfold rows_of. destruct s as [d|d]; simpl;
    destruct (control_point_variables _); simpl; auto.
Qed.

Lemma weights_of_map_vars f s : weights_of (map_vars f s) = f <$> weights_of s.
Proof.
  destruct s as [d|d]; simpl; [reflexivity|].
  induction (weights d) as [|[x|v] ws IH]; csimpl; [reflexivity|assumption|].
  by rewrite IH.
Qed.

Lemma map_vars_compose f g s :
  map_vars f (map_vars g s) = map_vars (f ∘ g) s.
Proof.
  assert (Hg : forall d, map_grid f (map_grid g d) = map_grid (f ∘ g) d).
  { intros d. unfold map_grid. simpl. f_equal.
    destruct (control_point_variables d) as [l|]; simpl; [|reflexivity]. f_equal.
    rewrite <- list_fmap_compose. apply list_fmap_ext. intros _ [v|r] _; simpl;
      [reflexivity|]. by rewrite <- list_fmap_compose. }
  destruct s as [d|d]; simpl; rewrite Hg; [reflexivity|]. do 2 f_equal.
  rewrite <- list_fmap_compose. apply list_fmap_ext. by intros _ [x|v] _.
Qed.

Lemma map_vars_ext f g s : (forall v, f v = g v) -> map_vars f s = map_vars g s.
Proof.
  intros H.
  assert (Hi : forall it, map_item f it = map_item g it).
  { intros [v|l]; simpl; f_equal; [apply H|]. apply list_fmap_ext. auto. }
  assert (Hg : forall d, map_grid f d = map_grid g d).
  { intros d. unfold map_grid. f_equal.
    destruct (control_point_variables d) as [l|]; simpl; [|reflexivity]. f_equal.
    apply list_fmap_ext. auto. }
  destruct s as [d|d]; simpl; rewrite Hg; [reflexivity|]. do 2 f_equal.
  apply list_fmap_ext. intros _ [x|v] _; simpl; [reflexivity|]. by rewrite H.
Qed.

Lemma map_grid_fixed f d :
  Forall (Forall (fun v => f v = v)) (rows_of (BSplineDef d)) -> map_grid f d = d.
Proof.
  unfold rows_of, map_grid. destruct d as [dims sd [g|]]; simpl; [|reflexivity].
  intros H. do 2 f_equal. induction g as [|it g IH]; csimpl; [reflexivity|].
  csimpl in H. inversion H as [|? ? Hit Hl]; subst. rewrite IH by assumption. f_equal.
  destruct it as [v|r]; simpl in *.
  - inversion Hit; subst. congruence.
  - f_equal. rewrite <- (list_fmap_id r) at 2. by apply Forall_fmap_ext_1.
Qed.

Lemma Forall_join_inv {A} (P : A -> Prop) (ls : list (list A)) :
  Forall P (mjoin ls) -> Forall (Forall P) ls.
Proof.
  induction ls as [|l ls IH]; csimpl; intros H; constructor.
  - by apply Forall_app in H as [H _].
  - apply IH. by apply Forall_app in H as [_ H].
Qed.

Lemma map_vars_fixed f s :
  Forall (fun v => f v = v) (variables s) -> map_vars f s = s.
Proof.
  unfold variables. intros H. apply Forall_app in H as [Hr Hw].
  apply Forall_join_inv in Hr.
  destruct s as [d|d]; simpl.
  - f_equal. by apply map_grid_fixed.
  - rewrite map_grid_fixed by exact Hr. destruct d as [b ws]; simpl in *.
    do 2 f_equal. clear Hr.
    induction ws as [|[x|v] ws IH]; csimpl; [reflexivity| |].
    + f_equal. by apply IH.
    + csimpl in Hw. inversion Hw; subst. f_equal; [congruence|]. by apply IH.
Qed.

(** ** What a call leaves unchanged *)

Section Observation.
Context {A : Type} (g : VariableLocation -> A) (f : VariableLocation -> VariableLocation).
Hypothesis g_f : forall v, g (f v) = g v.

Lemma fmap_alter_unchanged i (l : list VariableLocation) :
  g <$> alter f i l = g <$> l.
Proof.
  revert i. induction l as [|v l IH]; intros [|i]; csimpl; f_equal; auto.
Qed.

Lemma rows_of_alter_var r s :
  map (map g) (rows_of (alter_var f r s)) = map (map g) (rows_of s).
Proof.
  assert (Hg : forall i j (l : list GridItem),
             map (map g) (as_list <$> alter (alter_item f j) i l)
             = map (map g) (as_list <$> l)).
  { intros i j l. revert i. induction l as [|it l IH]; intros [|i]; csimpl;
      f_equal; auto.
    destruct it as [v|r']; simpl; [reflexivity|]. apply fmap_alter_unchanged. }
  unfold rows_of.
  destruct r as [i j|i], s as [d|d]; simpl; try reflexivity;
    destruct (control_point_variables _); simpl; auto.
Qed.

Lemma weights_of_alter_var r s :
  g <$> weights_of (alter_var f r s) = g <$> weights_of s.
Proof.
  destruct r as [i j|i], s as [d|d]; simpl; try reflexivity.
  generalize (weights d). intros ws. revert i.
  induction ws as [|w ws IH]; intros [|i]; csimpl; try reflexivity.
  - destruct w as [x|v]; csimpl; [reflexivity|]. by rewrite g_f.
  - rewrite !fmap_app. by rewrite IH.
Qed.
End Observation.

Lemma get_control_points_nested s :
  nested s = true ->
  get_control_points (base_of s) = Ok (map (map current_position) (rows_of s)).
Proof.
  intros H.
  assert (Hg : nested_grid (base_of s) = true).
  { destruct s; simpl in *; [assumption|]. by apply andb_true_iff in H as [? _]. }
  unfold get_control_points, grid_rows, rows_of, nested_grid in *.
  destruct (control_point_variables (base_of s)) as [g|]; [|discriminate].
  by rewrite traverse_iter_item.
Qed.

(** Every history of calls on a well-formed spline runs to the end, and
    leaves the restore point of every variable where it was. *)
Lemma spline_calls_restore_points cs : forall s,
  nested s = true ->
  exists s', spline_calls s cs = Ok s'
    /\ nested s' = true
    /\ map (map restore_point) (rows_of s') = map (map restore_point) (rows_of s)
    /\ restore_point <$> weights_of s' = restore_point <$> weights_of s.
Proof.
  induction cs as [|c cs IH]; intros s Hs.
  - exists s. auto.
  - assert (Hstep : exists s1, spline_call s c = Ok s1 /\ nested s1 = true
      /\ map (map restore_point) (rows_of s1) = map (map restore_point) (rows_of s)
      /\ restore_point <$> weights_of s1 = restore_point <$> weights_of s).
    { destruct c as [r c|]; simpl.
      - eexists. split; [reflexivity|]. split; [by rewrite nested_alter_var|].
        split; [apply rows_of_alter_var | apply weights_of_alter_var];
          intros v; apply restore_point_call.
      - rewrite Spline_reset_nested by assumption. eexists. split; [reflexivity|].
        split; [by rewrite nested_map_vars|].
        rewrite rows_of_map_vars, weights_of_map_vars.
        split.
        + rewrite <- (list_fmap_compose (fmap reset) (fmap restore_point)).
          apply list_fmap_ext. intros _ row _. simpl.
          rewrite <- (list_fmap_compose reset restore_point).
          apply list_fmap_ext. intros _ v _. apply (restore_point_call v CallReset).
        + rewrite <- (list_fmap_compose reset restore_point).
          apply list_fmap_ext. intros _ v _. apply (restore_point_call v CallReset). }
    destruct Hstep as (s1 & Hc & Hn & Hr & Hw).
    destruct (IH s1 Hn) as (s' & Hcs & Hn' & Hr' & Hw').
    exists s'. unfold spline_calls in *. simpl. rewrite Hc. simpl.
    split; [assumption|]. split; [assumption|]. split; congruence.
Qed.

Lemma fresh_restore_points s :
  fresh s ->
  map (map restore_point) (rows_of s) = map (map current_position) (rows_of s)
  /\ restore_point <$> weights_of s = current_position <$> weights_of s.
Proof.
  unfold fresh, variables. intros H. apply Forall_app in H as [Hr Hw].
  apply Forall_join_inv in Hr. split.
  - apply list_fmap_ext. intros i row Hrow. apply Forall_fmap_ext_1.
    eapply Forall_impl; [exact (Forall_lookup_1 _ _ _ _ Hr Hrow)|].
    intros v. apply restore_point_fresh.
  - apply Forall_fmap_ext_1. eapply Forall_impl; [exact Hw|].
    intros v. apply restore_point_fresh.
Qed.

(** X22.  [reset] of a [VariableLocation] that was constructed and not yet
    acted on changes nothing; [reset] twice is [reset] once; the first
    action takes the snapshot of the position it finds, and after any
    history of actions and resets [reset] puts the position back to it,
    that is, to the position of construction.  The same holds for
    [SplineDefinition.reset] and [NURBSDefinition.reset] over all the
    control-point variables and weights of a spline whose grid is a list of
    lists and whose weights are variables. *)
Theorem reset_restores_original_position :
  (forall data v, VariableLocation_init data = Ok v ->
     reset v = v
     /\ forall cs, current_position (reset (calls v cs)) = current_position v)
  /\ (forall v, reset (reset v) = reset v)
  /\ (forall v c cs, _original_position v = None -> is_mutation c = true ->
        _original_position (calls v (c :: cs)) = Some (current_position v)
        /\ current_position (reset (calls v (c :: cs))) = current_position v)
  /\ (forall s, nested s = true ->
        (fresh s -> Spline_reset s = Ok s)
        /\ (exists s1, Spline_reset s = Ok s1 /\ Spline_reset s1 = Ok s1)
        /\ (fresh s -> forall cs, exists s1 s2,
              spline_calls s cs = Ok s1
              /\ Spline_reset s1 = Ok s2
              /\ get_control_points (base_of s2) = get_control_points (base_of s)
              /\ current_position <$> weights_of s2 = current_position <$> weights_of s)).
Proof.
  split; [|split; [|split]].
  - intros data v Hinit.
    destruct (VariableLocation_init_inv _ _ Hinit) as (_ & _ & _ & _ & _ & Hfresh).
    split; [by apply reset_fresh|]. intros cs.
    by rewrite reset_position, restore_point_calls, restore_point_fresh.
  - apply reset_idempotent.
  - intros v c cs Hfresh Hc. split; [by apply snapshot_first_mutation|].
    by rewrite reset_position, restore_point_calls, restore_point_fresh.
  - intros s Hs. split; [|split].
    + intros Hfresh. rewrite Spline_reset_nested by assumption. f_equal.
      apply map_vars_fixed. eapply Forall_impl; [exact Hfresh|].
      intros v. apply reset_fresh.
    + exists (map_vars reset s). split; [by apply Spline_reset_nested|].
      rewrite Spline_reset_nested by (by rewrite nested_map_vars). f_equal.
      rewrite map_vars_compose. apply map_vars_ext. intros v. apply reset_idempotent.
    + intros Hfresh cs.
      destruct (spline_calls_restore_points cs s Hs) as (s1 & Hcs & Hn & Hr & Hw).
      exists s1, (map_vars reset s1). split; [assumption|].
      split; [by apply Spline_reset_nested|].
      destruct (fresh_restore_points s Hfresh) as [Hfr Hfw].
      rewrite !get_control_points_nested by (by rewrite ?nested_map_vars).
      rewrite rows_of_map_vars, weights_of_map_vars. split.
      * f_equal. rewrite <- Hfr, <- Hr.
        rewrite <- (list_fmap_compose (fmap reset) (fmap current_position)).
        apply list_fmap_ext. intros _ row _. simpl.
        rewrite <- (list_fmap_compose reset current_position).
        apply list_fmap_ext. intros _ v _. apply reset_position.
      * rewrite <- Hfw, <- Hw. rewrite <- (list_fmap_compose reset current_position).
        apply list_fmap_ext. intros _ v _. apply reset_position.
Qed.

Lemma reset_restores_original_position_witness :
  let v := mkVariableLocation (1 # 2) 0 1 (Some 10%Z) (1 # 10) None None in
  let s := NURBSDef (mkNURBSDefinition
                       (mkSplineDefinition [] 1 (Some [Tuple [v; v]; Tuple [v; v]]))
                       [WVariable v; WVariable v]) in
  exists s1 s2,
    spline_calls s [VarCall (ControlPointRef 1 0) (CallDiscrete true); ResetCall;
                    VarCall (WeightRef 0) (CallContinuous 1)] = Ok s1
    /\ Spline_reset s1 = Ok s2
    /\ get_control_points (base_of s2) = get_control_points (base_of s)
    /\ current_position <$> weights_of s2 = current_position <$> weights_of s.
Proof.
  intros v s.
  apply (proj2 (proj2 (proj2 (proj2 (proj2 reset_restores_original_position)) s
                         eq_refl))).
  repeat constructor.
Defined.

(** ** Knot vectors *)

Lemma Qred_eq (x y : Q) : x == y -> Qred x = Qred y.
Proof. apply Qred_complete. Qed.

(** The samples of [np.linspace(0, 1, m + 2)]: 0, the [m] interior points
    [(j + 1) / (m + 1)], and 1. *)
Lemma np_linspace_unit (m : nat) :
  np_linspace 0 1 (Z.of_nat m + 2) =
  [0] ++ ((fun j : nat => Qred (inject_Z (Z.of_nat j + 1) / inject_Z (Z.of_nat m + 1)))
            <$> seq 0 m) ++ [1].
Proof.
  unfold np_linspace.
  replace (Z.to_nat (Z.of_nat m + 2)) with (S (S m)) by lia.
  cbv iota beta. change (seq 0 (S (S m))) with (0%nat :: seq 1 (S m)).
  rewrite seq_S, fmap_cons, fmap_app. simpl app. f_equal. f_equal; [|f_equal].
  - rewrite <- fmap_S_seq, <- list_fmap_compose. apply list_fmap_ext.
    intros _ j _. unfold compose. apply Qred_eq.
    replace (Z.of_nat (S j)) with (Z.of_nat j + 1)%Z by lia.
    replace (Z.of_nat (S m)) with (Z.of_nat m + 1)%Z by lia.
    field. intros H. unfold Qeq in H. simpl in H. lia.
  - transitivity (Qred 1); [|reflexivity]. apply Qred_eq.
    field. intros H. unfold Qeq in H. simpl in H. lia.
Qed.

Lemma interior_knot_strict (m j : nat) :
  (j < m)%nat ->
  0 < Qred (inject_Z (Z.of_nat j + 1) / inject_Z (Z.of_nat m + 1)) < 1.
Proof.
  intros Hj. rewrite Qred_correct.
  assert (Hm : 0 < inject_Z (Z.of_nat m + 1)).
  { change 0 with (inject_Z 0). rewrite <- Zlt_Qlt. lia. }
  split.
  - apply Qlt_shift_div_l; [assumption|]. rewrite Qmult_0_l.
    change 0 with (inject_Z 0). rewrite <- Zlt_Qlt. lia.
  - apply Qlt_shift_div_r; [assumption|]. rewrite Qmult_1_l.
    rewrite <- Zlt_Qlt. lia.
Qed.

(** C4.  With no knot vector supplied, [p >= 1] points and degree [d >= 1],
    so [n = p + d + 1] knots: if [n >= 2(d+1)] the constructor stores an open
    uniform knot vector of length [n], made of [d+1] zeros, the
    [m = n - 2(d+1)] interior knots [(j+1)/(m+1)], all strictly between 0
    and 1, and [d+1] ones, and logs no warning; if [n < 2(d+1)] it stores
    [d+1] zeros followed by [d+1] ones and logs a warning, and the
    construction still succeeds.  For [p = 5], [d = 2] the vector is
    [0, 0, 0, 1/3, 2/3, 1, 1, 1]. *)
Theorem default_knot_vector_is_open_uniform (nm : string) (p d : Z) :
  (1 <= p)%Z -> (1 <= d)%Z ->
  let n := (p + d + 1)%Z in
  let m := Z.to_nat (n - 2 * (d + 1)) in
  let zeros := replicate (Z.to_nat (d + 1)) 0 in
  let ones := replicate (Z.to_nat (d + 1)) 1 in
  let interior :=
    (fun j : nat => Qred (inject_Z (Z.of_nat j + 1) / inject_Z (Z.of_nat m + 1)))
      <$> seq 0 m in
  ((2 * (d + 1) <= n)%Z ->
     SplineSpaceDimension_init (mkSSDArgs nm p d None) =
       ([LogDebug (KnotVectorNotGiven nm)],
        Ok (mkSplineSpaceDimension nm p d (Some (zeros ++ interior ++ ones))))
     /\ Z.of_nat (length (zeros ++ interior ++ ones)) = n
     /\ Z.of_nat (length interior) = (n - 2 * (d + 1))%Z
     /\ Forall (fun x => 0 < x < 1) interior)
  /\ ((n < 2 * (d + 1))%Z ->
        SplineSpaceDimension_init (mkSSDArgs nm p d None) =
          ([LogDebug (KnotVectorNotGiven nm);
            LogWarning (KnotVectorShorterThanOpen n ((d + 1) * 2))],
           Ok (mkSplineSpaceDimension nm p d (Some (zeros ++ ones)))))
  /\ SplineSpaceDimension_init (mkSSDArgs nm 5 2 None) =
       ([LogDebug (KnotVectorNotGiven nm)],
        Ok (mkSplineSpaceDimension nm 5 2
              (Some [0; 0; 0; 1 # 3; 2 # 3; 1; 1; 1]))).
Proof.
  intros Hp Hd n m zeros ones interior.
  assert (Hinit : SplineSpaceDimension_init (mkSSDArgs nm p d None) =
            let '(log, kv) := validate_knot_vector None
                                (mkSSDValues (Some nm) (Some p) (Some d)) in
            (log, kv ← kv; Ok (mkSplineSpaceDimension nm p d kv))).
  { unfold SplineSpaceDimension_init. simpl.
    rewrite !conint_ge1_Ok by assumption. simpl.
    destruct (validate_knot_vector _ _) as [log [kv|e]]; reflexivity. }
  split; [|split].
  - intros Hn. rewrite Hinit. unfold validate_knot_vector. simpl.
    fold n. destruct (Z.leb_spec 0 (n - 2 * (d + 1))) as [_|]; [|lia]. simpl.
    assert (Hlin : np_zeros (d + 1 - 1) ++ np_linspace 0 1 (n - 2 * (d + 1) + 2)
                     ++ np_ones (d + 1 - 1) = zeros ++ interior ++ ones).
    { replace (n - 2 * (d + 1))%Z with (Z.of_nat m) by lia.
      rewrite np_linspace_unit. unfold np_zeros, np_ones, zeros, ones.
      replace (Z.to_nat (d + 1)) with (S (Z.to_nat (d + 1 - 1))) by lia.
      rewrite replicate_S_end. simpl replicate.
      rewrite <- !app_assoc. reflexivity. }
    rewrite Hlin. split; [reflexivity|].
    assert (Hlen : length interior = m)
      by (unfold interior; by rewrite length_fmap, length_seq).
    split; [|split].
    + rewrite !length_app, Hlen. unfold zeros, ones. rewrite !length_replicate. lia.
    + rewrite Hlen. lia.
    + unfold interior. apply Forall_fmap, Forall_forall. intros j Hj. simpl.
      apply interior_knot_strict. apply elem_of_seq in Hj. lia.
  - intros Hn. rewrite Hinit. unfold validate_knot_vector. simpl.
    fold n. destruct (Z.leb_spec 0 (n - 2 * (d + 1))) as [|_]; [lia|]. reflexivity.
  - reflexivity.
Qed.

Lemma default_knot_vector_is_open_uniform_witness :
  SplineSpaceDimension_init (mkSSDArgs "u" 4 1 None) =
    ([LogDebug (KnotVectorNotGiven "u")],
     Ok (mkSplineSpaceDimension "u" 4 1 (Some [0; 0; 1 # 3; 2 # 3; 1; 1])))
  /\ SplineSpaceDimension_init (mkSSDArgs "u" 2 3 None) =
    ([LogDebug (KnotVectorNotGiven "u"); LogWarning (KnotVectorShorterThanOpen 6 8)],
     Ok (mkSplineSpaceDimension "u" 2 3 (Some [0; 0; 0; 0; 1; 1; 1; 1]))).
Proof.
  split.
  - apply (proj1 (default_knot_vector_is_open_uniform "u" 4 1 ltac:(lia) ltac:(lia))).
    simpl. lia.
  - apply (proj1 (proj2 (default_knot_vector_is_open_uniform "u" 2 3
                           ltac:(lia) ltac:(lia)))).
    simpl. lia.
Defined.

(** C5 (the code at the failing input).  A supplied knot vector whose
    length is not [number_of_points + degree + 1] is not kept: the branch
    logs its warning and ends without [return], the validator returns
    [None], and [None] is what the field stores. *)
Theorem wrong_length_knot_vector_is_dropped (nm : string) (p d : Z) (l : list Q) :
  (1 <= p)%Z -> (1 <= d)%Z ->
  Z.of_nat (length l) <> (p + d + 1)%Z ->
  SplineSpaceDimension_init (mkSSDArgs nm p d (Some l)) =
    ([LogDebug (KnotVectorGiven nm);
      LogWarning (KnotVectorWrongLength (Z.of_nat (length l)) (p + d + 1))],
     Ok (mkSplineSpaceDimension nm p d None)).
Proof.
  intros Hp Hd Hlen. unfold SplineSpaceDimension_init. simpl.
  rewrite !conint_ge1_Ok by assumption. unfold validate_knot_vector. simpl.
  destruct (Z.eqb_spec (Z.of_nat (length l)) (p + d + 1)); [contradiction|].
  reflexivity.
Qed.

Lemma wrong_length_knot_vector_is_dropped_witness :
  SplineSpaceDimension_init (mkSSDArgs "u" 3 1 (Some [0; 1])) =
    ([LogDebug (KnotVectorGiven "u"); LogWarning (KnotVectorWrongLength 2 5)],
     Ok (mkSplineSpaceDimension "u" 3 1 None)).
Proof.
  apply (wrong_length_knot_vector_is_dropped "u" 3 1 [0; 1]); simpl; lia.
Defined.

(** A supplied knot vector of the right length is kept as it is. *)
Lemma right_length_knot_vector_is_kept (nm : string) (p d : Z) (l : list Q) :
  (1 <= p)%Z -> (1 <= d)%Z ->
  Z.of_nat (length l) = (p + d + 1)%Z ->
  SplineSpaceDimension_init (mkSSDArgs nm p d (Some l)) =
    ([LogDebug (KnotVectorGiven nm)], Ok (mkSplineSpaceDimension nm p d (Some l))).
Proof.
  intros Hp Hd Hlen. unfold SplineSpaceDimension_init. simpl.
  rewrite !conint_ge1_Ok by assumption. unfold validate_knot_vector. simpl.
  destruct (Z.eqb_spec (Z.of_nat (length l)) (p + d + 1)); [reflexivity|contradiction].
Qed.

(** ** Weights *)

(** A weight list of the wrong length is rejected. *)
Lemma validate_weights_wrong_length (ws : list WeightItem) dims :
  Z.of_nat (length ws) <> np_prod (number_of_points <$> dims) ->
  validate_weights (Some ws) (Some dims) =
    Raise (ParserException "SplineDefinition NURBS" "weights").
Proof.
  intros H. unfold validate_weights.
  destruct (Z.eqb_spec (Z.of_nat (length ws)) (np_prod (number_of_points <$> dims)));
    [contradiction|reflexivity].
Qed.

(** C6 (the code at the failing input).  [weights] is a required field:
    no [NURBSDefinition] is constructed without it, whatever the other
    arguments are; with two axes of 2 and 3 points the constructor ends in
    the missing-field error.  The branch of [validate_weights] that builds
    the list of ones is there, but the constructor never reaches it. *)
Theorem nurbs_without_weights_is_rejected :
  (forall data, is_Ok (NURBSDefinition_init data None) = false)
  /\ NURBSDefinition_init
       (mkSDArgs [mkSSDArgs "u" 2 1 None; mkSSDArgs "v" 3 1 None] 2 None) None
     = Raise (ValidationError "weights")
  /\ validate_weights None
       (Some [mkSplineSpaceDimension "u" 2 1 None; mkSplineSpaceDimension "v" 3 1 None])
     = Ok (WFloat <$> replicate 6 1).
Proof.
  split; [|split].
  - intros data. unfold NURBSDefinition_init.
    destruct (validate_control_point_variables _ _); reflexivity.
  - reflexivity.
  - reflexivity.
Qed.

(** ** References *)

Lemma get_var_alter_var f r s r' :
  get_var (alter_var f r s) r' =
  if decide (r = r') then f <$> get_var s r' else get_var s r'.
Proof.
  assert (Hg : forall i j d i' j',
    (g ← control_point_variables (alter_grid f i j d);
     it ← g !! i'; match it with Tuple l => l !! j' | Bare _ => None end) =
    if decide (ControlPointRef i j = ControlPointRef i' j')
    then f <$> (g ← control_point_variables d;
                it ← g !! i'; match it with Tuple l => l !! j' | Bare _ => None end)
    else (g ← control_point_variables d;
          it ← g !! i'; match it with Tuple l => l !! j' | Bare _ => None end)).
  { intros i j d i' j'. unfold alter_grid. simpl.
    destruct (control_point_variables d) as [g|]; simpl; [|by case_decide].
    rewrite list_lookup_alter. destruct (decide (i = i')) as [->|Hi].
    - destruct (g !! i') as [[v|l]|]; simpl; try by case_decide.
      rewrite list_lookup_alter. destruct (decide (j = j')) as [->|Hj].
      + by rewrite decide_True.
      + rewrite decide_False; [reflexivity|congruence].
    - rewrite decide_False; [reflexivity|congruence]. }
  destruct r as [i j|i], r' as [i' j'|i'], s as [d|d];
    cbn [get_var alter_var base_of nurbs_base weights];
    try apply Hg; try (by case_decide); try (rewrite decide_False by discriminate; reflexivity).
  rewrite list_lookup_alter. destruct (decide (i = i')) as [->|Hi].
  - rewrite decide_True by reflexivity. by destruct (weights d !! i') as [[x|v]|].
  - rewrite decide_False; [reflexivity|congruence].
Qed.

Lemma py_getitem_nonneg {A} (l : list A) (i : Z) :
  (0 <= i < Z.of_nat (length l))%Z ->
  exists x, l !! Z.to_nat i = Some x /\ py_getitem l i = Ok x.
Proof.
  intros H. unfold py_getitem.
  assert (Hi : (i <? 0)%Z = false) by (apply Z.ltb_ge; lia).
  rewrite Hi. cbv zeta. rewrite Hi.
  destruct (lookup_lt_is_Some_2 l (Z.to_nat i)) as [x Hx]; [lia|].
  exists x. by rewrite Hx.
Qed.

(** ** References handed out by [get_actions] are pairwise distinct *)

Lemma NoDup_join_imap {A B} (l : list A) : forall (f : nat -> A -> list B),
  (forall i x, NoDup (f i x)) ->
  (forall i i' x x' b, b ∈ f i x -> b ∈ f i' x' -> i = i') ->
  NoDup (mjoin (imap f l)).
Proof.
  induction l as [|a l IH]; intros f Hnd Hdis; csimpl; [constructor|].
  apply NoDup_app. split; [apply Hnd|]. split.
  - intros b Hb Hin. apply list_elem_of_join in Hin as (k & Hbk & Hk).
    apply elem_of_lookup_imap in Hk as (i & x & -> & _).
    specialize (Hdis _ _ _ _ _ Hb Hbk). discriminate.
  - apply IH; [intros; apply Hnd|].
    intros i i' x x' b H1 H2. specialize (Hdis _ _ _ _ _ H1 H2). congruence.
Qed.

Lemma NoDup_row_actions i row : NoDup (row_actions i row).
Proof.
  unfold row_actions. apply NoDup_join_imap.
  - intros j v. destruct (fst (is_action v)); [apply NoDup_singleton|constructor].
  - intros j j' v v' b H1 H2.
    destruct (fst (is_action v)); [|by apply elem_of_nil in H1].
    destruct (fst (is_action v')); [|by apply elem_of_nil in H2].
    apply list_elem_of_singleton in H1, H2. congruence.
Qed.

Lemma elem_of_row_actions r i row :
  r ∈ row_actions i row -> exists j, r = ControlPointRef i j.
Proof.
  unfold row_actions. intros H. apply list_elem_of_join in H as (k & Hr & Hk).
  apply elem_of_lookup_imap in Hk as (j & v & -> & _).
  destruct (fst (is_action v)); [|by apply elem_of_nil in Hr].
  apply list_elem_of_singleton in Hr. eauto.
Qed.

Lemma NoDup_grid_actions rows : NoDup (mjoin (imap row_actions rows)).
Proof.
  apply NoDup_join_imap; [apply NoDup_row_actions|].
  intros i i' x x' b H1 H2.
  apply elem_of_row_actions in H1 as [j ->], H2 as [j' H2]. congruence.
Qed.

Lemma NoDup_weight_actions ws : NoDup (weight_actions ws).
Proof.
  unfold weight_actions. apply NoDup_join_imap.
  - intros j v. destruct (fst (is_action v)); [apply NoDup_singleton|constructor].
  - intros j j' v v' b H1 H2.
    destruct (fst (is_action v)); [|by apply elem_of_nil in H1].
    destruct (fst (is_action v')); [|by apply elem_of_nil in H2].
    apply list_elem_of_singleton in H1, H2. congruence.
Qed.

Lemma Environment_init_NoDup s d env :
  Environment_init s d = Ok env -> NoDup (_actions env).
Proof.
  unfold Environment_init, Spline_get_actions. destruct s as [b|n]; simpl.
  - unfold SplineDefinition_get_actions. destruct (grid_rows b) as [rows|]; simpl;
      [|discriminate]. intros [= <-]. simpl. apply NoDup_grid_actions.
  - unfold NURBSDefinition_get_actions, SplineDefinition_get_actions.
    destruct (grid_rows (nurbs_base n)) as [rows|]; simpl; [|discriminate].
    destruct (traverse weight_variable (weights n)) as [ws|]; simpl; [|discriminate].
    intros [= <-]. simpl. apply NoDup_app. split; [apply NoDup_grid_actions|].
    split; [|apply NoDup_weight_actions].
    intros r Hr Hw. apply list_elem_of_join in Hr as (k & Hr & Hk).
    apply elem_of_lookup_imap in Hk as (i & row & -> & _).
    apply elem_of_row_actions in Hr as [j ->].
    unfold weight_actions in Hw. apply list_elem_of_join in Hw as (k & Hw & Hk).
    apply elem_of_lookup_imap in Hk as (i' & v & -> & _).
    destruct (fst (is_action v)); [|by apply elem_of_nil in Hw].
    apply list_elem_of_singleton in Hw. discriminate.
Qed.

(** ** Applying actions *)

Lemma discrete_action_decoding (i : Z) :
  (0 <= i)%Z -> Z.quot i 2 = (i / 2)%Z /\ (i mod 2 =? 0)%Z = Z.even i.
Proof.
  intros H. split; [apply Z.quot_div_nonneg; lia|].
  rewrite Zmod_even. by destruct (Z.even i).
Qed.

Lemma continuous_actions_positional (pairs : list (Q * VarRef)) : forall env,
  NoDup pairs.*2 ->
  let env' :=
    foldl (fun env '(new_value, action_obj) =>
             with_spline env
               (alter_var (fun v => snd (apply_continuos_action v new_value))
                  action_obj (spline env))) env pairs in
  _actions env' = _actions env
  /\ discrete_actions env' = discrete_actions env
  /\ (forall x r, (x, r) ∈ pairs ->
        get_var (spline env') r =
        (fun v => snd (apply_continuos_action v x)) <$> get_var (spline env) r)
  /\ (forall r, r ∉ pairs.*2 -> get_var (spline env') r = get_var (spline env) r).
Proof.
  induction pairs as [|[x r] ps IH]; intros env Hnd; cbn [foldl].
  - split; [reflexivity|]. split; [reflexivity|]. split; [|reflexivity].
    intros x r H. by apply elem_of_nil in H.
  - csimpl in Hnd. apply NoDup_cons in Hnd as [Hr Hnd].
    destruct (IH (with_spline env
                    (alter_var (fun v => snd (apply_continuos_action v x)) r (spline env)))
                 Hnd) as (Ha & Hd & Hin & Hout).
    split; [exact Ha|]. split; [exact Hd|]. split.
    + intros x' r' H. apply elem_of_cons in H as [[= -> ->]|H].
      * rewrite (Hout r Hr). cbn [spline with_spline]. rewrite get_var_alter_var.
        by rewrite decide_True.
      * rewrite (Hin x' r' H). cbn [spline with_spline]. rewrite get_var_alter_var.
        rewrite decide_False; [reflexivity|]. intros ->. apply Hr.
        apply list_elem_of_fmap. by exists (x', r').
    + intros r' H. apply not_elem_of_cons in H as [Hne H].
      rewrite (Hout r' H). cbn [spline with_spline]. rewrite get_var_alter_var.
      rewrite decide_False; [reflexivity|]. intros <-. by apply Hne.
Qed.

(** ** Every variable of a constructed grid *)

Lemma traverse_Ok_Forall {A B} (f : A -> Result B) (P : B -> Prop) l r :
  traverse f l = Ok r ->
  (forall a b, a ∈ l -> f a = Ok b -> P b) ->
  Forall P r.
Proof.
  intros H HP. apply traverse_Ok_inv in H.
  induction H as [|a b l r Hab _ IH]; constructor.
  - apply (HP a); [by left|assumption].
  - apply IH. intros a' b' Ha'. apply HP. by right.
Qed.

Lemma np_linspace_unit_interval num x : x ∈ np_linspace 0 1 num -> 0 <= x <= 1.
Proof.
  unfold np_linspace. destruct (Z.to_nat num) as [|[|n]].
  - intros H. by apply elem_of_nil in H.
  - intros H. apply list_elem_of_singleton in H as ->. lra.
  - intros H. apply list_elem_of_fmap in H as (i & -> & Hi).
    apply elem_of_seq in Hi. rewrite Qred_correct.
    assert (Hn : 0 < inject_Z (Z.of_nat (S n))).
    { change 0 with (inject_Z 0). rewrite <- Zlt_Qlt. lia. }
    assert (Hi0 : 0 <= inject_Z (Z.of_nat i)).
    { change 0 with (inject_Z 0). rewrite <- Zle_Qle. lia. }
    assert (Hin : inject_Z (Z.of_nat i) <= inject_Z (Z.of_nat (S n))).
    { rewrite <- Zle_Qle. lia. }
    setoid_replace (0 + inject_Z (Z.of_nat i) * ((1 - 0) / inject_Z (Z.of_nat (S n))))
      with (inject_Z (Z.of_nat i) / inject_Z (Z.of_nat (S n))) using relation Qeq
      by (field; lra).
    split.
    + apply Qle_shift_div_l; [assumption|]. lra.
    + apply Qle_shift_div_r; [assumption|]. lra.
Qed.

Lemma boundary_variable_location_inv element dim_spacing v :
  boundary_variable_location element dim_spacing = Ok v ->
  current_position v = element /\ _original_position v = None.
Proof.
  unfold boundary_variable_location.
  destruct (Qeq_bool element 0); [|destruct (Qeq_bool element 1)];
    intros H; apply VariableLocation_init_inv in H; simpl in H; tauto.
Qed.

Lemma grid_step_Forall (P : VariableLocation -> Prop) v d v' :
  (forall element x, element ∈ d.1 ->
     boundary_variable_location element d.2 = Ok x -> P x) ->
  grid_Forall P v -> grid_step v d = Ok v' -> grid_Forall P v'.
Proof.
  destruct d as [inner_dim dim_spacing]. simpl. intros HP Hv.
  destruct v as [g|]; simpl.
  - destruct (traverse _ g) as [temp_v|] eqn:Ht; simpl; [|discriminate].
    intros [= <-]. simpl. apply Forall_join.
    eapply traverse_Ok_Forall; [exact Ht|]. intros current_list row Hcur Hrow.
    eapply traverse_Ok_Forall; [exact Hrow|]. intros element it Hel Hit. simpl in Hit.
    destruct (boundary_variable_location element dim_spacing) as [x|] eqn:Hx;
      simpl in Hit; [|discriminate].
    injection Hit as <-. simpl. constructor; [by eapply HP|].
    simpl in Hv. rewrite Forall_forall in Hv. by apply Hv.
  - destruct (traverse _ inner_dim) as [l|] eqn:Ht; simpl; [|discriminate].
    intros [= <-]. simpl.
    eapply traverse_Ok_Forall; [exact Ht|]. intros element it Hel Hit. simpl in Hit.
    destruct (boundary_variable_location element dim_spacing) as [x|] eqn:Hx;
      simpl in Hit; [|discriminate].
    injection Hit as <-. simpl. constructor; [by eapply HP|constructor].
Qed.

Lemma foldlM_grid_step_Forall (P : VariableLocation -> Prop) dims : forall v v',
  Forall (fun d => forall element x, element ∈ d.1 ->
                     boundary_variable_location element d.2 = Ok x -> P x) dims ->
  grid_Forall P v -> foldlM grid_step v dims = Ok v' -> grid_Forall P v'.
Proof.
  induction dims as [|d dims IH]; simpl; intros v v' HP Hv H.
  - by injection H as <-.
  - inversion HP as [|? ? Hd Hdims]; subst.
    destruct (grid_step v d) as [v1|] eqn:Hstep; simpl in H; [|discriminate].
    eapply IH; [exact Hdims| |exact H].
    eapply grid_step_Forall; eauto.
Qed.

Lemma default_grid_Forall v' dims :
  make_default_control_point_grid None (Some dims) = Ok v' ->
  grid_Forall (fun v => unit_position v /\ _original_position v = None) v'.
Proof.
  unfold make_default_control_point_grid.
  destruct (traverse _ (reverse _)) as [ds|] eqn:Ht; simpl; [|discriminate].
  intros H. apply (foldlM_grid_step_Forall _ ds None v'); [|exact I|exact H].
  eapply traverse_Ok_Forall; [exact Ht|]. intros n_p d _ Hd. simpl in Hd.
  destruct (truediv _ _) as [sp|]; simpl in Hd; [|discriminate].
  injection Hd as <-. simpl. intros element x Hel Hx.
  apply boundary_variable_location_inv in Hx as [Hc Ho]. split; [|assumption].
  unfold unit_position. rewrite Hc. by apply np_linspace_unit_interval in Hel.
Qed.

Lemma Qle_bool_and lo x hi :
  Qle_bool lo x && Qle_bool x hi = true <-> lo <= x <= hi.
Proof. by rewrite andb_true_iff, !Qle_bool_iff. Qed.

Lemma convert_all_inv row' : forall r,
  convert_all_control_point_locations_to_variable_locations row' = Ok r ->
  Forall2 (fun w x => match w with
                      | inl f => VariableLocation_init (mkVLArgs f None None None None) = Ok x
                      | inr y => x = y
                      end) row' r
  /\ Forall unit_position r.
Proof.
  induction row' as [|w row' IH]; simpl; intros r H.
  - injection H as <-. split; constructor.
  - destruct (match w with inl f => _ | inr x => Ok x end) as [x|] eqn:Hx; simpl in H;
      [|discriminate].
    destruct (Qle_bool 0 (current_position x) && Qle_bool (current_position x) 1)
      eqn:Hc; [|discriminate].
    destruct (convert_all_control_point_locations_to_variable_locations row')
      as [r'|]; simpl in H; [|discriminate].
    injection H as <-. destruct (IH r' eq_refl) as [IH1 IH2].
    split; constructor; try assumption.
    + destruct w; [assumption|congruence].
    + by apply Qle_bool_and.
Qed.

Lemma supplied_row_inv row row' r :
  traverse validate_cp_item row = Ok row' ->
  convert_all_control_point_locations_to_variable_locations row' = Ok r ->
  Forall (fun e => 0 <= cp_value e <= 1) row
  /\ Forall (fun v => unit_position v /\ _original_position v = None) r.
Proof.
  intros Hv Hc. apply traverse_Ok_inv in Hv. apply convert_all_inv in Hc as [Hc Hu].
  revert r Hc Hu. induction Hv as [|e w row row' Hew _ IH]; intros r Hc Hu.
  - inversion Hc; subst. split; constructor.
  - inversion Hc as [|? x ? r' Hwx Hc']; subst. inversion Hu as [|? ? Hx Hu']; subst.
    destruct (IH r' Hc' Hu') as [IH1 IH2].
    destruct e as [q|data]; simpl in Hew.
    + destruct (Qle_bool 0 q && Qle_bool q 1) eqn:Hq; [|discriminate].
      injection Hew as <-. apply VariableLocation_init_inv in Hwx. simpl in Hwx.
      split; constructor; try assumption.
      * by apply Qle_bool_and.
      * split; [assumption|tauto].
    + destruct (VariableLocation_init data) as [y|] eqn:Hy; simpl in Hew; [|discriminate].
      injection Hew as <-. subst x. apply VariableLocation_init_inv in Hy.
      split; constructor; try assumption.
      * simpl. destruct Hy as [<- _]. exact Hx.
      * split; [assumption|tauto].
Qed.

Lemma validate_control_point_variables_inv v dims g :
  validate_control_point_variables v dims = Ok g ->
  grid_Forall (fun v => unit_position v /\ _original_position v = None) g
  /\ forall rows, v = Some rows ->
       Forall (Forall (fun e => 0 <= cp_value e <= 1)) rows
       /\ exists rs, g = Some (Tuple <$> rs) /\ length rs = length rows.
Proof.
  unfold validate_control_point_variables. destruct v as [rows|]; simpl.
  - destruct (traverse _ rows) as [its|] eqn:Ht; simpl; [|discriminate].
    intros [= <-]. apply traverse_Ok_inv in Ht.
    assert (H : Forall (Forall (fun e => 0 <= cp_value e <= 1)) rows
                /\ Forall (fun it => Forall (fun v => unit_position v
                             /\ _original_position v = None) (as_list it)) its
                /\ exists rs, its = Tuple <$> rs /\ length rs = length rows).
    { induction Ht as [|row it rows its Hrow _ (IH1 & IH2 & rs & -> & Hlen)].
      - split; [constructor|]. split; [constructor|]. by exists [].
      - destruct (traverse validate_cp_item row) as [row'|] eqn:Hv; simpl in Hrow;
          [|discriminate].
        destruct (convert_all_control_point_locations_to_variable_locations row')
          as [r|] eqn:Hc; simpl in Hrow; [|discriminate].
        injection Hrow as <-. destruct (supplied_row_inv _ _ _ Hv Hc) as [H1 H2].
        split; [by constructor|]. split; [by constructor|].
        exists (r :: rs). split; [reflexivity|]. simpl. by rewrite Hlen. }
    destruct H as (H1 & H2 & H3). split; [exact H2|].
    intros rows' [= <-]. split; [exact H1|].
    destruct H3 as (rs & -> & Hlen). by exists rs.
  - destruct dims as [dims|]; [|discriminate]. intros H.
    split; [by apply default_grid_Forall in H|]. discriminate.
Qed.

Lemma SplineDefinition_init_inv data s :
  SplineDefinition_init data = Ok s ->
  exists dims,
    traverse (fun a => snd (SplineSpaceDimension_init a)) (kw_space_dimensions data)
      = Ok dims
    /\ space_dimensions s = dims
    /\ validate_control_point_variables (kw_control_point_variables data) (Some dims)
       = Ok (control_point_variables s).
Proof.
  unfold SplineDefinition_init.
  destruct (traverse _ (kw_space_dimensions data)) as [dims|] eqn:Hd; simpl.
  - destruct (validate_control_point_variables _ _) as [cpv|] eqn:Hv; simpl;
      [|discriminate].
    destruct (conint_ge1 _ _) as [sd|]; simpl; [|discriminate].
    intros [= <-]. exists dims. auto.
  - destruct (validate_control_point_variables _ _) as [cpv|]; discriminate.
Qed.

(** C2 (as stated, refuted).  A control point supplied as
    [{current_position: 0.5, min_value: -1, max_value: 2}] is accepted: only
    its position is compared with the unit interval.  The continuous action
    [1.0] then moves it to its upper bound, [2], which is stored in
    [control_point_variables] and is outside [[0, 1]]. *)
Lemma stored_position_leaves_unit_interval :
  exists s env env',
    SplineDefinition_init
      (mkSDArgs [mkSSDArgs "u" 1 1 None] 1
         (Some [[CPVariable (mkVLArgs (1 # 2) (Some (-1)) (Some 2) None None)]]))
      = Ok s
    /\ Environment_init (BSplineDef s) false = Ok env
    /\ apply_action env (ContinuousAction [1]) = Ok env'
    /\ ~ Forall (Forall unit_position) (rows_of (spline env')).
Proof.
  eexists _, _, _. split; [reflexivity|]. split; [reflexivity|].
  split; [reflexivity|]. intros H. vm_compute in H.
  inversion H as [|? ? Hrow _]; subst. inversion Hrow as [|? ? [_ Hv] _]; subst.
  revert Hv. vm_compute. intros Hv. by apply Hv.
Qed.

(** C2 (amended).  Right after construction every position stored in
    [control_point_variables] lies in [[0, 1]], and a supplied control-point
    value, raw float or [VariableLocation], whose position is outside
    [[0, 1]] makes the construction fail.  The bounds [min_value] and
    [max_value] are not compared with [[0, 1]], and at run time an action
    clamps to [[min_value, max_value]], never to [[0, 1]]: a target inside
    the bounds is stored as it is, and the position stays in [[0, 1]] when
    the bounds do. *)
Theorem positions_in_unit_interval_at_construction :
  (forall data s, SplineDefinition_init data = Ok s ->
     Forall (Forall unit_position) (rows_of (BSplineDef s)))
  /\ (forall data rows, kw_control_point_variables data = Some rows ->
        Exists (Exists (fun e => ~ (0 <= cp_value e <= 1))) rows ->
        is_Ok (SplineDefinition_init data) = false)
  /\ (forall v (increasing : bool),
        let target := current_position v + (if increasing then step v else - step v) in
        min_value v <= target <= max_value v ->
        fst (apply_discrete_action v increasing) == target)
  /\ (forall v value,
        let target := (value + 1) / 2 * (max_value v - min_value v) + min_value v in
        min_value v <= target <= max_value v ->
        fst (apply_continuos_action v value) == target)
  /\ (forall v c, is_mutation c = true ->
        0 <= min_value v -> min_value v <= max_value v -> max_value v <= 1 ->
        unit_position (call v c)).
Proof.
  split; [|split; [|split; [|split]]].
  - intros data s H. apply SplineDefinition_init_inv in H as (dims & _ & _ & Hv).
    apply validate_control_point_variables_inv in Hv as [Hg _].
    unfold rows_of. simpl. destruct (control_point_variables s) as [g|]; [|constructor].
    simpl in Hg. apply Forall_fmap. eapply Forall_impl; [exact Hg|].
    intros it Hit. simpl. eapply Forall_impl; [exact Hit|]. by intros v [Hu _].
  - intros data rows Hrows Hex.
    destruct (SplineDefinition_init data) as [s|] eqn:H; [|reflexivity]. exfalso.
    apply SplineDefinition_init_inv in H as (dims & _ & _ & Hv).
    apply validate_control_point_variables_inv in Hv as [_ Hv].
    destruct (Hv rows Hrows) as [Hall _].
    apply Exists_exists in Hex as (row & Hrow & Hex).
    apply Exists_exists in Hex as (e & He & Hout).
    rewrite Forall_forall in Hall. specialize (Hall row Hrow).
    rewrite Forall_forall in Hall. by apply Hout, Hall.
  - intros v increasing target [H1 H2]. simpl. by apply np_clip_inside.
  - intros v value target [H1 H2]. simpl. by apply np_clip_inside.
  - intros v c Hc H0 Hle H1.
    destruct (mutation_in_bounds v c Hle Hc) as [Hlo Hhi].
    destruct (call_bounds v c) as [Hmn Hmx]. rewrite Hmn in Hlo. rewrite Hmx in Hhi.
    unfold unit_position. split; lra.
Qed.

Lemma positions_in_unit_interval_at_construction_witness :
  is_Ok (SplineDefinition_init
           (mkSDArgs [mkSSDArgs "u" 2 1 None] 1
              (Some [[CPFloat (1 # 2)]; [CPVariable (mkVLArgs (3 # 2) None None None None)]])))
  = false.
Proof.
  eapply (proj1 (proj2 positions_in_unit_interval_at_construction)).
  - reflexivity.
  - apply Exists_cons_tl, Exists_cons_hd, Exists_cons_hd. simpl.
    intros [_ H]. revert H. apply Qlt_not_le. reflexivity.
Defined.

(** ** The default grid *)

Lemma np_linspace_grid_values (n : Z) :
  (2 <= n)%Z -> np_linspace 0 1 n = grid_value n <$> seq 0 (Z.to_nat n).
Proof.
  intros Hn. unfold np_linspace.
  destruct (Z.to_nat n) as [|[|k]] eqn:Hk; [lia|lia|].
  apply list_fmap_ext. intros _ i _. unfold grid_value. apply Qred_eq.
  replace (n - 1)%Z with (Z.of_nat (S k)) by lia.
  field. intros H. unfold Qeq in H. simpl in H. lia.
Qed.

Lemma axis_spacing_nonneg n : (2 <= n)%Z -> 0 <= axis_spacing n.
Proof.
  intros Hn. unfold axis_spacing. apply Qle_shift_div_l; [|lra].
  change 0 with (inject_Z 0). rewrite <- Zlt_Qlt. lia.
Qed.

Lemma VariableLocation_init_bounds element mn mx :
  mn <= mx ->
  VariableLocation_init (mkVLArgs element (Some mn) (Some mx) None None) =
  Ok (mkVariableLocation element mn mx (Some 10%Z) ((mx - mn) / inject_Z 10) None None).
Proof.
  intros H. unfold VariableLocation_init, max_value_is_greater_than_min_value. simpl.
  apply Qlt_bool_false in H. rewrite H. reflexivity.
Qed.

Lemma boundary_variable_location_Ok element h :
  0 <= h -> boundary_variable_location element h = Ok (bounded_variable element h).
Proof.
  intros Hh. unfold boundary_variable_location, bounded_variable.
  destruct (Qeq_bool element 0); [|destruct (Qeq_bool element 1)];
    apply VariableLocation_init_bounds; lra.
Qed.

Lemma grid_step_pure n v :
  (2 <= n)%Z ->
  grid_step v (np_linspace 0 1 n, axis_spacing n) = Ok (pure_grid_step n v).
Proof.
  intros Hn. pose proof (axis_spacing_nonneg n Hn) as Hh.
  unfold grid_step, pure_grid_step. destruct v as [g|].
  - rewrite (traverse_Ok_map _
      (fun current_list =>
         (fun e => Tuple (bounded_variable e (axis_spacing n) :: as_list current_list))
           <$> np_linspace 0 1 n)); [reflexivity|].
    intros current_list _. apply traverse_Ok_map. intros e _. simpl.
    by rewrite boundary_variable_location_Ok.
  - rewrite (traverse_Ok_map _ (fun e => Bare (bounded_variable e (axis_spacing n))));
      [reflexivity|].
    intros e _. by rewrite boundary_variable_location_Ok.
Qed.

Lemma foldlM_grid_step_pure (ns : list Z) : forall v,
  Forall (fun n => (2 <= n)%Z) ns ->
  foldlM grid_step v ((fun n => (np_linspace 0 1 n, axis_spacing n)) <$> ns)
  = Ok (foldl (fun v n => pure_grid_step n v) v ns).
Proof.
  induction ns as [|n ns IH]; intros v H; [reflexivity|].
  rewrite fmap_cons. cbn [foldlM foldl].
  inversion H; subst. rewrite grid_step_pure by assumption. simpl. by apply IH.
Qed.

Lemma foldl_reverse_foldr {A B} (f : B -> A -> A) (a : A) (l : list B) :
  foldl (fun a b => f b a) a (reverse l) = foldr f a l.
Proof.
  induction l as [|b l IH]; [reflexivity|].
  rewrite reverse_cons, foldl_app. simpl. by rewrite IH.
Qed.

Lemma default_grid_pure dims :
  Forall (fun d => (2 <= number_of_points d)%Z) dims ->
  make_default_control_point_grid None (Some dims)
  = Ok (pure_grid (number_of_points <$> dims)).
Proof.
  intros H. unfold make_default_control_point_grid.
  assert (Hns : Forall (fun n => (2 <= n)%Z) (reverse (number_of_points <$> dims))).
  { apply Forall_reverse, Forall_fmap. exact H. }
  rewrite (traverse_Ok_map _ (fun n => (np_linspace 0 1 n, axis_spacing n))).
  - simpl. rewrite foldlM_grid_step_pure by assumption. f_equal.
    apply foldl_reverse_foldr.
  - intros n Hin. rewrite truediv_spacing.
    rewrite Forall_forall in Hns. specialize (Hns n Hin).
    destruct (Z.eqb_spec n 1); [lia|]. reflexivity.
Qed.

Lemma axis_lookup (n : Z) (i : nat) :
  (2 <= n)%Z -> (Z.of_nat i < n)%Z ->
  np_linspace 0 1 n !! i = Some (grid_value n i).
Proof.
  intros Hn Hi. rewrite np_linspace_grid_values by assumption.
  rewrite list_lookup_fmap, lookup_seq_lt by lia. reflexivity.
Qed.

Lemma axis_length (n : Z) : (2 <= n)%Z -> length (np_linspace 0 1 n) = Z.to_nat n.
Proof.
  intros Hn. rewrite np_linspace_grid_values by assumption.
  by rewrite length_fmap, length_seq.
Qed.

Lemma np_prod_pos ns : Forall (fun n => (2 <= n)%Z) ns -> (1 <= np_prod ns)%Z.
Proof. induction 1; simpl; [lia|nia]. Qed.

Lemma pure_grid_flattened (ns : list Z) : forall n,
  Forall (fun n => (2 <= n)%Z) (n :: ns) ->
  exists g, pure_grid (n :: ns) = Some g
    /\ length g = Z.to_nat (np_prod (n :: ns))
    /\ flattened_by first_axis_fastest (n :: ns) g.
Proof.
  induction ns as [|n' ns IH]; intros n H; inversion H as [|? ? Hn Hns]; subst.
  - eexists. split; [reflexivity|]. split.
    + rewrite length_fmap, axis_length by assumption. simpl. f_equal. lia.
    + intros idx Hidx. inversion Hidx as [|? i ? idx' Hi Hnil]; subst.
      inversion Hnil; subst. simpl.
      replace (i + Z.to_nat n * 0)%nat with i by lia.
      eexists. rewrite list_lookup_fmap, axis_lookup by assumption.
      split; reflexivity.
  - destruct (IH n' Hns) as (g' & Hg' & Hlen & Hflat).
    unfold pure_grid in *. cbn [foldr] in *. rewrite Hg'. cbn [pure_grid_step].
    eexists. split; [reflexivity|].
    assert (Hrows : Forall (fun l : list GridItem => length l = Z.to_nat n)
              ((fun current_list =>
                  (fun e => Tuple (bounded_variable e (axis_spacing n)
                                     :: as_list current_list))
                    <$> np_linspace 0 1 n) <$> g')).
    { apply Forall_fmap, Forall_true. intros it. simpl.
      by rewrite length_fmap, axis_length. }
    split.
    + rewrite length_join, (sum_list_fmap_same (Z.to_nat n)) by exact Hrows.
      rewrite length_fmap, Hlen. pose proof (np_prod_pos _ Hns).
      change (np_prod (n :: n' :: ns)) with (n * np_prod (n' :: ns))%Z.
      rewrite Z2Nat.inj_mul by lia. lia.
    + intros idx Hidx. inversion Hidx as [|? i ? idx' Hi Hidx']; subst.
      destruct (Hflat idx' Hidx') as (it' & Hit' & Has).
      exists (Tuple (bounded_variable (grid_value n i) (axis_spacing n) :: as_list it')).
      split.
      * change (first_axis_fastest (n :: n' :: ns) (i :: idx'))
          with (i + Z.to_nat n * first_axis_fastest (n' :: ns) idx')%nat.
        replace (i + Z.to_nat n * first_axis_fastest (n' :: ns) idx')%nat
          with (first_axis_fastest (n' :: ns) idx' * Z.to_nat n + i)%nat by lia.
        rewrite (join_lookup_Some_same_length' (Z.to_nat n)) by first [exact Hrows|lia].
        eexists. rewrite list_lookup_fmap, Hit'. split; [reflexivity|].
        by rewrite list_lookup_fmap, axis_lookup.
      * simpl. by rewrite Has.
Qed.


Lemma SplineDefinition_init_default data dims :
  kw_control_point_variables data = None ->
  traverse (fun a => snd (SplineSpaceDimension_init a)) (kw_space_dimensions data)
    = Ok dims ->
  SplineDefinition_init data =
    (cpv ← make_default_control_point_grid None (Some dims);
     sd ← conint_ge1 "spline_dimension" (kw_spline_dimension data);
     Ok (mkSplineDefinition dims sd cpv)).
Proof.
  intros Hcp Hdims. unfold SplineDefinition_init. rewrite Hcp, Hdims. reflexivity.
Qed.

(** With at least one axis and at least two points on every axis the
    default grid is constructed, and it is the grid of [pure_grid], ordered
    with the first declared axis varying fastest. *)
Lemma default_grid_construction (data : SDArgs) :
  kw_control_point_variables data = None ->
  kw_space_dimensions data <> [] ->
  Forall (fun a => (2 <= kw_number_of_points a)%Z /\ (1 <= kw_degree a)%Z)
    (kw_space_dimensions data) ->
  (1 <= kw_spline_dimension data)%Z ->
  let ns := kw_number_of_points <$> kw_space_dimensions data in
  exists s g,
    SplineDefinition_init data = Ok s
    /\ control_point_variables s = Some g
    /\ pure_grid ns = Some g
    /\ Z.of_nat (length g) = get_number_of_points s
    /\ flattened_by first_axis_fastest ns g.
Proof.
  intros Hcp Hne Hall Hsd ns.
  destruct (axes_init_Ok (kw_space_dimensions data)) as (dims & Hdims & Hns).
  { eapply Forall_impl; [exact Hall|]. intros a [? ?]. split; [lia|assumption]. }
  assert (Hge : Forall (fun n => (2 <= n)%Z) ns).
  { apply Forall_fmap. eapply Forall_impl; [exact Hall|]. by intros a [? _]. }
  destruct ns as [|n ns'] eqn:Ens.
  { subst ns. by destruct (kw_space_dimensions data). }
  destruct (pure_grid_flattened ns' n Hge) as (g & Hg & Hlen & Hflat).
  rewrite (SplineDefinition_init_default data dims Hcp Hdims).
  rewrite default_grid_pure.
  - rewrite Hns. fold ns. rewrite Ens, Hg. simpl.
    rewrite conint_ge1_Ok by assumption. simpl.
    exists (mkSplineDefinition dims (kw_spline_dimension data) (Some g)), g.
    split; [reflexivity|]. split; [reflexivity|]. split; [reflexivity|].
    split; [|exact Hflat].
    unfold get_number_of_points. simpl. rewrite Hns. fold ns. rewrite Ens, Hlen.
    pose proof (np_prod_pos _ Hge). lia.
  - assert (Hd : Forall (fun n => (2 <= n)%Z) (number_of_points <$> dims))
      by (rewrite Hns; fold ns; rewrite Ens; exact Hge).
    rewrite Forall_forall in Hd. apply Forall_forall. intros d Hin.
    apply Hd. by apply list_elem_of_fmap_2.
Qed.

(** ** What a successful construction says about its arguments *)

Lemma conint_ge1_inv field n m : conint_ge1 field n = Ok m -> (1 <= n)%Z /\ m = n.
Proof.
  unfold conint_ge1. destruct (Z.leb_spec 1 n); [|discriminate].
  intros [= <-]. auto.
Qed.

Lemma SplineSpaceDimension_init_inv a d :
  snd (SplineSpaceDimension_init a) = Ok d ->
  (1 <= kw_number_of_points a)%Z /\ (1 <= kw_degree a)%Z
  /\ number_of_points d = kw_number_of_points a.
Proof.
  unfold SplineSpaceDimension_init.
  destruct (validate_knot_vector _ _) as [log [kv|e]]; simpl; [|discriminate].
  destruct (conint_ge1 "number_of_points" _) as [p|] eqn:Hp; simpl; [|discriminate].
  destruct (conint_ge1 "degree" _) as [dg|] eqn:Hd; simpl; [|discriminate].
  apply conint_ge1_inv in Hp as [Hp ->], Hd as [Hd ->]. intros [= <-]. auto.
Qed.



(** Every variable of a constructed spline is fresh; a supplied grid is a
    list of lists. *)
Lemma constructed_spline_fresh data s :
  SplineDefinition_init data = Ok s -> fresh (BSplineDef s).
Proof.
  intros H. apply SplineDefinition_init_inv in H as (dims & _ & _ & Hv).
  apply validate_control_point_variables_inv in Hv as [Hg _].
  unfold fresh, variables, rows_of. simpl. rewrite app_nil_r.
  destruct (control_point_variables s) as [g|]; [|constructor].
  apply Forall_join, Forall_fmap. simpl in Hg.
  eapply Forall_impl; [exact Hg|]. intros it Hit. simpl.
  eapply Forall_impl; [exact Hit|]. by intros v [_ ?].
Qed.

Lemma supplied_grid_nested data rows s :
  kw_control_point_variables data = Some rows ->
  SplineDefinition_init data = Ok s -> nested (BSplineDef s) = true.
Proof.
  intros Hrows H. apply SplineDefinition_init_inv in H as (dims & _ & _ & Hv).
  apply validate_control_point_variables_inv in Hv as [_ Hv].
  destruct (Hv rows Hrows) as (_ & rs & Hg & _).
  simpl. unfold nested_grid. rewrite Hg. clear. by induction rs.
Qed.



(** * Further properties *)

(** ** VariableLocation: the constructor *)





Lemma VariableLocation_init_n_steps data v n :
  VariableLocation_init data = Ok v -> kw_n_steps data = Some n -> (1 <= n)%Z.
Proof.
  intros Hv Hn. revert Hv. unfold VariableLocation_init. rewrite Hn.
  destruct (set_variable_to_current_position_if_not_given (kw_min_value data) _ _);
    simpl; [|discriminate].
  destruct (set_variable_to_current_position_if_not_given (kw_max_value data) _ _);
    simpl; [|discriminate].
  destruct (max_value_is_greater_than_min_value _ _ _); simpl; [|discriminate].
  destruct (conint_ge1 "n_steps" n) eqn:E; simpl; [|discriminate].
  intros _. by apply conint_ge1_inv in E as [? _].
Qed.

Lemma derived_step data v :
  VariableLocation_init data = Ok v ->
  match kw_step data with
  | Some s => step v = s
  | None =>
      step v * inject_Z (default 10%Z (kw_n_steps data)) == max_value v - min_value v
  end.
Proof.
  intros H.
  assert (Hn : forall n, kw_n_steps data = Some n -> (1 <= n)%Z)
    by (intros n; by apply VariableLocation_init_n_steps with (v := v)).
  revert H. unfold VariableLocation_init.
  destruct (set_variable_to_current_position_if_not_given (kw_min_value data) _ _)
    as [mn|]; simpl; [|discriminate].
  destruct (set_variable_to_current_position_if_not_given (kw_max_value data) _ _)
    as [mx0|]; simpl; [|discriminate].
  destruct (max_value_is_greater_than_min_value _ _ _) as [mx|]; simpl; [|discriminate].
  destruct (kw_n_steps data) as [n|]; simpl.
  - rewrite conint_ge1_Ok by (by apply Hn). simpl.
    destruct (kw_step data) as [s|]; simpl; [by intros [= <-]|].
    unfold truediv. destruct (Qeq_bool (inject_Z n) 0) eqn:E; [discriminate|].
    intros [= <-]. simpl. field. intros H0. apply Qeq_bool_neq in E. by apply E.
  - destruct (kw_step data) as [s|]; simpl; [by intros [= <-]|].
    intros [= <-]. simpl. field.
Qed.

(** X2.  An explicit [step] is stored as it is, whatever its sign, and
    [n_steps] is then ignored.  A step that the constructor derives is
    never negative and never more than the range
    [max_value - min_value]; it is zero when the bounds coincide. *)
Theorem derived_step_is_nonnegative (data : VLArgs) (v : VariableLocation) :
  VariableLocation_init data = Ok v ->
  match kw_step data with
  | Some s => step v = s
  | None =>
      0 <= step v <= max_value v - min_value v
      /\ (min_value v == max_value v -> step v == 0)
  end.
Proof.
  intros H. pose proof (derived_step data v H) as Hs.
  destruct (VariableLocation_init_inv _ _ H) as (_ & _ & _ & Hle & _).
  destruct (kw_step data) as [s|]; [exact Hs|].
  assert (Hn : 1 <= inject_Z (default 10%Z (kw_n_steps data))).
  { change 1 with (inject_Z 1). rewrite <- Zle_Qle.
    destruct (kw_n_steps data) as [n|] eqn:En; simpl; [|lia].
    by apply (VariableLocation_init_n_steps data v). }
  set (n := inject_Z (default 10%Z (kw_n_steps data))) in *.
  split; [split|]; [nra|nra|]. intros Heq. nra.
Qed.

Lemma derived_step_is_nonnegative_witness :
  exists v, VariableLocation_init (mkVLArgs (1 # 2) (Some 0) (Some 3) (Some 4%Z) None) = Ok v
            /\ 0 <= step v <= 3 - 0.
Proof.
  eexists. split; [reflexivity|].
  exact (proj1 (derived_step_is_nonnegative
                  (mkVLArgs (1 # 2) (Some 0) (Some 3) (Some 4%Z) None) _ eq_refl)).
Defined.

(** ** VariableLocation: the actions *)

Lemma np_clip_cases a lo hi :
  lo <= hi ->
  (a <= lo /\ np_clip a lo hi == lo)
  \/ (lo <= a <= hi /\ np_clip a lo hi == a)
  \/ (hi <= a /\ np_clip a lo hi == hi).
Proof.
  intros H. unfold np_clip, np_minimum, np_maximum.
  destruct (Qle_bool a lo) eqn:E1.
  - apply Qle_bool_iff in E1. left. split; [assumption|].
    destruct (Qle_bool lo hi) eqn:E2; [reflexivity|].
    apply not_true_iff_false in E2. rewrite Qle_bool_iff in E2. lra.
  - apply not_true_iff_false in E1. rewrite Qle_bool_iff in E1.
    destruct (Qle_bool a hi) eqn:E2.
    + apply Qle_bool_iff in E2. right. left. split; [lra|reflexivity].
    + apply not_true_iff_false in E2. rewrite Qle_bool_iff in E2.
      right. right. split; [lra|reflexivity].
Qed.

Lemma call_keeps v c :
  min_value (call v c) = min_value v /\ max_value (call v c) = max_value v
  /\ step (call v c) = step v /\ n_steps (call v c) = n_steps v
  /\ _is_action (call v c) = _is_action v.
Proof.
  destruct c; simpl; auto. unfold reset. by destruct (_original_position v).
Qed.

Lemma is_action_cached v : _is_action (snd (is_action v)) = Some (fst (is_action v)).
Proof. unfold is_action. by destruct (_is_action v) eqn:E. Qed.

(** X3.  No call, action or reset, changes the bounds, the step, [n_steps]
    or the cached answer of [is_action]: once [is_action] has answered, it
    gives the same answer after any history of calls, whether or not the
    variable still has room to move. *)
Theorem is_action_answer_is_kept (v : VariableLocation) (cs : list Call) :
  min_value (calls v cs) = min_value v
  /\ max_value (calls v cs) = max_value v
  /\ step (calls v cs) = step v
  /\ n_steps (calls v cs) = n_steps v
  /\ fst (is_action (calls (snd (is_action v)) cs)) = fst (is_action v).
Proof.
  assert (H : forall v, min_value (calls v cs) = min_value v
    /\ max_value (calls v cs) = max_value v /\ step (calls v cs) = step v
    /\ n_steps (calls v cs) = n_steps v /\ _is_action (calls v cs) = _is_action v).
  { clear v. induction cs as [|c cs IH]; intros v; simpl; [auto|].
    destruct (IH (call v c)) as (-> & -> & -> & -> & ->). apply call_keeps. }
  destruct (H v) as (-> & -> & -> & -> & _). repeat split.
  destruct (H (snd (is_action v))) as (_ & _ & _ & _ & Hc).
  unfold is_action at 1. by rewrite Hc, is_action_cached.
Qed.

(** X4.  A variable whose bounds coincide never moves: whatever action is
    applied, its position is the common bound.  A variable constructed
    from a position alone is such a variable, is no action, and keeps its
    position through every history of actions and resets. *)
Theorem fixed_variable_never_moves :
  (forall v c, min_value v == max_value v -> is_mutation c = true ->
     current_position (call v c) == min_value v)
  /\ (forall p ns st v cs,
        VariableLocation_init (mkVLArgs p None None ns st) = Ok v ->
        fst (is_action v) = false
        /\ current_position (calls v cs) == p).
Proof.
  split.
  - intros v c Heq Hc.
    destruct (mutation_in_bounds v c) as [Hlo Hhi]; [lra|assumption|].
    destruct (call_bounds v c) as [Hmn Hmx]. rewrite Hmn in Hlo. rewrite Hmx in Hhi.
    lra.
  - intros p ns st v cs Hinit.
    apply VariableLocation_init_inv in Hinit as (Hc & Hmn & Hmx & _ & Hia & Ho).
    simpl in *. split.
    + unfold is_action. rewrite Hia. simpl. rewrite Hc, Hmn, Hmx.
      unfold Qlt_bool. by rewrite (proj2 (Qle_bool_iff p p) (Qle_refl p)).
    + assert (H : forall v, min_value v = p -> max_value v = p ->
                current_position v == p -> restore_point v == p ->
                current_position (calls v cs) == p).
      { clear. induction cs as [|c cs IH]; intros v Hmn Hmx Hc Hr; simpl;
          [assumption|].
        destruct (call_bounds v c) as [Hmn' Hmx'].
        apply IH; [congruence|congruence| |by rewrite restore_point_call].
        destruct c as [b|x|]; [| |by simpl; rewrite reset_position].
        - destruct (mutation_in_bounds v (CallDiscrete b)) as [Hlo Hhi];
            [rewrite Hmn, Hmx; lra|reflexivity|].
          rewrite Hmn' in Hlo. rewrite Hmx' in Hhi. rewrite Hmn in Hlo.
          rewrite Hmx in Hhi. lra.
        - destruct (mutation_in_bounds v (CallContinuous x)) as [Hlo Hhi];
            [rewrite Hmn, Hmx; lra|reflexivity|].
          rewrite Hmn' in Hlo. rewrite Hmx' in Hhi. rewrite Hmn in Hlo.
          rewrite Hmx in Hhi. lra. }
      apply H; [assumption|assumption|by rewrite Hc|].
      rewrite restore_point_fresh by assumption. by rewrite Hc.
Qed.

Lemma fixed_variable_never_moves_witness :
  exists v, VariableLocation_init (mkVLArgs (1 # 3) None None None None) = Ok v
    /\ current_position (calls v [CallDiscrete true; CallContinuous 1; CallReset])
       == 1 # 3.
Proof.
  eexists. split; [reflexivity|].
  exact (proj2 (proj2 fixed_variable_never_moves (1 # 3) None None _
                  [CallDiscrete true; CallContinuous 1; CallReset] eq_refl)).
Defined.

Lemma discrete_up v :
  0 <= step v -> in_bounds v ->
  current_position v <= current_position (call v (CallDiscrete true)) <= max_value v
  /\ 0 <= step (call v (CallDiscrete true))
  /\ in_bounds (call v (CallDiscrete true)).
Proof.
  intros Hs [Hlo Hhi]. assert (Hle : min_value v <= max_value v) by lra.
  split; [|split; [exact Hs|by apply mutation_in_bounds]].
  cbn [call snd apply_discrete_action current_position].
  destruct (np_clip_cases (current_position v + step v) (min_value v) (max_value v) Hle)
    as [[H1 H2]|[[H1 H2]|[H1 H2]]]; rewrite H2; lra.
Qed.

Lemma discrete_down v :
  0 <= step v -> in_bounds v ->
  min_value v <= current_position (call v (CallDiscrete false)) <= current_position v
  /\ 0 <= step (call v (CallDiscrete false))
  /\ in_bounds (call v (CallDiscrete false)).
Proof.
  intros Hs [Hlo Hhi]. assert (Hle : min_value v <= max_value v) by lra.
  split; [|split; [exact Hs|by apply mutation_in_bounds]].
  cbn [call snd apply_discrete_action current_position].
  destruct (np_clip_cases (current_position v + - step v) (min_value v) (max_value v) Hle)
    as [[H1 H2]|[[H1 H2]|[H1 H2]]]; rewrite H2; lra.
Qed.

Lemma discrete_ups (k : nat) : forall v,
  0 <= step v -> in_bounds v ->
  current_position v
    <= current_position (calls v (replicate k (CallDiscrete true))) <= max_value v.
Proof.
  induction k as [|k IH]; intros v Hs Hin; cbn [replicate calls foldl];
    [destruct Hin; lra|].
  destruct (discrete_up v Hs Hin) as (H1 & Hs' & Hin').
  specialize (IH _ Hs' Hin'). unfold calls in IH.
  destruct (call_bounds v (CallDiscrete true)) as [_ Hmx]. rewrite Hmx in IH. lra.
Qed.

Lemma discrete_downs (k : nat) : forall v,
  0 <= step v -> in_bounds v ->
  min_value v
    <= current_position (calls v (replicate k (CallDiscrete false)))
    <= current_position v.
Proof.
  induction k as [|k IH]; intros v Hs Hin; cbn [replicate calls foldl];
    [destruct Hin; lra|].
  destruct (discrete_down v Hs Hin) as (H1 & Hs' & Hin').
  specialize (IH _ Hs' Hin'). unfold calls in IH.
  destruct (call_bounds v (CallDiscrete false)) as [Hmn _]. rewrite Hmn in IH. lra.
Qed.

(** X5.  Discrete actions move one way.  With a non-negative step and a
    position within the bounds, any number of increasing actions never
    lowers the position and never passes [max_value], and any number of
    decreasing ones never raises it and never passes [min_value]; at
    [max_value] increasing actions change nothing, and at [min_value]
    decreasing ones change nothing. *)
Theorem discrete_actions_are_monotone (v : VariableLocation) (k : nat) :
  0 <= step v -> in_bounds v ->
  (current_position v
     <= current_position (calls v (replicate k (CallDiscrete true))) <= max_value v)
  /\ (min_value v
        <= current_position (calls v (replicate k (CallDiscrete false)))
        <= current_position v)
  /\ (current_position v == max_value v ->
      current_position (calls v (replicate k (CallDiscrete true))) == max_value v)
  /\ (current_position v == min_value v ->
      current_position (calls v (replicate k (CallDiscrete false))) == min_value v).
Proof.
  intros Hs Hin.
  pose proof (discrete_ups k v Hs Hin) as Hup.
  pose proof (discrete_downs k v Hs Hin) as Hdown.
  split; [exact Hup|]. split; [exact Hdown|]. split; intros H; lra.
Qed.

Lemma discrete_actions_are_monotone_witness :
  let v := mkVariableLocation (1 # 2) 0 1 (Some 10%Z) (3 # 10) None None in
  1 # 2 <= current_position (calls v (replicate 4 (CallDiscrete true))) <= 1.
Proof.
  intros v.
  exact (proj1 (discrete_actions_are_monotone v 4
                  ltac:(simpl; lra) ltac:(unfold in_bounds; simpl; lra))).
Defined.

(** X6.  A continuous action forgets the position it finds: the new
    position depends on the value and the two bounds only.  With
    [min_value <= max_value] and a finite range it lies within the bounds,
    it does not decrease when the value increases, and every value of at
    most [-1] leads to [min_value]. *)
Theorem continuous_action_forgets_position (v w : VariableLocation) (x y : Q) :
  min_value v <= max_value v ->
  finite_range v ->
  (min_value w = min_value v -> max_value w = max_value v ->
     fst (apply_continuos_action w x) = fst (apply_continuos_action v x))
  /\ min_value v <= fst (apply_continuos_action v x) <= max_value v
  /\ (x <= y -> fst (apply_continuos_action v x) <= fst (apply_continuos_action v y))
  /\ (x <= -1 -> fst (apply_continuos_action v x) == min_value v).
Proof.
  intros Hle _. cbn [apply_continuos_action fst].
  split; [by intros -> ->|].
  set (d := max_value v - min_value v).
  assert (Hd : 0 <= d) by (subst d; lra).
  assert (Ht : forall z, (z + 1) / 2 == (z + 1) * (1 # 2)) by (intros z; field).
  split; [|split].
  - split; [by apply np_clip_ge_min|apply np_clip_le_max].
  - intros Hxy.
    assert (Hm : (x + 1) / 2 * d + min_value v <= (y + 1) / 2 * d + min_value v)
      by (rewrite (Ht x), (Ht y); nra).
    destruct (np_clip_cases ((x + 1) / 2 * d + min_value v) (min_value v)
                (max_value v) Hle) as [[H1 H2]|[[H1 H2]|[H1 H2]]];
      destruct (np_clip_cases ((y + 1) / 2 * d + min_value v) (min_value v)
                  (max_value v) Hle) as [[H3 H4]|[[H3 H4]|[H3 H4]]];
      rewrite H2, H4; lra.
  - intros Hx.
    assert (Hm : (x + 1) / 2 * d + min_value v <= min_value v)
      by (rewrite (Ht x); nra).
    destruct (np_clip_cases ((x + 1) / 2 * d + min_value v) (min_value v)
                (max_value v) Hle) as [[H1 H2]|[[H1 H2]|[H1 H2]]]; rewrite H2; lra.
Qed.

Lemma continuous_action_forgets_position_witness :
  let v := mkVariableLocation (1 # 4) 0 2 (Some 10%Z) (1 # 5) None None in
  fst (apply_continuos_action v (-3)) == 0.
Proof.
  intros v.
  refine (proj2 (proj2 (proj2 (continuous_action_forgets_position v v (-3) 0 _ _))) _).
  - simpl. lra.
  - unfold finite_range, float_max, Qle. simpl. lia.
  - lra.
Defined.

(** ** SplineSpaceDimension *)

(** X8.  What [get_knot_vector] returns for a constructed axis of [p]
    points and degree [d].  A supplied knot vector is stored unchanged when
    its length is [p + d + 1], and nothing else about it is checked; a
    supplied vector of any other length leaves [None].  A vector made up
    by the constructor has [p + d + 1] knots, or [2 (d + 1)] knots when
    that is more. *)
Theorem stored_knot_vector (a : SSDArgs) (dim : SplineSpaceDimension) :
  snd (SplineSpaceDimension_init a) = Ok dim ->
  let n := (kw_number_of_points a + kw_degree a + 1)%Z in
  match kw_knot_vector a, get_knot_vector dim with
  | Some l, Some kv => kv = l /\ Z.of_nat (length l) = n
  | Some l, None => Z.of_nat (length l) <> n
  | None, Some kv => Z.of_nat (length kv) = Z.max n (2 * (kw_degree a + 1))
  | None, None => False
  end.
Proof.
  intros H n. pose proof (SplineSpaceDimension_init_inv a dim H) as (Hp & Hd & _).
  revert H. unfold SplineSpaceDimension_init, get_knot_vector.
  rewrite !conint_ge1_Ok by assumption. unfold validate_knot_vector. simpl. fold n.
  destruct (kw_knot_vector a) as [l|].
  - destruct (Z.eqb_spec (Z.of_nat (length l)) n) as [Hl|Hl]; simpl;
      intros [= <-]; simpl; auto.
  - destruct (Z.leb_spec 0 (n - 2 * (kw_degree a + 1))) as [Hm|Hm]; simpl;
      intros [= <-]; simpl.
    + unfold np_zeros, np_ones.
      rewrite !length_app, !length_replicate, axis_length by lia. lia.
    + unfold np_zeros, np_ones. rewrite !length_app, !length_replicate. lia.
Qed.

Lemma stored_knot_vector_witness :
  match get_knot_vector (mkSplineSpaceDimension "u" 2 3 (Some [0; 0; 0; 0; 1; 1; 1; 1])) with
  | Some kv => Z.of_nat (length kv) = 8%Z
  | None => False
  end.
Proof.
  exact (stored_knot_vector (mkSSDArgs "u" 2 3 None) _ eq_refl).
Defined.

(** X9.  An axis is constructed exactly when it has at least one point and
    a degree of at least 1: no knot vector, supplied or absent, of whatever
    length, makes the construction fail, and the stored point count and
    degree are the supplied ones. *)
Theorem SplineSpaceDimension_init_domain (a : SSDArgs) :
  (is_Ok (snd (SplineSpaceDimension_init a)) = true <->
     (1 <= kw_number_of_points a)%Z /\ (1 <= kw_degree a)%Z)
  /\ forall d, snd (SplineSpaceDimension_init a) = Ok d ->
       name d = kw_name a
       /\ number_of_points d = kw_number_of_points a
       /\ degree d = kw_degree a.
Proof.
  split; [split|].
  - destruct (snd (SplineSpaceDimension_init a)) as [d|] eqn:H; [|discriminate].
    intros _. apply SplineSpaceDimension_init_inv in H. tauto.
  - intros [Hp Hd]. by destruct (SplineSpaceDimension_init_Ok a Hp Hd) as [kv ->].
  - intros d H. pose proof (SplineSpaceDimension_init_inv a d H) as (Hp & Hd & _).
    destruct (SplineSpaceDimension_init_Ok a Hp Hd) as [kv Hkv].
    rewrite Hkv in H. by injection H as <-.
Qed.

Lemma SplineSpaceDimension_init_domain_witness :
  is_Ok (snd (SplineSpaceDimension_init (mkSSDArgs "u" 1 4 (Some [0; 1])))) = true.
Proof.
  apply (proj1 (SplineSpaceDimension_init_domain (mkSSDArgs "u" 1 4 (Some [0; 1])))).
  simpl. lia.
Defined.

Lemma StronglySorted_replicate (x : Q) n : StronglySorted Qle (replicate n x).
Proof.
  induction n as [|n IH]; simpl; constructor; [assumption|].
  apply Forall_forall. intros y Hy. apply elem_of_replicate in Hy as [-> _].
  apply Qle_refl.
Qed.

Lemma knot_pieces_sorted a b (l : list Q) :
  StronglySorted Qle l -> Forall (fun x => 0 <= x <= 1) l ->
  StronglySorted Qle (replicate a 0 ++ l ++ replicate b 1)
  /\ Forall (fun x => 0 <= x <= 1) (replicate a 0 ++ l ++ replicate b 1).
Proof.
  intros Hs Hu. rewrite Forall_forall in Hu. split.
  - apply StronglySorted_app_2; [|apply StronglySorted_replicate|].
    + intros x y Hx Hy. apply elem_of_replicate in Hx as [-> _].
      apply elem_of_app in Hy as [Hy|Hy]; [by apply Hu|].
      apply elem_of_replicate in Hy as [-> _]. lra.
    + apply StronglySorted_app_2; [|assumption|apply StronglySorted_replicate].
      intros x y Hx Hy. apply elem_of_replicate in Hy as [-> _]. by apply Hu.
  - rewrite !Forall_app. split; [|split; [by apply Forall_forall|]];
      apply Forall_forall; intros x Hx; apply elem_of_replicate in Hx as [-> _]; lra.
Qed.

Lemma StronglySorted_seq start len : StronglySorted le (seq start len).
Proof.
  revert start. induction len as [|len IH]; intros start; simpl; constructor;
    [apply IH|].
  apply Forall_forall. intros y Hy. apply elem_of_seq in Hy. lia.
Qed.

Lemma interior_knots_sorted (m : nat) :
  StronglySorted Qle
    ((fun j : nat => Qred (inject_Z (Z.of_nat j + 1) / inject_Z (Z.of_nat m + 1)))
       <$> seq 0 m).
Proof.
  apply (StronglySorted_fmap _ le); [|apply StronglySorted_seq].
  intros i j Hij. rewrite !Qred_correct.
  assert (Hm : 0 < inject_Z (Z.of_nat m + 1)).
  { change 0 with (inject_Z 0). rewrite <- Zlt_Qlt. lia. }
  apply Qmult_le_compat_r; [rewrite <- Zle_Qle; lia|].
  apply Qlt_le_weak, Qinv_lt_0_compat, Hm.
Qed.

(** X10.  The knot vector that the constructor makes up when none is
    supplied is a knot vector in either branch: non-decreasing, with every
    knot in [[0, 1]]. *)
Theorem default_knot_vector_is_sorted (nm : string) (p d : Z) :
  (1 <= p)%Z -> (1 <= d)%Z ->
  exists kv,
    snd (SplineSpaceDimension_init (mkSSDArgs nm p d None))
      = Ok (mkSplineSpaceDimension nm p d (Some kv))
    /\ StronglySorted Qle kv
    /\ Forall (fun x => 0 <= x <= 1) kv.
Proof.
  intros Hp Hd. unfold SplineSpaceDimension_init. simpl.
  rewrite !conint_ge1_Ok by assumption. unfold validate_knot_vector. simpl.
  destruct (Z.leb_spec 0 (p + d + 1 - 2 * (d + 1))) as [Hm|Hm]; simpl.
  - eexists. split; [reflexivity|].
    replace (p + d + 1 - 2 * (d + 1) + 2)%Z
      with (Z.of_nat (Z.to_nat (p + d + 1 - 2 * (d + 1))) + 2)%Z by lia.
    rewrite np_linspace_unit. unfold np_zeros, np_ones.
    apply knot_pieces_sorted.
    + apply (knot_pieces_sorted 1 1); [apply interior_knots_sorted|].
      apply Forall_fmap, Forall_forall. intros j Hj. simpl.
      apply elem_of_seq in Hj.
      destruct (interior_knot_strict (Z.to_nat (p + d + 1 - 2 * (d + 1))) j); [lia|].
      split; by apply Qlt_le_weak.
    + apply (knot_pieces_sorted 1 1); [apply interior_knots_sorted|].
      apply Forall_fmap, Forall_forall. intros j Hj. simpl.
      apply elem_of_seq in Hj.
      destruct (interior_knot_strict (Z.to_nat (p + d + 1 - 2 * (d + 1))) j); [lia|].
      split; by apply Qlt_le_weak.
  - eexists. split; [reflexivity|]. unfold np_zeros, np_ones.
    apply (knot_pieces_sorted _ _ []); constructor.
Qed.

Lemma default_knot_vector_is_sorted_witness :
  exists kv,
    snd (SplineSpaceDimension_init (mkSSDArgs "u" 6 2 None))
      = Ok (mkSplineSpaceDimension "u" 6 2 (Some kv))
    /\ StronglySorted Qle kv.
Proof.
  destruct (default_knot_vector_is_sorted "u" 6 2 ltac:(lia) ltac:(lia))
    as (kv & H & Hs & _).
  by exists kv.
Defined.

(** ** SplineDefinition: supplied control points *)

Lemma supplied_row_positions row : forall row' r,
  traverse validate_cp_item row = Ok row' ->
  convert_all_control_point_locations_to_variable_locations row' = Ok r ->
  Forall2 (fun e x => current_position x = cp_value e
                      /\ fst (is_action x) = has_room e) row r.
Proof.
  induction row as [|e row IH]; simpl; intros row' r Hv Hc.
  - injection Hv as <-. simpl in Hc. injection Hc as <-. constructor.
  - destruct (validate_cp_item e) as [w|] eqn:He; simpl in Hv; [|discriminate].
    destruct (traverse validate_cp_item row) as [ws|] eqn:Hws; simpl in Hv;
      [|discriminate].
    injection Hv as <-. simpl in Hc.
    destruct (match w with inl f => _ | inr x => Ok x end) as [x|] eqn:Hx;
      simpl in Hc; [|discriminate].
    destruct (Qle_bool 0 (current_position x) && Qle_bool (current_position x) 1);
      [|discriminate].
    destruct (convert_all_control_point_locations_to_variable_locations ws)
      as [r'|] eqn:Hr'; simpl in Hc; [|discriminate].
    injection Hc as <-. constructor; [|by apply (IH ws)].
    destruct e as [q|data]; simpl in He.
    + destruct (Qle_bool 0 q && Qle_bool q 1); [|discriminate].
      injection He as <-. apply VariableLocation_init_inv in Hx.
      simpl in Hx. destruct Hx as (Hc & Hmn & Hmx & _ & Hia & _).
      split; [assumption|]. unfold is_action. rewrite Hia. simpl.
      rewrite Hc, Hmn, Hmx. unfold Qlt_bool.
      by rewrite (proj2 (Qle_bool_iff q q) (Qle_refl q)).
    + destruct (VariableLocation_init data) as [y|] eqn:Hy; simpl in He; [|discriminate].
      injection He as <-. injection Hx as <-.
      apply VariableLocation_init_inv in Hy as (Hc & Hmn & Hmx & _ & Hia & _).
      split; [assumption|]. unfold is_action. rewrite Hia. simpl.
      by rewrite Hc, Hmn, Hmx.
Qed.

Lemma supplied_rows_positions rows : forall its,
  traverse (fun row =>
              row ← traverse validate_cp_item row;
              row ← convert_all_control_point_locations_to_variable_locations row;
              Ok (Tuple row)) rows = Ok its ->
  exists rs, its = Tuple <$> rs
    /\ Forall2 (Forall2 (fun e x => current_position x = cp_value e
                                    /\ fst (is_action x) = has_room e)) rows rs.
Proof.
  induction rows as [|row rows IH]; simpl; intros its H.
  - injection H as <-. exists []. split; [reflexivity|constructor].
  - destruct (traverse validate_cp_item row) as [row'|] eqn:Hv; simpl in H;
      [|discriminate].
    destruct (convert_all_control_point_locations_to_variable_locations row')
      as [r|] eqn:Hc; simpl in H; [|discriminate].
    destruct (traverse _ rows) as [its'|] eqn:Hrows; simpl in H; [|discriminate].
    injection H as <-. destruct (IH its' eq_refl) as (rs & -> & Hrs).
    exists (r :: rs). split; [reflexivity|].
    constructor; [by eapply supplied_row_positions|assumption].
Qed.

Lemma supplied_grid data rows s :
  kw_control_point_variables data = Some rows ->
  SplineDefinition_init data = Ok s ->
  exists rs, control_point_variables s = Some (Tuple <$> rs)
    /\ Forall2 (Forall2 (fun e x => current_position x = cp_value e
                                    /\ fst (is_action x) = has_room e)) rows rs.
Proof.
  intros Hrows H. apply SplineDefinition_init_inv in H as (dims & _ & _ & Hv).
  rewrite Hrows in Hv. unfold validate_control_point_variables in Hv. simpl in Hv.
  destruct (traverse _ rows) as [its|] eqn:Ht; simpl in Hv; [|discriminate].
  injection Hv as Hv. apply supplied_rows_positions in Ht as (rs & -> & Hrs).
  exists rs. by split.
Qed.

Lemma grid_rows_tuples d rs :
  control_point_variables d = Some (Tuple <$> rs) -> grid_rows d = Ok rs.
Proof.
  intros H. unfold grid_rows. rewrite H. clear.
  induction rs as [|r rs IH]; csimpl; [reflexivity|]. by rewrite IH.
Qed.

(** X11.  Supplied control points come back as they were given:
    [get_control_points] of the constructed definition returns the supplied
    positions, row by row and in order, whatever the axes declare; their
    number is not compared with the number of points of the axes. *)
Theorem supplied_control_points_round_trip data rows s :
  kw_control_point_variables data = Some rows ->
  SplineDefinition_init data = Ok s ->
  get_control_points s = Ok (map (map cp_value) rows).
Proof.
  intros Hrows H. destruct (supplied_grid data rows s Hrows H) as (rs & Hg & Hrs).
  unfold get_control_points. rewrite (grid_rows_tuples s rs Hg). simpl. f_equal.
  clear -Hrs. induction Hrs as [|row r rows rs Hrow _ IH]; csimpl; [reflexivity|].
  rewrite IH. f_equal. clear -Hrow.
  induction Hrow as [|e x row r [Hex _] _ IH]; csimpl; [reflexivity|].
  by rewrite IH, Hex.
Qed.

Lemma supplied_control_points_round_trip_witness :
  exists s,
    SplineDefinition_init
      (mkSDArgs [mkSSDArgs "u" 5 1 None] 1
         (Some [[CPFloat (1 # 4); CPVariable (mkVLArgs (1 # 2) (Some 0) None None None)]]))
      = Ok s
    /\ get_control_points s = Ok [[1 # 4; 1 # 2]].
Proof.
  eexists. split; [reflexivity|].
  exact (supplied_control_points_round_trip
           (mkSDArgs [mkSSDArgs "u" 5 1 None] 1
              (Some [[CPFloat (1 # 4);
                      CPVariable (mkVLArgs (1 # 2) (Some 0) None None None)]]))
           _ _ eq_refl eq_refl).
Defined.

Lemma imap_Forall2 {A B C} (l : list A) (k : list B) :
  forall (f : nat -> A -> C) (g : nat -> B -> C),
  Forall2 (fun a b => forall i, f i a = g i b) l k -> imap f l = imap g k.
Proof.
  intros f g H. revert f g H.
  assert (G : forall (R : A -> B -> Prop), Forall2 R l k ->
            forall (f : nat -> A -> C) (g : nat -> B -> C),
              (forall a b i, R a b -> f i a = g i b) -> imap f l = imap g k).
  { intros R HR. induction HR as [|a b l k Hab _ IH]; intros f g Hfg; csimpl;
      [reflexivity|].
    f_equal; [by apply Hfg|]. apply IH. intros a' b' i. apply Hfg. }
  intros f g H. apply (G _ H). auto.
Qed.

Lemma row_refs_Forall2 {A B} (ra : A -> bool) (rb : B -> bool) i l k :
  Forall2 (fun a b => ra a = rb b) l k -> row_refs ra i l = row_refs rb i k.
Proof.
  intros H. unfold row_refs. f_equal. apply imap_Forall2.
  eapply Forall2_impl; [exact H|]. intros a b Hab j. by rewrite Hab.
Qed.

Lemma grid_refs_Forall2 {A B} (ra : A -> bool) (rb : B -> bool) l k :
  Forall2 (Forall2 (fun a b => ra a = rb b)) l k -> grid_refs ra l = grid_refs rb k.
Proof.
  intros H. unfold grid_refs. f_equal. apply imap_Forall2.
  eapply Forall2_impl; [exact H|]. intros a b Hab i. by apply row_refs_Forall2.
Qed.

Lemma join_imap_nil {A B} (l : list A) :
  forall f : nat -> A -> list B,
  (forall i a, a ∈ l -> f i a = []) -> mjoin (imap f l) = [].
Proof.
  induction l as [|a l IH]; intros f Hf; csimpl; [reflexivity|].
  rewrite (Hf 0%nat a) by left. simpl. apply IH.
  intros i b Hb. apply Hf. by right.
Qed.

Lemma grid_refs_none {A} (room : A -> bool) (rows : list (list A)) :
  Forall (Forall (fun e => room e = false)) rows -> grid_refs room rows = [].
Proof.
  intros H. unfold grid_refs. apply join_imap_nil. intros i row Hrow.
  unfold row_refs. apply join_imap_nil. intros j e He.
  rewrite Forall_forall in H. specialize (H row Hrow).
  rewrite Forall_forall in H. by rewrite (H e He).
Qed.

(** X12.  For supplied control points [get_actions] returns, in row-major
    order, the references of exactly those entries that were given as a
    [VariableLocation] with a bound away from its position; entries given
    as raw floats are never actions, so a grid of floats has no actions. *)
Theorem supplied_actions data rows s :
  kw_control_point_variables data = Some rows ->
  SplineDefinition_init data = Ok s ->
  (exists s', SplineDefinition_get_actions s = Ok (grid_refs has_room rows, s'))
  /\ (Forall (Forall (fun e => exists q, e = CPFloat q)) rows ->
      grid_refs has_room rows = []).
Proof.
  intros Hrows H. split.
  - destruct (supplied_grid data rows s Hrows H) as (rs & Hg & Hrs).
    unfold SplineDefinition_get_actions. rewrite (grid_rows_tuples s rs Hg). simpl.
    eexists. f_equal. f_equal. symmetry.
    apply (grid_refs_Forall2 has_room (fun v => fst (is_action v))).
    eapply Forall2_impl; [exact Hrs|]. intros row r Hrow.
    eapply Forall2_impl; [exact Hrow|]. by intros e x [_ ->].
  - intros Hf. apply grid_refs_none.
    eapply Forall_impl; [exact Hf|]. intros row Hrow.
    eapply Forall_impl; [exact Hrow|]. by intros e [q ->].
Qed.

Lemma supplied_actions_witness :
  exists s s',
    SplineDefinition_init
      (mkSDArgs [mkSSDArgs "u" 2 1 None] 1
         (Some [[CPFloat (1 # 4); CPVariable (mkVLArgs (1 # 2) (Some 0) None None None)]]))
      = Ok s
    /\ SplineDefinition_get_actions s = Ok ([ControlPointRef 0 1], s').
Proof.
  eexists.
  destruct (proj1 (supplied_actions
              (mkSDArgs [mkSSDArgs "u" 2 1 None] 1
                 (Some [[CPFloat (1 # 4);
                         CPVariable (mkVLArgs (1 # 2) (Some 0) None None None)]]))
              _ _ eq_refl eq_refl)) as [s' Hs'].
  exists s'. split; [reflexivity|exact Hs'].
Defined.

(** ** The list of actions of a spline *)

Section Kept.
Context {A : Type} (g : VariableLocation -> A).
Hypothesis g_call : forall v c, g (call v c) = g v.

Lemma spline_call_keeps s c :
  nested s = true ->
  exists s', spline_call s c = Ok s' /\ nested s' = true
    /\ map (map g) (rows_of s') = map (map g) (rows_of s)
    /\ g <$> weights_of s' = g <$> weights_of s.
Proof.
  intros Hs. destruct c as [r c|]; simpl.
  - eexists. split; [reflexivity|]. split; [by rewrite nested_alter_var|].
    split; [apply rows_of_alter_var | apply weights_of_alter_var];
      intros v; apply g_call.
  - rewrite Spline_reset_nested by assumption. eexists. split; [reflexivity|].
    split; [by rewrite nested_map_vars|].
    rewrite rows_of_map_vars, weights_of_map_vars. split.
    + rewrite <- (list_fmap_compose (fmap reset) (fmap g)).
      apply list_fmap_ext. intros _ row _. simpl.
      rewrite <- (list_fmap_compose reset g).
      apply list_fmap_ext. intros _ v _. apply (g_call v CallReset).
    + rewrite <- (list_fmap_compose reset g).
      apply list_fmap_ext. intros _ v _. apply (g_call v CallReset).
Qed.

Lemma spline_calls_keep cs : forall s,
  nested s = true ->
  exists s', spline_calls s cs = Ok s' /\ nested s' = true
    /\ map (map g) (rows_of s') = map (map g) (rows_of s)
    /\ g <$> weights_of s' = g <$> weights_of s.
Proof.
  induction cs as [|c cs IH]; intros s Hs.
  - exists s. auto.
  - destruct (spline_call_keeps s c Hs) as (s1 & Hc & Hn & Hr & Hw).
    destruct (IH s1 Hn) as (s' & Hcs & Hn' & Hr' & Hw').
    exists s'. unfold spline_calls in *. simpl. rewrite Hc. simpl.
    split; [assumption|]. split; [assumption|]. split; congruence.
Qed.
End Kept.

(** The references [get_actions] returns, read off the variables. *)
Lemma row_refs_fmap {A} (room : A -> bool) i (row : list A) :
  row_refs room i row = row_refs id i (room <$> row).
Proof.
  apply row_refs_Forall2. apply Forall2_fmap_r, Forall_Forall2_diag.
  by apply Forall_forall.
Qed.

Lemma grid_refs_fmap {A} (room : A -> bool) (rows : list (list A)) :
  grid_refs room rows = grid_refs id (map (map room) rows).
Proof.
  apply grid_refs_Forall2. apply Forall2_fmap_r, Forall_Forall2_diag.
  apply Forall_forall. intros row _. apply Forall2_fmap_r, Forall_Forall2_diag.
  by apply Forall_forall.
Qed.

Lemma weight_actions_fmap ws ws' :
  (fun v => fst (is_action v)) <$> ws = (fun v => fst (is_action v)) <$> ws' ->
  weight_actions ws = weight_actions ws'.
Proof.
  intros H. unfold weight_actions. f_equal. apply imap_Forall2.
  revert ws' H. induction ws as [|v ws IH]; intros [|v' ws'] H; csimpl in *;
    try discriminate; constructor.
  - intros i. injection H as -> _. reflexivity.
  - apply IH. by injection H.
Qed.

Lemma weights_is_action ws :
  forallb is_variable ws = true ->
  (fun variable => WVariable (snd (is_action variable))) <$>
    mjoin (M:=list) ((fun w => match w with WVariable v => [v] | WFloat _ => [] end) <$> ws)
  = alter_weight (fun v => snd (is_action v)) <$> ws.
Proof.
  induction ws as [|[x|v] ws IH]; csimpl; intros H; try discriminate; [reflexivity|].
  csimpl. by rewrite IH.
Qed.

Lemma Spline_get_actions_nested s :
  nested s = true ->
  Spline_get_actions s
  = Ok (grid_refs (fun v => fst (is_action v)) (rows_of s) ++ weight_actions (weights_of s),
        map_vars (fun v => snd (is_action v)) s).
Proof.
  assert (Hd : forall d, nested_grid d = true ->
    SplineDefinition_get_actions d
    = Ok (grid_refs (fun v => fst (is_action v)) (rows_of (BSplineDef d)),
          map_grid (fun v => snd (is_action v)) d)).
  { intros d. unfold nested_grid, SplineDefinition_get_actions, grid_rows, rows_of,
      map_grid, with_rows. simpl.
    destruct (control_point_variables d) as [g|]; [|discriminate].
    intros H. rewrite traverse_iter_item by assumption. simpl.
    by rewrite map_item_tuples. }
  destruct s as [d|d]; simpl; intros H.
  - rewrite Hd by assumption. simpl. by rewrite app_nil_r.
  - apply andb_true_iff in H as [Hg Hw]. unfold NURBSDefinition_get_actions.
    rewrite Hd by assumption. simpl.
    rewrite traverse_weight_variable by assumption. simpl.
    by rewrite weights_is_action.
Qed.

Lemma cached_answer v b : _is_action v = Some b -> is_action v = (b, v).
Proof. unfold is_action. by intros ->. Qed.

(** X13.  The list of actions of a spline is decided by the first call of
    [get_actions]: after any history of actions and resets on the spline,
    [get_actions] returns the same references in the same order, and
    changes nothing any more. *)
Theorem actions_are_decided_once s refs s1 cs :
  nested s = true ->
  Spline_get_actions s = Ok (refs, s1) ->
  exists s2, spline_calls s1 cs = Ok s2
    /\ Spline_get_actions s2 = Ok (refs, s2).
Proof.
  intros Hs H. rewrite Spline_get_actions_nested in H by assumption.
  injection H as <- <-.
  set (s1 := map_vars (fun v => snd (is_action v)) s).
  assert (Hn : nested s1 = true) by (subst s1; by rewrite nested_map_vars).
  destruct (spline_calls_keep _is_action (fun v c => proj2 (proj2 (proj2 (proj2 (call_keeps v c)))))
              cs s1 Hn) as (s2 & Hcs & Hn2 & Hr & Hw).
  exists s2. split; [assumption|].
  subst s1. rewrite rows_of_map_vars in Hr. rewrite weights_of_map_vars in Hw.
  assert (Hrows : Forall2 (Forall2 (fun v2 v => _is_action v2 = Some (fst (is_action v))))
                    (rows_of s2) (rows_of s)).
  { apply (f_equal (fun l => l)) in Hr.
    assert (G : forall (l2 l : list (list VariableLocation)),
               map (map _is_action) l2
               = map (map _is_action) (map (map (fun v => snd (is_action v))) l) ->
               Forall2 (Forall2 (fun v2 v => _is_action v2 = Some (fst (is_action v)))) l2 l).
    { induction l2 as [|r2 l2 IH]; intros [|r l] E; csimpl in E; try discriminate;
        constructor; [|apply IH; by injection E].
      injection E as E _. clear IH. revert r E.
      induction r2 as [|v2 r2 IH]; intros [|v r] E; csimpl in E; try discriminate;
        constructor; [|apply IH; by injection E].
      injection E as E _. by rewrite E, is_action_cached. }
    by apply G. }
  assert (Hws : Forall2 (fun v2 v => _is_action v2 = Some (fst (is_action v)))
                  (weights_of s2) (weights_of s)).
  { revert Hw. generalize (weights_of s2) (weights_of s).
    induction l as [|v2 l2 IH]; intros [|v l] E; csimpl in E; try discriminate;
      constructor; [|apply IH; by injection E].
    injection E as E _. by rewrite E, is_action_cached. }
  rewrite Spline_get_actions_nested by assumption. f_equal. f_equal.
  - f_equal.
    + apply grid_refs_Forall2. eapply Forall2_impl; [exact Hrows|].
      intros r2 r Hrow. eapply Forall2_impl; [exact Hrow|].
      intros v2 v E. by rewrite (cached_answer _ _ E).
    + apply weight_actions_fmap. clear Hw Hrows Hr.
      induction Hws as [|v2 v l2 l E _ IH]; csimpl; [reflexivity|].
      f_equal; [|exact IH]. by rewrite (cached_answer _ _ E).
  - apply map_vars_fixed. unfold variables. apply Forall_app. split.
    + apply Forall_forall. intros v Hv. apply list_elem_of_join in Hv as (row & Hv & Hrow).
      destruct (proj1 (list_elem_of_lookup _ _) Hrow) as [i Hi].
      destruct (Forall2_lookup_l _ _ _ _ _ Hrows Hi) as (r & _ & Hrr).
      destruct (proj1 (list_elem_of_lookup _ _) Hv) as [j Hj].
      destruct (Forall2_lookup_l _ _ _ _ _ Hrr Hj) as (v' & _ & E).
      by rewrite (cached_answer _ _ E).
    + apply Forall_forall. intros v Hv.
      destruct (proj1 (list_elem_of_lookup _ _) Hv) as [j Hj].
      destruct (Forall2_lookup_l _ _ _ _ _ Hws Hj) as (v' & _ & E).
      by rewrite (cached_answer _ _ E).
Qed.

Lemma actions_are_decided_once_witness :
  let v := mkVariableLocation (1 # 2) (6 # 10) (6 # 10) (Some 10%Z) 0 None None in
  let v1 := mkVariableLocation (1 # 2) (6 # 10) (6 # 10) (Some 10%Z) 0 (Some true) None in
  let s := BSplineDef (mkSplineDefinition [] 1 (Some [Tuple [v; v]])) in
  let s1 := BSplineDef (mkSplineDefinition [] 1 (Some [Tuple [v1; v1]])) in
  Spline_get_actions s = Ok ([ControlPointRef 0 0; ControlPointRef 0 1], s1)
  /\ exists s2,
       spline_calls s1 [VarCall (ControlPointRef 0 1) (CallDiscrete true); ResetCall;
                        VarCall (ControlPointRef 0 0) (CallContinuous 1)] = Ok s2
       /\ Spline_get_actions s2 = Ok ([ControlPointRef 0 0; ControlPointRef 0 1], s2).
Proof.
  intros v v1 s s1. split; [reflexivity|].
  exact (actions_are_decided_once s _ s1 _ eq_refl eq_refl).
Defined.

(** ** NURBSDefinition: supplied weights *)

Lemma supplied_weight e w :
  (w ← validate_weight_item e; convert_weights_into_variable_location w) = Ok w ->
  exists data v, e = WInVariable data /\ w = WVariable v
    /\ current_position v = kw_current_position data
    /\ fst (is_action v) = has_room (CPVariable data).
Proof.
  destruct e as [x|data]; simpl; [discriminate|].
  destruct (VariableLocation_init data) as [v|] eqn:Hv; simpl; [|discriminate].
  intros [= <-]. exists data, v. split; [reflexivity|]. split; [reflexivity|].
  apply VariableLocation_init_inv in Hv as (Hc & Hmn & Hmx & _ & Hia & _).
  split; [assumption|]. unfold is_action. rewrite Hia. simpl.
  by rewrite Hc, Hmn, Hmx.
Qed.

Lemma supplied_weights ws : forall items,
  traverse (fun e => w ← validate_weight_item e;
                     convert_weights_into_variable_location w) ws = Ok items ->
  exists ds vs, ws = WInVariable <$> ds /\ items = WVariable <$> vs
    /\ Forall2 (fun d v => current_position v = kw_current_position d
                           /\ fst (is_action v) = has_room (CPVariable d)) ds vs.
Proof.
  induction ws as [|e ws IH]; simpl; intros items H.
  - injection H as <-. exists [], []. split; [reflexivity|]. split; [reflexivity|constructor].
  - destruct (w ← validate_weight_item e; convert_weights_into_variable_location w)
      as [w|] eqn:Hw; simpl in H; [|discriminate].
    destruct (traverse _ ws) as [items'|] eqn:Hws; simpl in H; [|discriminate].
    injection H as <-. destruct (IH items' eq_refl) as (ds & vs & -> & -> & Hvs).
    destruct (supplied_weight e w Hw) as (d & v & -> & -> & Hv).
    exists (d :: ds), (v :: vs). split; [reflexivity|]. split; [reflexivity|].
    by constructor.
Qed.

Lemma float_weight_rejected ws :
  Exists (fun e => exists x, e = WInFloat x) ws ->
  is_Ok (traverse (fun e => w ← validate_weight_item e;
                            convert_weights_into_variable_location w) ws) = false.
Proof.
  induction 1 as [e ws [x ->]|e ws _ IH]; simpl; [reflexivity|].
  destruct (w ← validate_weight_item e; convert_weights_into_variable_location w);
    simpl; [|reflexivity].
  destruct (traverse _ ws); [discriminate|reflexivity].
Qed.

Lemma NURBSDefinition_init_inv data ws n :
  NURBSDefinition_init data (Some ws) = Ok n ->
  SplineDefinition_init data = Ok (nurbs_base n)
  /\ Z.of_nat (length ws) = get_number_of_points (nurbs_base n)
  /\ exists ds vs, ws = WInVariable <$> ds /\ weights n = WVariable <$> vs
       /\ Forall2 (fun d v => current_position v = kw_current_position d
                              /\ fst (is_action v) = has_room (CPVariable d)) ds vs.
Proof.
  unfold NURBSDefinition_init, SplineDefinition_init, get_number_of_points.
  destruct (validate_control_point_variables _ _) as [cpv|]; simpl; [|discriminate].
  unfold validate_weights_field.
  destruct (traverse (fun e => _) ws) as [items|] eqn:Hitems; simpl; [|discriminate].
  destruct (traverse _ (kw_space_dimensions data)) as [dims|]; simpl; [|discriminate].
  destruct (Z.eqb_spec (Z.of_nat (length items)) (np_prod (map number_of_points dims)))
    as [Hlen|]; simpl; [|discriminate].
  destruct (conint_ge1 _ _) as [sd|]; simpl; [|discriminate].
  intros [= <-]. simpl. split; [reflexivity|].
  destruct (supplied_weights ws items Hitems) as (ds & vs & -> & -> & Hvs).
  split.
  - rewrite <- Hlen, !length_fmap. f_equal. by apply Forall2_length in Hvs.
  - by exists ds, vs.
Qed.

(** X14.  A [NURBSDefinition] is constructed only when every weight is
    given as a [VariableLocation]: a weight given as a float makes the
    construction fail.  With a number of control points below [2^63] (the
    product is taken in 64-bit integers), a constructed NURBS has as many
    weights as control points; the weights are stored at the positions
    asked for, in the order given, and are not confined to the unit
    interval. *)
Theorem nurbs_weights_are_variables (data : SDArgs) (ws : list WeightInput) :
  (Exists (fun e => exists x, e = WInFloat x) ws ->
     is_Ok (NURBSDefinition_init data (Some ws)) = false)
  /\ forall n, NURBSDefinition_init data (Some ws) = Ok n ->
       ((get_number_of_points (nurbs_base n) < 2 ^ 63)%Z ->
          Z.of_nat (length ws) = get_number_of_points (nurbs_base n))
       /\ forallb is_variable (weights n) = true
       /\ current_position <$> weights_of (NURBSDef n)
          = (fun e => cp_value (weight_input e)) <$> ws.
Proof.
  split.
  - intros Hf. apply float_weight_rejected in Hf.
    unfold NURBSDefinition_init, validate_weights_field.
    destruct (validate_control_point_variables _ _); simpl; [|reflexivity].
    destruct (traverse (fun e => _) ws); [discriminate|reflexivity].
  - intros n H. apply NURBSDefinition_init_inv in H as (_ & Hlen & ds & vs & -> & Hw & Hvs).
    split; [by intros _|]. simpl. rewrite Hw. split.
    + clear. induction vs; csimpl; auto.
    + clear Hw Hlen. induction Hvs as [|d v ds vs [Hc _] _ IH]; csimpl; [reflexivity|].
      csimpl. f_equal; assumption.
Qed.

Lemma nurbs_weights_are_variables_witness :
  is_Ok (NURBSDefinition_init
           (mkSDArgs [mkSSDArgs "u" 2 1 None] 1 (Some [[CPFloat 0]; [CPFloat 1]]))
           (Some [WInVariable (mkVLArgs 3 None None None None); WInFloat 1])) = false.
Proof.
  apply (proj1 (nurbs_weights_are_variables
                  (mkSDArgs [mkSSDArgs "u" 2 1 None] 1 (Some [[CPFloat 0]; [CPFloat 1]]))
                  [WInVariable (mkVLArgs 3 None None None None); WInFloat 1])).
  apply Exists_cons_tl, Exists_cons_hd. by exists 1.
Defined.

Lemma supplied_grid_actions data rows s :
  kw_control_point_variables data = Some rows ->
  SplineDefinition_init data = Ok s ->
  exists s', SplineDefinition_get_actions s = Ok (grid_refs has_room rows, s').
Proof.
  intros Hrows H.
  destruct (supplied_grid data rows s Hrows H) as (rs & Hg & Hrs).
  unfold SplineDefinition_get_actions. rewrite (grid_rows_tuples s rs Hg). simpl.
  eexists. f_equal. f_equal. symmetry.
  apply (grid_refs_Forall2 has_room (fun v => fst (is_action v))).
  eapply Forall2_impl; [exact Hrs|]. intros row r Hrow.
  eapply Forall2_impl; [exact Hrow|]. by intros e x [_ ->].
Qed.

Lemma traverse_weight_variables vs :
  traverse weight_variable (WVariable <$> vs) = Ok vs.
Proof. induction vs as [|v vs IH]; csimpl; [reflexivity|]. by rewrite IH. Qed.

Lemma index_refs_Forall2 {A B} (ra : A -> bool) (rb : B -> bool) l k :
  Forall2 (fun a b => ra a = rb b) l k -> index_refs ra l = index_refs rb k.
Proof.
  intros H. unfold index_refs. f_equal. apply imap_Forall2.
  eapply Forall2_impl; [exact H|]. intros a b Hab i. by rewrite Hab.
Qed.

(** X15.  The actions of a NURBS built from supplied control points and
    weights: first the control-point coordinates with room to move, row by
    row, then the weights with room to move, in the order given. *)
Theorem nurbs_actions_order data rows (wd : list VLArgs) n :
  kw_control_point_variables data = Some rows ->
  NURBSDefinition_init data (Some (WInVariable <$> wd)) = Ok n ->
  exists n', NURBSDefinition_get_actions n
             = Ok (grid_refs has_room rows
                   ++ index_refs (fun d => has_room (CPVariable d)) wd, n').
Proof.
  intros Hrows H.
  apply NURBSDefinition_init_inv in H as (Hb & _ & ds & vs & Hds & Hw & Hvs).
  assert (ds = wd) as ->.
  { clear -Hds. revert ds Hds. induction wd as [|d wd IH]; intros [|d' ds] E;
      csimpl in E; try discriminate; [reflexivity|].
    injection E as -> E. f_equal. by apply IH. }
  destruct (supplied_grid_actions data rows _ Hrows Hb) as [b' Hb'].
  unfold NURBSDefinition_get_actions. rewrite Hb'. simpl.
  rewrite Hw, traverse_weight_variables. simpl. eexists. f_equal. f_equal. f_equal.
  symmetry. apply (index_refs_Forall2 _ (fun v => fst (is_action v))).
  eapply Forall2_impl; [exact Hvs|]. by intros e v [_ ->].
Qed.

Lemma nurbs_actions_order_witness :
  exists n n',
    NURBSDefinition_init
      (mkSDArgs [mkSSDArgs "u" 2 1 None] 1
         (Some [[CPFloat 0]; [CPVariable (mkVLArgs 1 (Some 0) None None None)]]))
      (Some [WInVariable (mkVLArgs 3 None None None None);
             WInVariable (mkVLArgs (1 # 2) (Some 0) (Some 2) None None)])
    = Ok n
    /\ NURBSDefinition_get_actions n = Ok ([ControlPointRef 1 0; WeightRef 1], n').
Proof.
  eexists.
  destruct (nurbs_actions_order
      (mkSDArgs [mkSSDArgs "u" 2 1 None] 1
         (Some [[CPFloat 0]; [CPVariable (mkVLArgs 1 (Some 0) None None None)]]))
      _
      [mkVLArgs 3 None None None None; mkVLArgs (1 # 2) (Some 0) (Some 2) None None]
      _ eq_refl eq_refl) as [n' Hn'].
  exists n'. split; [reflexivity|exact Hn'].
Defined.

(** ** Environment: the domain of [apply_action] *)

Lemma py_getitem_in_range {A} (l : list A) (i : Z) :
  (- Z.of_nat (length l) <= i < Z.of_nat (length l))%Z ->
  exists x, l !! Z.to_nat (i mod Z.of_nat (length l)) = Some x /\ py_getitem l i = Ok x.
Proof.
  intros H. unfold py_getitem. set (n := Z.of_nat (length l)) in *.
  destruct (Z.ltb_spec i 0) as [Hneg|Hpos].
  - assert (Hi : (i + n <? 0)%Z = false) by (apply Z.ltb_ge; lia).
    rewrite Hi.
    assert (Hm : (i mod n = i + n)%Z).
    { symmetry. apply (Z.mod_unique_pos i n (-1) (i + n)); lia. }
    rewrite Hm.
    destruct (lookup_lt_is_Some_2 l (Z.to_nat (i + n))) as [x Hx]; [lia|].
    exists x. by rewrite Hx.
  - assert (Hi : (i <? 0)%Z = false) by (apply Z.ltb_ge; lia).
    rewrite Hi. rewrite Z.mod_small by lia.
    destruct (lookup_lt_is_Some_2 l (Z.to_nat i)) as [x Hx]; [lia|].
    exists x. by rewrite Hx.
Qed.

Lemma py_getitem_out_of_range {A} (l : list A) (i : Z) :
  ~ (- Z.of_nat (length l) <= i < Z.of_nat (length l))%Z ->
  py_getitem l i = Raise IndexError.
Proof.
  intros H. unfold py_getitem. set (n := Z.of_nat (length l)) in *.
  destruct (Z.ltb_spec i 0) as [Hneg|Hpos].
  - destruct (Z.ltb_spec (i + n) 0) as [|Hge]; [reflexivity|]. lia.
  - assert (Hi : (i <? 0)%Z = false) by (apply Z.ltb_ge; lia).
    rewrite Hi. rewrite (lookup_ge_None_2 l (Z.to_nat i)); [reflexivity|]. lia.
Qed.

Lemma quot2_range (a k : Z) :
  (0 <= k)%Z ->
  ((- k <= Z.quot a 2 < k) <-> (0 < k /\ - 2 * k - 1 <= a <= 2 * k - 1))%Z.
Proof.
  intros Hk. Z.to_euclidean_division_equations. lia.
Qed.

(** X16.  In discrete mode, for an integer [a] that [a / 2] divides
    without rounding (an absolute value below [2^53]): [apply_action]
    accepts [a] exactly when it lies between [-2k-1] and [2k-1], where
    [k > 0] is the number of actions, and raises [IndexError] otherwise.
    An accepted action steps the variable at position [int(a/2)] of
    [_actions], counted from the end when [int(a/2)] is negative, upwards
    iff [a] is even: [-1] steps the first variable down, [-2] steps the
    last variable up. *)
Theorem discrete_action_domain (self : Environment) (a : Z) :
  discrete_actions self = true ->
  exact_half a ->
  let k := Z.of_nat (length (_actions self)) in
  ((0 < k /\ - 2 * k - 1 <= a <= 2 * k - 1)%Z ->
     exists r,
       _actions self !! Z.to_nat (Z.quot a 2 mod k) = Some r
       /\ apply_action self (DiscreteAction a)
          = Ok (with_spline self
                  (alter_var (fun v => snd (apply_discrete_action v (Z.even a))) r
                     (spline self))))
  /\ (~ (0 < k /\ - 2 * k - 1 <= a <= 2 * k - 1)%Z ->
      apply_action self (DiscreteAction a) = Raise IndexError).
Proof.
  intros Hmode _ k. unfold apply_action. rewrite Hmode.
  assert (Hev : (a mod 2 =? 0)%Z = Z.even a)
    by (rewrite Zmod_even; by destruct (Z.even a)).
  rewrite Hev. split; intros H.
  - apply quot2_range in H; [|lia].
    destruct (py_getitem_in_range (_actions self) (Z.quot a 2) H) as (r & Hr & ->).
    exists r. split; [exact Hr|reflexivity].
  - rewrite py_getitem_out_of_range; [reflexivity|].
    intros Hq. apply H. apply quot2_range; [lia|exact Hq].
Qed.

Lemma discrete_action_domain_witness :
  let v := mkVariableLocation (1 # 2) 0 1 (Some 10%Z) (1 # 10) (Some true) None in
  let self :=
    mkEnvironment
      (BSplineDef (mkSplineDefinition [] 1 (Some [Tuple [v; v]; Tuple [v; v]])))
      true [ControlPointRef 0 0; ControlPointRef 0 1; ControlPointRef 1 0;
            ControlPointRef 1 1] in
  (exists self',
     apply_action self (DiscreteAction (-2)) = Ok self'
     /\ (fun u => Qeq_bool (current_position u) (6 # 10))
          <$> get_var (spline self') (ControlPointRef 1 1) = Some true)
  /\ apply_action self (DiscreteAction 8) = Raise IndexError.
Proof.
  intros v self. split.
  - destruct (proj1 (discrete_action_domain self (-2) eq_refl
                       ltac:(unfold exact_half; simpl; lia)) ltac:(simpl; lia))
      as (r & Hr & ->).
    eexists. split; [reflexivity|]. injection Hr as <-. reflexivity.
  - apply (proj2 (discrete_action_domain self 8 eq_refl
                    ltac:(unfold exact_half; simpl; lia))). simpl. lia.
Defined.

(** X17.  In continuous mode [apply_action] never fails, whatever the
    length of the vector: the values are paired with the actions from the
    front, a vector that is too short leaves the remaining variables as
    they are, and the surplus values of a vector that is too long are
    ignored. *)
Theorem continuous_action_any_length (self : Environment) (a : list Q) :
  NoDup (_actions self) ->
  discrete_actions self = false ->
  exists self',
    apply_action self (ContinuousAction a) = Ok self'
    /\ _actions self' = _actions self
    /\ forall j r, _actions self !! j = Some r ->
         get_var (spline self') r =
         match a !! j with
         | Some x => (fun v => snd (apply_continuos_action v x)) <$> get_var (spline self) r
         | None => get_var (spline self) r
         end.
Proof.
  intros Hnd Hmode. unfold apply_action. rewrite Hmode. eexists.
  split; [reflexivity|].
  assert (Hsnd : (zip a (_actions self)).*2 = take (length a) (_actions self)).
  { generalize (_actions self). clear. induction a as [|x a IH]; intros [|r l]; csimpl;
      try reflexivity. by rewrite IH. }
  destruct (continuous_actions_positional (zip a (_actions self)) self)
    as (Ha & _ & Hin & Hout).
  { rewrite Hsnd. eapply sublist_NoDup; [exact Hnd|apply sublist_take]. }
  split; [exact Ha|]. intros j r Hr.
  destruct (a !! j) as [x|] eqn:Hx.
  - apply Hin. apply (list_elem_of_lookup_2 _ j).
    apply lookup_zip_with_Some. eauto.
  - apply Hout. rewrite Hsnd. intros Hel.
    apply list_elem_of_lookup in Hel as [i Hi].
    apply lookup_take_Some in Hi as [Hi Hlt].
    apply lookup_ge_None in Hx.
    assert (i = j) by (eapply NoDup_lookup; eauto). lia.
Qed.

Lemma continuous_action_any_length_witness :
  let v := mkVariableLocation (1 # 2) 0 1 (Some 10%Z) (1 # 10) (Some true) None in
  let self :=
    mkEnvironment
      (BSplineDef (mkSplineDefinition [] 1 (Some [Tuple [v; v]; Tuple [v; v]])))
      false [ControlPointRef 0 0; ControlPointRef 0 1; ControlPointRef 1 1] in
  exists self',
    apply_action self (ContinuousAction [1]) = Ok self'
    /\ get_var (spline self') (ControlPointRef 1 1) = Some v.
Proof.
  intros v self.
  assert (Hnd : NoDup (_actions self))
    by (apply (bool_decide_unpack (NoDup (_actions self))); exact I).
  destruct (continuous_action_any_length self [1] Hnd eq_refl) as (self' & Happ & _ & Hv).
  exists self'. split; [exact Happ|]. exact (Hv 2%nat (ControlPointRef 1 1) eq_refl).
Defined.

(** ** Environment: observations *)

Lemma get_var_table {A} (g : VariableLocation -> A) s r :
  nested s = true ->
  g <$> get_var s r = table_lookup (map (map g) (rows_of s)) (g <$> weights_of s) r.
Proof.
  intros Hs.
  assert (Hg : nested_grid (base_of s) = true).
  { destruct s; simpl in *; [assumption|]. by apply andb_true_iff in Hs as [? _]. }
  destruct r as [i j|i]; simpl.
  - unfold rows_of, nested_grid in *.
    destruct (control_point_variables (base_of s)) as [grid|]; [|discriminate]. simpl.
    rewrite !list_lookup_fmap.
    destruct (grid !! i) as [it|] eqn:Hit; simpl; [|reflexivity].
    assert (Ht : is_tuple it = true).
    { rewrite forallb_forall in Hg. apply Hg. apply list_elem_of_In.
      by apply (list_elem_of_lookup_2 _ i). }
    destruct it as [v|l]; [discriminate|]. simpl. by rewrite list_lookup_fmap.
  - destruct s as [d|d]; simpl; [reflexivity|].
    apply andb_true_iff in Hs as [_ Hw]. clear Hg. revert i.
    induction (weights d) as [|w ws IH]; intros i; [by destruct i|].
    simpl in Hw. apply andb_true_iff in Hw as [Hv Hw].
    destruct w as [x|v]; [discriminate|]. destruct i as [|i]; [reflexivity|].
    simpl. by apply IH.
Qed.

Lemma spline_observations_table self :
  nested (spline self) = true ->
  _get_spline_observations self
  = mapM (table_lookup (map (map current_position) (rows_of (spline self)))
            (current_position <$> weights_of (spline self))) (_actions self).
Proof.
  intros Hs. unfold _get_spline_observations. apply mapM_ext.
  intros r. by apply get_var_table.
Qed.

Lemma spline_calls_app cs1 cs2 s :
  spline_calls s (cs1 ++ cs2) = (s' ← spline_calls s cs1; spline_calls s' cs2).
Proof.
  unfold spline_calls. revert s. induction cs1 as [|c cs1 IH]; intros s; [reflexivity|].
  simpl. destruct (spline_call s c) as [s1|]; simpl; [apply IH|reflexivity].
Qed.

Lemma continuous_actions_as_calls (pairs : list (Q * VarRef)) : forall env,
  let env' :=
    foldl (fun env '(new_value, action_obj) =>
             with_spline env
               (alter_var (fun v => snd (apply_continuos_action v new_value))
                  action_obj (spline env))) env pairs in
  spline_calls (spline env) ((fun p => VarCall p.2 (CallContinuous p.1)) <$> pairs)
  = Ok (spline env')
  /\ _actions env' = _actions env.
Proof.
  induction pairs as [|[x r] ps IH]; intros env; cbn [foldl]; [by split|].
  destruct (IH (with_spline env
                  (alter_var (fun v => snd (apply_continuos_action v x)) r (spline env))))
    as [Hc Ha].
  split; [|exact Ha]. exact Hc.
Qed.

Lemma apply_action_as_calls self action self' :
  apply_action self action = Ok self' ->
  exists cs, spline_calls (spline self) cs = Ok (spline self')
    /\ _actions self' = _actions self.
Proof.
  unfold apply_action. destruct (discrete_actions self), action as [a|a];
    try discriminate.
  - destruct (py_getitem _ _) as [r|]; simpl; [|discriminate]. intros [= <-].
    exists [VarCall r (CallDiscrete (a mod 2 =? 0)%Z)]. by split.
  - intros [= <-]. eexists. apply continuous_actions_as_calls.
Qed.

Lemma apply_actions_as_calls actions : forall self self',
  apply_actions self actions = Ok self' ->
  exists cs, spline_calls (spline self) cs = Ok (spline self')
    /\ _actions self' = _actions self.
Proof.
  unfold apply_actions. induction actions as [|a actions IH]; intros self self' H.
  - injection H as <-. by exists [].
  - simpl in H. destruct (apply_action self a) as [self1|] eqn:Ha; [|discriminate].
    simpl in H. apply apply_action_as_calls in Ha as (cs1 & Hc1 & Ha1).
    destruct (IH _ _ H) as (cs2 & Hc2 & Ha2).
    exists (cs1 ++ cs2). rewrite spline_calls_app, Hc1. simpl.
    split; [exact Hc2|congruence].
Qed.

Lemma elem_of_grid_refs {A} (room : A -> bool) rows r :
  r ∈ grid_refs room rows ->
  exists i j row e, r = ControlPointRef i j /\ rows !! i = Some row /\ row !! j = Some e.
Proof.
  unfold grid_refs, row_refs. intros H.
  apply list_elem_of_join in H as (k & H & Hk).
  apply elem_of_lookup_imap in Hk as (i & row & -> & Hrow).
  apply list_elem_of_join in H as (k & H & Hk).
  apply elem_of_lookup_imap in Hk as (j & e & -> & He).
  destruct (room e); [|by apply elem_of_nil in H].
  apply list_elem_of_singleton in H. by exists i, j, row, e.
Qed.

Lemma elem_of_weight_actions ws r :
  r ∈ weight_actions ws -> exists i v, r = WeightRef i /\ ws !! i = Some v.
Proof.
  unfold weight_actions. intros H.
  apply list_elem_of_join in H as (k & H & Hk).
  apply elem_of_lookup_imap in Hk as (i & v & -> & Hv).
  destruct (fst (is_action v)); [|by apply elem_of_nil in H].
  apply list_elem_of_singleton in H. by exists i, v.
Qed.

(** The references handed out by [get_actions] point at variables. *)
Lemma actions_in_table {A} (g : VariableLocation -> A) s refs s1 :
  nested s = true ->
  Spline_get_actions s = Ok (refs, s1) ->
  Forall (fun r => is_Some (table_lookup (map (map g) (rows_of s)) (g <$> weights_of s) r))
    refs.
Proof.
  intros Hs H. rewrite Spline_get_actions_nested in H by assumption.
  injection H as <- _. apply Forall_app. split; apply Forall_forall; intros r Hr.
  - apply elem_of_grid_refs in Hr as (i & j & row & e & -> & Hi & Hj). simpl.
    rewrite list_lookup_fmap, Hi. simpl. rewrite list_lookup_fmap, Hj. by eexists.
  - apply elem_of_weight_actions in Hr as (i & v & -> & Hi). simpl.
    rewrite list_lookup_fmap, Hi. by eexists.
Qed.

Lemma run_invariant s d env actions env' :
  nested s = true ->
  Environment_init s d = Ok env ->
  apply_actions env actions = Ok env' ->
  Spline_get_actions s = Ok (_actions env', spline env)
  /\ nested (spline env') = true
  /\ forall A (g : VariableLocation -> A),
       (forall v c, g (call v c) = g v) ->
       (forall v, g (snd (is_action v)) = g v) ->
       map (map g) (rows_of (spline env')) = map (map g) (rows_of s)
       /\ g <$> weights_of (spline env') = g <$> weights_of s.
Proof.
  intros Hs Hinit Hrun. unfold Environment_init in Hinit.
  rewrite Spline_get_actions_nested in * by assumption. simpl in Hinit.
  injection Hinit as <-. simpl in *.
  apply apply_actions_as_calls in Hrun as (cs & Hcs & Ha). simpl in *.
  split; [by rewrite Ha|].
  set (s1 := map_vars (fun v => snd (is_action v)) s) in *.
  assert (Hn : nested s1 = true) by (subst s1; by rewrite nested_map_vars).
  split.
  - destruct (spline_calls_keep (fun _ => ()) (fun _ _ => eq_refl) cs s1 Hn)
      as (s' & Hcs' & Hn' & _).
    rewrite Hcs in Hcs'. by injection Hcs' as ->.
  - intros A g Hcall Hact.
    destruct (spline_calls_keep g Hcall cs s1 Hn) as (s' & Hcs' & _ & Hr & Hw).
    rewrite Hcs in Hcs'. injection Hcs' as <-. rewrite Hr, Hw. subst s1.
    rewrite rows_of_map_vars, weights_of_map_vars. split.
    + rewrite <- (list_fmap_compose (fmap (fun v => snd (is_action v))) (fmap g)).
      apply list_fmap_ext. intros _ row _. simpl.
      rewrite <- (list_fmap_compose (fun v => snd (is_action v)) g).
      apply list_fmap_ext. intros _ v _. apply Hact.
    + rewrite <- (list_fmap_compose (fun v => snd (is_action v)) g).
      apply list_fmap_ext. intros _ v _. apply Hact.
Qed.

Lemma run_observations s d env actions env' :
  nested s = true ->
  Environment_init s d = Ok env ->
  apply_actions env actions = Ok env' ->
  exists obs, _get_spline_observations env' = Some obs
    /\ length obs = length (_actions env').
Proof.
  intros Hs Hinit Hrun.
  destruct (run_invariant s d env actions env' Hs Hinit Hrun) as (Hact & Hn & Hkeep).
  assert (H : is_Some (_get_spline_observations env')).
  { unfold _get_spline_observations. apply mapM_is_Some.
    pose proof (actions_in_table (fun _ => ()) s _ _ Hs Hact) as Hin.
    destruct (Hkeep unit (fun _ => ()) (fun _ _ => eq_refl) (fun _ => eq_refl)) as [Hr Hw].
    rewrite <- Hr, <- Hw in Hin.
    eapply Forall_impl; [exact Hin|]. intros r Hr'. cbv beta in Hr'. simpl.
    rewrite <- (get_var_table (fun _ => ()) (spline env') r Hn) in Hr'.
    apply fmap_is_Some in Hr'. by apply fmap_is_Some. }
  destruct H as [obs Hobs]. exists obs. split; [assumption|].
  symmetry. by apply length_mapM in Hobs.
Qed.

(** X18.  After construction and any run of accepted actions the spline
    observations are the positions of the action variables, one per
    action.  At the end of an episode [_get_observations] pads them with
    [additional_observations] zeros, which gives a vector of the shape of
    the observation space; otherwise it appends whatever the solver
    reported. *)
Theorem observation_vector_shape s d env actions env' (n : Z) (solver : list Q) :
  nested s = true ->
  Environment_init s d = Ok env ->
  apply_actions env actions = Ok env' ->
  (0 <= n)%Z ->
  exists obs,
    _get_spline_observations env' = Some obs
    /\ length obs = length (_actions env)
    /\ (exists o, _get_observations env' n solver true = Some o
          /\ _define_observation_space env n = Box (-1) 1 [Z.of_nat (length o)])
    /\ _get_observations env' n solver false = Some (obs ++ solver).
Proof.
  intros Hs Hinit Hrun Hn.
  destruct (run_observations s d env actions env' Hs Hinit Hrun) as (obs & Hobs & Hlen).
  destruct (apply_actions_as_calls _ _ _ Hrun) as (_ & _ & Ha).
  exists obs. split; [assumption|]. split; [congruence|].
  unfold _get_observations. rewrite Hobs. simpl. split; [|reflexivity].
  eexists. split; [reflexivity|]. unfold _define_observation_space.
  rewrite length_app, length_replicate, Nat2Z.inj_add, Z2Nat.id by lia.
  by rewrite Hlen, Ha.
Qed.

Lemma rows_fmap_compose {A B C} (f : A -> B) (g : B -> C) (h : A -> C)
    (l : list (list A)) :
  (forall x, g (f x) = h x) -> map (map g) (map (map f) l) = map (map h) l.
Proof.
  intros H. rewrite <- (list_fmap_compose (fmap f) (fmap g)).
  apply list_fmap_ext. intros _ row _. simpl.
  rewrite <- (list_fmap_compose f g). apply list_fmap_ext. intros _ x _. apply H.
Qed.

Lemma Environment_init_nested s d env :
  nested s = true ->
  Environment_init s d = Ok env ->
  spline env = map_vars (fun v => snd (is_action v)) s.
Proof.
  intros Hs Hinit. unfold Environment_init in Hinit.
  rewrite Spline_get_actions_nested in Hinit by assumption. simpl in Hinit.
  by injection Hinit as <-.
Qed.

(** X19.  Resetting the spline after any run of accepted actions brings
    the spline observations back to those of the freshly constructed
    environment. *)
Theorem reset_restores_observations s d env actions env' :
  nested s = true ->
  fresh s ->
  Environment_init s d = Ok env ->
  apply_actions env actions = Ok env' ->
  exists s0 obs,
    Spline_reset (spline env') = Ok s0
    /\ _get_spline_observations env = Some obs
    /\ _get_spline_observations (with_spline env' s0) = Some obs.
Proof.
  intros Hs Hf Hinit Hrun.
  destruct (run_invariant s d env actions env' Hs Hinit Hrun) as (_ & Hn & Hkeep).
  destruct (run_invariant s d env [] env Hs Hinit eq_refl) as (_ & Hn0 & _).
  destruct (run_observations s d env [] env Hs Hinit eq_refl) as (obs & Hobs & _).
  destruct (apply_actions_as_calls _ _ _ Hrun) as (_ & _ & Ha).
  rewrite Spline_reset_nested by assumption.
  exists (map_vars reset (spline env')), obs.
  split; [reflexivity|]. split; [assumption|]. rewrite <- Hobs.
  assert (Hia : forall v, restore_point (snd (is_action v)) = restore_point v).
  { intros v. unfold is_action. by destruct (_is_action v). }
  assert (Hcp : forall v, current_position (snd (is_action v)) = current_position v).
  { intros v. unfold is_action. by destruct (_is_action v). }
  destruct (Hkeep _ restore_point restore_point_call Hia) as [Hr Hw].
  destruct (fresh_restore_points s Hf) as [Hfr Hfw].
  rewrite !spline_observations_table;
    [|assumption|simpl; by rewrite nested_map_vars].
  cbn [spline _actions with_spline]. rewrite Ha.
  rewrite (Environment_init_nested s d env Hs Hinit).
  rewrite !rows_of_map_vars, !weights_of_map_vars.
  rewrite (rows_fmap_compose reset current_position restore_point) by apply reset_position.
  rewrite (rows_fmap_compose _ current_position current_position) by apply Hcp.
  rewrite <- !(list_fmap_compose _ current_position).
  rewrite (list_fmap_ext (current_position ∘ reset) restore_point (weights_of (spline env')))
    by (intros _ v _; apply reset_position).
  rewrite (list_fmap_ext (current_position ∘ (fun v => snd (is_action v)))
             current_position (weights_of s))
    by (intros _ v _; apply Hcp).
  by rewrite Hr, Hw, Hfr, Hfw.
Qed.

Lemma reset_restores_observations_witness :
  let v := mkVariableLocation (1 # 2) 0 1 (Some 10%Z) (1 # 10) None None in
  let s := NURBSDef (mkNURBSDefinition
                       (mkSplineDefinition [] 1 (Some [Tuple [v; v]]))
                       [WVariable v]) in
  exists env env' s0,
    Environment_init s true = Ok env
    /\ apply_actions env [DiscreteAction 0; DiscreteAction 5] = Ok env'
    /\ Spline_reset (spline env') = Ok s0
    /\ _get_spline_observations env = Some [1 # 2; 1 # 2; 1 # 2]
    /\ _get_spline_observations (with_spline env' s0) = Some [1 # 2; 1 # 2; 1 # 2].
Proof.
  intros v s.
  assert (Hf : fresh s) by (repeat constructor).
  destruct (Environment_init s true) as [env|] eqn:Hinit; [|discriminate].
  destruct (apply_actions env [DiscreteAction 0; DiscreteAction 5]) as [env'|] eqn:Hrun;
    [|by injection Hinit as <-].
  destruct (reset_restores_observations s true env _ env' eq_refl Hf Hinit Hrun)
    as (s0 & obs & Hreset & Hobs & Hobs').
  exists env, env', s0. split; [reflexivity|]. split; [exact Hrun|].
  split; [exact Hreset|].
  assert (E : obs = [1 # 2; 1 # 2; 1 # 2]).
  { injection Hinit as <-. by injection Hobs as <-. }
  rewrite <- E. by split.
Defined.

Lemma observation_vector_shape_witness :
  let v := mkVariableLocation (1 # 2) 0 1 (Some 10%Z) (1 # 10) None None in
  let s := NURBSDef (mkNURBSDefinition
                       (mkSplineDefinition [] 1 (Some [Tuple [v; v]]))
                       [WVariable v]) in
  exists env env' obs,
    Environment_init s true = Ok env
    /\ apply_actions env [DiscreteAction 0; DiscreteAction 5] = Ok env'
    /\ _get_spline_observations env' = Some obs
    /\ length obs = 3%nat
    /\ _get_observations env' 2 [7] false = Some (obs ++ [7]).
Proof.
  intros v s.
  destruct (Environment_init s true) as [env|] eqn:Hinit; [|discriminate].
  destruct (apply_actions env [DiscreteAction 0; DiscreteAction 5]) as [env'|] eqn:Hrun;
    [|by injection Hinit as <-].
  destruct (observation_vector_shape s true env _ env' 2 [7] eq_refl Hinit Hrun
              ltac:(lia))
    as (obs & Hobs & Hlen & _ & Hnot).
  exists env, env', obs. split; [reflexivity|]. split; [exact Hrun|].
  split; [exact Hobs|]. split; [|exact Hnot].
  rewrite Hlen. by injection Hinit as <-.
Defined.

(** ** The actions of the default grid *)

Lemma bounded_variable_is_action e h :
  0 < h -> fst (is_action (bounded_variable e h)) = true.
Proof.
  intros Hh. unfold is_action, bounded_variable. simpl.
  destruct (Qeq_bool e 0) eqn:E0; [|destruct (Qeq_bool e 1) eqn:E1].
  - apply orb_true_iff. left. apply Qlt_bool_true. lra.
  - apply orb_true_iff. right. apply Qlt_bool_true. lra.
  - apply orb_true_iff. left. apply Qlt_bool_true. lra.
Qed.

Lemma axis_spacing_pos n : (2 <= n)%Z -> 0 < axis_spacing n.
Proof.
  intros H. unfold axis_spacing.
  assert (0 < inject_Z ((n - 1) * 2))
    by (change 0 with (inject_Z 0); rewrite <- Zlt_Qlt; lia).
  apply Qlt_shift_div_l; [assumption|]. lra.
Qed.

Lemma pure_grid_shape ns :
  ns <> [] ->
  Forall (fun n => (2 <= n)%Z) ns ->
  exists g, pure_grid ns = Some g
    /\ Forall (fun it => length (as_list it) = length ns
                         /\ Forall (fun v => fst (is_action v) = true) (as_list it)
                         /\ (2 <= length ns -> is_tuple it = true)%nat) g.
Proof.
  induction ns as [|n ns IH]; intros Hne H; [done|].
  inversion H as [|? ? Hn Hns]; subst.
  pose proof (bounded_variable_is_action) as Hact.
  pose proof (axis_spacing_pos n Hn) as Hh.
  destruct ns as [|n' ns'].
  - eexists. split; [reflexivity|]. apply Forall_fmap, Forall_true. intros e. simpl.
    split; [reflexivity|]. split; [repeat constructor; by apply Hact|]. lia.
  - destruct (IH ltac:(done) Hns) as (g' & Hg' & Hall).
    unfold pure_grid in *. cbn [foldr] in *. rewrite Hg'. cbn [pure_grid_step].
    eexists. split; [reflexivity|]. apply Forall_forall. intros it Hit.
    apply list_elem_of_join in Hit as (l & Hit & Hl).
    apply list_elem_of_fmap in Hl as (cur & -> & Hcur).
    apply list_elem_of_fmap in Hit as (e & -> & _).
    rewrite Forall_forall in Hall. destruct (Hall cur Hcur) as (Hlen & Hacts & _).
    simpl. split; [by rewrite Hlen|]. split; [|done].
    constructor; [by apply Hact|assumption].
Qed.

Lemma join_imap_all {A B} (room : A -> bool) (l : list A) : forall (f : nat -> B),
  Forall (fun e => room e = true) l ->
  mjoin (imap (fun j e => if room e then [f j] else []) l) = f <$> seq 0 (length l).
Proof.
  induction l as [|x l IH]; intros f H; [reflexivity|].
  inversion H as [|? ? Hx Hl]; subst. csimpl. rewrite Hx. simpl. f_equal.
  rewrite <- fmap_S_seq, <- list_fmap_compose. rewrite <- (IH (f ∘ S) Hl).
  reflexivity.
Qed.

Lemma imap_by_index {A B} (l : list A) : forall (g : nat -> A -> B) (h : nat -> B),
  (forall i x, x ∈ l -> g i x = h i) -> imap g l = h <$> seq 0 (length l).
Proof.
  induction l as [|x l IH]; intros g h H; [reflexivity|].
  csimpl. f_equal; [apply H; by left|].
  rewrite <- fmap_S_seq, <- list_fmap_compose. apply IH.
  intros i y Hy. apply H. by right.
Qed.

(** X20.  In a default grid of two or more axes every coordinate of every
    control point has room to move: [get_actions] returns all of them,
    control point by control point in the order of the grid, the
    coordinates of a control point in the order of the axes. *)
Theorem default_grid_all_actions (data : SDArgs) :
  kw_control_point_variables data = None ->
  (2 <= length (kw_space_dimensions data))%nat ->
  Forall (fun a => (2 <= kw_number_of_points a)%Z /\ (1 <= kw_degree a)%Z)
    (kw_space_dimensions data) ->
  (1 <= kw_spline_dimension data)%Z ->
  exists s s',
    SplineDefinition_init data = Ok s
    /\ SplineDefinition_get_actions s
       = Ok (mjoin ((fun i => ControlPointRef i <$> seq 0 (length (kw_space_dimensions data)))
                      <$> seq 0 (Z.to_nat (get_number_of_points s))), s').
Proof.
  intros Hcp Hlen Hall Hsd.
  assert (Hne : kw_space_dimensions data <> [])
    by (destruct (kw_space_dimensions data); [simpl in Hlen; lia|done]).
  destruct (default_grid_construction data Hcp Hne Hall Hsd)
    as (s & g & Hs & Hg & Hpure & Hnum & _).
  destruct (pure_grid_shape (kw_number_of_points <$> kw_space_dimensions data))
    as (g' & Hg' & Hshape).
  { intros E. apply Hne. by apply fmap_nil_inv in E. }
  { apply Forall_fmap. eapply Forall_impl; [exact Hall|]. by intros a [? _]. }
  rewrite Hpure in Hg'. injection Hg' as <-. rewrite length_fmap in Hshape.
  exists s. unfold SplineDefinition_get_actions, grid_rows. rewrite Hg.
  rewrite traverse_iter_item.
  2:{ apply forallb_forall. intros it Hit. apply list_elem_of_In in Hit.
      rewrite Forall_forall in Hshape. by apply (Hshape it Hit). }
  simpl. eexists. split; [exact Hs|]. f_equal. f_equal.
  rewrite <- Hnum, Nat2Z.id, <- (length_fmap as_list g). f_equal.
  apply imap_by_index. intros i row Hrow.
  apply list_elem_of_fmap in Hrow as (it & -> & Hit).
  rewrite Forall_forall in Hshape. destruct (Hshape it Hit) as (Hl & Hact & _).
  unfold row_actions. rewrite <- Hl.
  apply (join_imap_all (fun v => fst (is_action v)) (as_list it) (ControlPointRef i) Hact).
Qed.

Lemma default_grid_all_actions_witness :
  exists s s',
    SplineDefinition_init
      (mkSDArgs [mkSSDArgs "u" 2 1 None; mkSSDArgs "v" 2 1 None] 2 None) = Ok s
    /\ SplineDefinition_get_actions s
       = Ok ([ControlPointRef 0 0; ControlPointRef 0 1; ControlPointRef 1 0;
              ControlPointRef 1 1; ControlPointRef 2 0; ControlPointRef 2 1;
              ControlPointRef 3 0; ControlPointRef 3 1], s').
Proof.
  destruct (default_grid_all_actions
              (mkSDArgs [mkSSDArgs "u" 2 1 None; mkSSDArgs "v" 2 1 None] 2 None)
              eq_refl ltac:(simpl; lia)
              ltac:(repeat constructor; simpl; lia) ltac:(simpl; lia))
    as (s & s' & Hs & Ha).
  exists s, s'. split; [exact Hs|]. rewrite Ha.
  injection Hs as <-. reflexivity.
Defined.

(** ** CubeDefinition *)

Lemma length_join_imap {A B} (l : list A) : forall (h : nat -> A -> list B) (w : A -> nat),
  (forall j e, length (h j e) <= w e)%nat ->
  (length (mjoin (imap h l)) <= sum_list (w <$> l))%nat.
Proof.
  induction l as [|e l IH]; intros h w H; csimpl; [lia|].
  rewrite length_app. specialize (IH (h ∘ S) w (fun j e => H (S j) e)).
  specialize (H 0%nat e). lia.
Qed.

Lemma length_grid_refs {A} (room : A -> bool) (rows : list (list A)) :
  (length (grid_refs room rows) <= length (mjoin rows))%nat.
Proof.
  unfold grid_refs. rewrite (length_join rows).
  apply (length_join_imap rows (row_refs room) length). intros i row.
  unfold row_refs.
  etransitivity; [apply (length_join_imap row _ (fun _ => 1%nat))|].
  - intros j e. destruct (room e); simpl; lia.
  - rewrite sum_list_fmap_const. lia.
Qed.

(** X21.  [get_number_of_points] of a cube raises [IndexError] when the
    cube has no control point.  Otherwise it multiplies the number of
    control points by the length of the first one: for a cube whose control
    points all have the same number of coordinates this is the number of
    coordinates (not of control points), the positions [get_spline]
    returns are as many, and [get_actions] never returns more references
    than that. *)
Theorem cube_number_of_points (self : CubeDefinition) (m : nat) :
  (control_points self = [] -> Cube_get_number_of_points self = Raise IndexError)
  /\ (control_points self <> [] ->
      Forall (fun cp => length cp = m) (control_points self) ->
      Cube_get_number_of_points self
        = Ok (Z.of_nat (length (mjoin (Cube_get_spline self))))
      /\ length (mjoin (Cube_get_spline self))
         = (length (control_points self) * m)%nat
      /\ (length (fst (Cube_get_actions self))
          <= length (mjoin (Cube_get_spline self)))%nat).
Proof.
  unfold Cube_get_number_of_points, Cube_get_spline, Cube_get_control_points,
    Cube_get_actions.
  destruct self as [cps]. simpl. split; [by intros ->|]. intros Hne Hall.
  assert (Hlen : length (mjoin (map (map current_position) cps)) = (length cps * m)%nat).
  { rewrite length_join, (sum_list_fmap_same m), length_fmap; [lia|].
    apply Forall_fmap. eapply Forall_impl; [exact Hall|].
    intros cp Hcp. simpl. by rewrite length_fmap. }
  assert (Hsame : length (mjoin (map (map current_position) cps)) = length (mjoin cps)).
  { rewrite Hlen, length_join, (sum_list_fmap_same m) by exact Hall. lia. }
  assert (Hfirst : exists cp, py_getitem cps 0 = Ok cp /\ length cp = m).
  { destruct cps as [|cp cps']; [done|]. inversion Hall; subst. by eexists. }
  destruct Hfirst as (cp & -> & Hcp). simpl. rewrite Hlen, Hcp.
  split; [f_equal; lia|]. split; [reflexivity|].
  rewrite <- Hlen, Hsame.
  apply (length_grid_refs (fun v => fst (is_action v)) cps).
Qed.

Lemma cube_number_of_points_witness :
  let v := mkVariableLocation (1 # 2) 0 1 (Some 10%Z) (1 # 10) None None in
  let w := mkVariableLocation (1 # 2) (1 # 2) (1 # 2) (Some 10%Z) 0 None None in
  let self := mkCubeDefinition [[v; w]; [w; w]; [v; v]] in
  Cube_get_number_of_points self = Ok 6%Z
  /\ (length (fst (Cube_get_actions self)) <= 6)%nat.
Proof.
  intros v w self.
  destruct (proj2 (cube_number_of_points self 2) ltac:(done)
              ltac:(repeat constructor)) as (Hn & _ & Ha).
  split; [exact Hn|exact Ha].
Defined.

(** * The environment and the single-axis grid *)

(** ** A default grid of a single axis *)

(** C9 (the code at the failing input).  With a single axis of at least
    two points and no control points supplied, the constructor stores a flat
    list of [VariableLocation] objects where the field is declared, and the
    validator annotated, as a list of lists.  [reset] iterates every entry
    as a list of variables and raises [AttributeError] on the first one,
    for a B-spline and for a NURBS alike: nothing is restored. *)
Theorem reset_raises_on_single_axis_default_grid (a : SSDArgs) (sd : Z) :
  (2 <= kw_number_of_points a)%Z -> (1 <= kw_degree a)%Z -> (1 <= sd)%Z ->
  exists s,
    SplineDefinition_init (mkSDArgs [a] sd None) = Ok s
    /\ nested (BSplineDef s) = false
    /\ Spline_reset (BSplineDef s) = Raise AttributeError
    /\ forall ws, Spline_reset (NURBSDef (mkNURBSDefinition s ws)) = Raise AttributeError.
Proof.
  intros Hn Hd Hsd.
  destruct (default_grid_construction (mkSDArgs [a] sd None)) as (s & g & Hs & Hg & Hpure & _);
    [reflexivity|done|by repeat constructor|assumption|].
  exists s. split; [assumption|].
  assert (Hbare : exists v g', g = Bare v :: g').
  { unfold pure_grid in Hpure. simpl in Hpure. injection Hpure as <-.
    pose proof (axis_length (kw_number_of_points a) Hn) as Hlen.
    destruct (np_linspace 0 1 (kw_number_of_points a)) as [|e l]; [simpl in Hlen; lia|].
    csimpl. eauto. }
  destruct Hbare as (v & g' & ->).
  assert (Hreset : SplineDefinition_reset s = Raise AttributeError).
  { unfold SplineDefinition_reset, grid_rows. by rewrite Hg. }
  split; [|split].
  - simpl. unfold nested_grid. by rewrite Hg.
  - simpl. by rewrite Hreset.
  - intros ws. simpl. unfold NURBSDefinition_reset. simpl. by rewrite Hreset.
Qed.

Lemma reset_raises_on_single_axis_default_grid_witness :
  exists s,
    SplineDefinition_init (mkSDArgs [mkSSDArgs "u" 3 1 None] 1 None) = Ok s
    /\ Spline_reset (BSplineDef s) = Raise AttributeError.
Proof.
  destruct (reset_raises_on_single_axis_default_grid (mkSSDArgs "u" 3 1 None) 1
              ltac:(simpl; lia) ltac:(simpl; lia) ltac:(lia))
    as (s & Hs & _ & Hr & _).
  exists s. by split.
Defined.

(** ** The actions of a constructed environment *)

Lemma traverse_iter_item_inv g rows :
  traverse iter_item g = Ok rows -> forallb is_tuple g = true.
Proof.
  revert rows. induction g as [|[v|l] g IH]; intros rows; csimpl; [done|discriminate|].
  destruct (traverse iter_item g) as [rs|]; [|discriminate]. intros _. by eapply IH.
Qed.

Lemma traverse_weight_variable_inv ws vs :
  traverse weight_variable ws = Ok vs -> forallb is_variable ws = true.
Proof.
  revert vs. induction ws as [|[x|v] ws IH]; intros vs; csimpl; [done|discriminate|].
  destruct (traverse weight_variable ws) as [rs|]; [|discriminate]. intros _. by eapply IH.
Qed.

(** [get_actions] succeeds only on a spline whose grid is a list of lists
    and whose weights are variables. *)
Lemma get_actions_Ok_nested s refs s1 :
  Spline_get_actions s = Ok (refs, s1) -> nested s = true.
Proof.
  assert (Hd : forall d r, SplineDefinition_get_actions d = Ok r -> nested_grid d = true).
  { intros d r. unfold SplineDefinition_get_actions, grid_rows, nested_grid.
    destruct (control_point_variables d) as [g|]; [|discriminate].
    destruct (traverse iter_item g) as [rows|] eqn:E; [|discriminate].
    intros _. by eapply traverse_iter_item_inv. }
  destruct s as [d|d]; simpl.
  - destruct (SplineDefinition_get_actions d) as [r|] eqn:E; [|discriminate].
    intros _. by eapply Hd.
  - unfold NURBSDefinition_get_actions.
    destruct (SplineDefinition_get_actions (nurbs_base d)) as [[a b]|] eqn:E;
      [|discriminate]. simpl.
    destruct (traverse weight_variable (weights d)) as [ws|] eqn:Ew; [|discriminate].
    intros _. apply andb_true_iff. split; [by eapply Hd|].
    by eapply traverse_weight_variable_inv.
Qed.

Lemma apply_action_mode self action self' :
  apply_action self action = Ok self' -> discrete_actions self' = discrete_actions self.
Proof.
  unfold apply_action. destruct (discrete_actions self) eqn:Hm, action as [a|a];
    try discriminate.
  - destruct (py_getitem _ _) as [r|]; simpl; [|discriminate]. by intros [= <-].
  - intros [= <-]. rewrite <- Hm. generalize (zip a (_actions self)). intros pairs.
    clear Hm. revert self. induction pairs as [|[x r] ps IH]; intros self;
      cbn [foldl]; [reflexivity|]. by rewrite IH.
Qed.

Lemma apply_actions_mode actions : forall self self',
  apply_actions self actions = Ok self' -> discrete_actions self' = discrete_actions self.
Proof.
  unfold apply_actions. induction actions as [|a actions IH]; intros self self' H.
  - by injection H as <-.
  - simpl in H. destruct (apply_action self a) as [self1|] eqn:Ha; [|discriminate].
    simpl in H. rewrite (IH _ _ H). by eapply apply_action_mode.
Qed.

Lemma table_lookup_fmap {A B} (f : A -> B) rows ws r :
  table_lookup (map (map f) rows) (f <$> ws) r = f <$> table_lookup rows ws r.
Proof.
  destruct r as [i j|i]; simpl.
  - rewrite list_lookup_fmap. destruct (rows !! i) as [row|]; simpl; [|reflexivity].
    by rewrite list_lookup_fmap.
  - by rewrite list_lookup_fmap.
Qed.

Lemma elem_of_grid_refs_room {A} (room : A -> bool) rows r :
  r ∈ grid_refs room rows ->
  exists e, table_lookup rows [] r = Some e /\ room e = true.
Proof.
  unfold grid_refs, row_refs. intros H.
  apply list_elem_of_join in H as (k & H & Hk).
  apply elem_of_lookup_imap in Hk as (i & row & -> & Hrow).
  apply list_elem_of_join in H as (k & H & Hk).
  apply elem_of_lookup_imap in Hk as (j & e & -> & He).
  destruct (room e) eqn:E; [|by apply elem_of_nil in H].
  apply list_elem_of_singleton in H as ->. exists e. simpl. by rewrite Hrow.
Qed.

Lemma elem_of_weight_actions_room ws r :
  r ∈ weight_actions ws ->
  exists v, table_lookup [] ws r = Some v /\ fst (is_action v) = true.
Proof.
  unfold weight_actions. intros H.
  apply list_elem_of_join in H as (k & H & Hk).
  apply elem_of_lookup_imap in Hk as (i & v & -> & Hv).
  destruct (fst (is_action v)) eqn:E; [|by apply elem_of_nil in H].
  apply list_elem_of_singleton in H as ->. by exists v.
Qed.

(** The references of a constructed environment point, at any time, at
    variables that answered [is_action] with true. *)
Lemma run_actions_eligible s d env actions env' :
  Environment_init s d = Ok env ->
  apply_actions env actions = Ok env' ->
  Forall (fun r => exists v, get_var (spline env') r = Some v
                             /\ fst (is_action v) = true) (_actions env').
Proof.
  intros Hinit Hrun.
  assert (Hs : nested s = true).
  { unfold Environment_init in Hinit.
    destruct (Spline_get_actions s) as [[refs s1]|] eqn:E; [|discriminate].
    by eapply get_actions_Ok_nested. }
  pose proof (Environment_init_nested s d env Hs Hinit) as Hs1.
  destruct (run_invariant s d env actions env' Hs Hinit Hrun) as (Hact & Hn & _).
  destruct (apply_actions_as_calls _ _ _ Hrun) as (cs & Hcs & Ha).
  assert (Hn1 : nested (spline env) = true) by (rewrite Hs1; by rewrite nested_map_vars).
  destruct (spline_calls_keep _is_action
              (fun v c => proj2 (proj2 (proj2 (proj2 (call_keeps v c))))) cs _ Hn1)
    as (s' & Hcs' & _ & Hr & Hw).
  rewrite Hcs in Hcs'. injection Hcs' as <-.
  rewrite Hs1, rows_of_map_vars in Hr. rewrite Hs1, weights_of_map_vars in Hw.
  rewrite (rows_fmap_compose _ _is_action (fun v => Some (fst (is_action v)))) in Hr
    by apply is_action_cached.
  rewrite <- (list_fmap_compose _ _is_action) in Hw.
  rewrite (list_fmap_ext (_is_action ∘ (fun v => snd (is_action v)))
             (fun v => Some (fst (is_action v))) (weights_of s)) in Hw
    by (intros _ v _; apply is_action_cached).
  rewrite Spline_get_actions_nested in Hact by assumption. injection Hact as Hrefs.
  assert (Hlook : forall r, r ∈ _actions env' ->
            table_lookup (map (map (fun v => Some (fst (is_action v)))) (rows_of s))
              ((fun v => Some (fst (is_action v))) <$> weights_of s) r = Some (Some true)).
  { intros r Hin. rewrite <- Hrefs in Hin. rewrite table_lookup_fmap.
    apply elem_of_app in Hin as [Hin|Hin].
    - apply elem_of_grid_refs_room in Hin as (e & He & Hroom).
      destruct r as [i j|i]; [|by destruct i]. simpl in *. rewrite He. simpl.
      by rewrite Hroom.
    - apply elem_of_weight_actions_room in Hin as (v & Hv & Hroom).
      destruct r as [i j|i]; [by destruct i|]. simpl in *. rewrite Hv. simpl.
      by rewrite Hroom. }
  apply Forall_forall. intros r Hin. specialize (Hlook r Hin).
  rewrite <- Hr, <- Hw, <- (get_var_table _is_action _ r Hn) in Hlook.
  destruct (get_var (spline env') r) as [v|]; [|discriminate].
  exists v. split; [reflexivity|]. injection Hlook as Hv.
  by rewrite (cached_answer _ _ Hv).
Qed.

(** C8.  An environment is constructed from a spline [s] and acted on by
    any run of accepted actions.  Its [_actions] are the references that
    [get_actions] returned for [s], in that order, [k] of them, and each
    points at a variable that is an action.  In discrete mode the action
    space is [Discrete(2k)], and action [i] in [[0, 2k)] calls
    [apply_discrete_action] on the variable at position [i // 2] with
    [increasing] true iff [i % 2 == 0], leaving every other variable as it
    was; in continuous mode the space is a box of shape [(k,)], and a
    vector of length [k] is applied positionally, element [j] to variable
    [j] through [apply_continuos_action], leaving every variable outside
    [_actions] as it was. *)
Theorem action_index_convention (s : SplineTypes) (d : bool)
    (env self : Environment) (run : list Action) :
  Environment_init s d = Ok env ->
  apply_actions env run = Ok self ->
  let k := Z.of_nat (length (_actions self)) in
  (exists s1, Spline_get_actions s = Ok (_actions self, s1))
  /\ Forall (fun r => exists v, get_var (spline self) r = Some v
                                /\ fst (is_action v) = true) (_actions self)
  /\ (d = true ->
      _set_up_actions self = Discrete (2 * k)
      /\ forall i, (0 <= i < 2 * k)%Z ->
         exists r v self',
           _actions self !! Z.to_nat (i / 2) = Some r
           /\ get_var (spline self) r = Some v
           /\ apply_action self (DiscreteAction i) = Ok self'
           /\ _actions self' = _actions self
           /\ get_var (spline self') r = Some (snd (apply_discrete_action v (Z.even i)))
           /\ forall r', r' <> r -> get_var (spline self') r' = get_var (spline self) r')
  /\ (d = false ->
      _set_up_actions self = Box (-1) 1 [k]
      /\ forall a : list Q, length a = length (_actions self) ->
         exists self',
           apply_action self (ContinuousAction a) = Ok self'
           /\ _actions self' = _actions self
           /\ (forall j r x, _actions self !! j = Some r -> a !! j = Some x ->
                 exists v, get_var (spline self) r = Some v
                   /\ get_var (spline self') r = Some (snd (apply_continuos_action v x)))
           /\ forall r', r' ∉ _actions self ->
                get_var (spline self') r' = get_var (spline self) r').
Proof.
  intros Hinit Hrun k.
  pose proof (run_actions_eligible s d env run self Hinit Hrun) as Hel.
  assert (Hs : nested s = true).
  { unfold Environment_init in Hinit.
    destruct (Spline_get_actions s) as [[refs s1]|] eqn:E; [|discriminate].
    by eapply get_actions_Ok_nested. }
  destruct (run_invariant s d env run self Hs Hinit Hrun) as (Hact & _ & _).
  destruct (apply_actions_as_calls _ _ _ Hrun) as (_ & _ & Ha).
  assert (Hnd : NoDup (_actions self))
    by (rewrite Ha; by eapply Environment_init_NoDup).
  assert (Hmode : discrete_actions self = d).
  { rewrite (apply_actions_mode _ _ _ Hrun). unfold Environment_init in Hinit.
    destruct (Spline_get_actions s) as [[refs s1]|]; [|discriminate].
    by injection Hinit as <-. }
  split; [eauto|]. split; [exact Hel|]. rewrite Forall_forall in Hel.
  split; intros ->.
  - split; [unfold _set_up_actions; rewrite Hmode; f_equal; lia|].
    intros i Hi. unfold apply_action. rewrite Hmode.
    destruct (discrete_action_decoding i) as [-> ->]; [lia|].
    destruct (py_getitem_nonneg (_actions self) (i / 2)) as (r & Hr & ->).
    { split; [apply Z.div_pos; lia|]. apply Z.div_lt_upper_bound; lia. }
    destruct (Hel r) as (v & Hv & _); [by eapply list_elem_of_lookup_2|].
    eexists r, v, _. split; [exact Hr|]. split; [exact Hv|].
    split; [reflexivity|]. split; [reflexivity|].
    cbn [spline with_spline]. split.
    + rewrite get_var_alter_var, decide_True by reflexivity. by rewrite Hv.
    + intros r' Hne. rewrite get_var_alter_var. by rewrite decide_False.
  - split; [unfold _set_up_actions; by rewrite Hmode|].
    intros a Hlen. unfold apply_action. rewrite Hmode. eexists. split; [reflexivity|].
    assert (Hsnd : (zip a (_actions self)).*2 = _actions self)
      by (apply snd_zip; lia).
    destruct (continuous_actions_positional (zip a (_actions self)) self)
      as (Ha' & _ & Hin & Hout); [by rewrite Hsnd|].
    split; [exact Ha'|]. split.
    + intros j r x Hr Hx.
      destruct (Hel r) as (v & Hv & _); [by eapply list_elem_of_lookup_2|].
      exists v. split; [exact Hv|]. rewrite (Hin x r).
      * by rewrite Hv.
      * apply (list_elem_of_lookup_2 _ j). apply lookup_zip_with_Some. eauto.
    + intros r' Hr'. apply Hout. by rewrite Hsnd.
Qed.

Lemma action_index_convention_witness :
  let v := mkVariableLocation (1 # 2) 0 1 (Some 10%Z) (1 # 10) None None in
  let s := BSplineDef (mkSplineDefinition [] 1 (Some [Tuple [v; v]; Tuple [v; v]])) in
  exists env self self',
    Environment_init s true = Ok env
    /\ apply_actions env [DiscreteAction 0] = Ok self
    /\ _set_up_actions self = Discrete 8
    /\ apply_action self (DiscreteAction 5) = Ok self'
    /\ (fun u => Qeq_bool (current_position u) (4 # 10))
         <$> get_var (spline self') (ControlPointRef 1 0) = Some true.
Proof.
  intros v s.
  destruct (Environment_init s true) as [env|] eqn:Hinit; [|discriminate].
  destruct (apply_actions env [DiscreteAction 0]) as [self|] eqn:Hrun;
    [|by injection Hinit as <-].
  destruct (action_index_convention s true env self _ Hinit Hrun)
    as (_ & _ & Hdisc & _).
  destruct (Hdisc eq_refl) as [Hspace Hact].
  assert (Hk : length (_actions self) = 4%nat).
  { injection Hinit as <-. by injection Hrun as <-. }
  rewrite Hk in Hspace, Hact.
  destruct (Hact 5%Z ltac:(simpl; lia)) as (r & u & self' & Hr & Hu & Happ & _ & Hv & _).
  exists env, self, self'. split; [reflexivity|]. split; [exact Hrun|].
  split; [exact Hspace|]. split; [exact Happ|].
  assert (r = ControlPointRef 1 0) as ->.
  { injection Hinit as <-. injection Hrun as <-. by injection Hr as <-. }
  rewrite Hv.
  assert (u = mkVariableLocation (1 # 2) 0 1 (Some 10%Z) (1 # 10) (Some true) None) as ->.
  { injection Hinit as <-. injection Hrun as <-. by injection Hu as <-. }
  reflexivity.
Defined.
